(** * where-its-at: the federated search core

    A shallow embedding of [pkg/integrations/mega_aggregator.go] (fan-out
    orchestrator, deduplicator, result cache), of the scraper registry, and
    of the rate limiters of the Bandsintown and MusicBrainz clients, with
    the properties of the specification proved about them.

    Conventions.
    - Go [int] and [time.Duration] values are [Z]; the places where 64-bit
      arithmetic can saturate or wrap are written out.
    - A [*AggregatedResults] is an [option]: [None] is the nil pointer.
    - An [error] is its message, a nil error is [None].
    - [time.Now()] is an argument: each function receives the instants it
      reads from the clock.
    - The fan-in channel is drained in an order the scheduler picks: the
      search operations take the drained sequence as an argument, and
      [drainedArtists] and its siblings say which sequences can arrive. *)

From Stdlib Require Import ZArith Ascii String.
From stdpp Require Import gmap strings pretty list sorting.

Set Warnings "-clear-no-such-hyp".

Local Open Scope string_scope.
Local Open Scope list_scope.
Local Open Scope Z_scope.

(** ** Go's [strings] package, on byte strings *)

Definition isUpperASCII (c : ascii) : bool :=
  ((65 <=? nat_of_ascii c) && (nat_of_ascii c <=? 90))%nat.

Definition toLowerByte (c : ascii) : ascii :=
  if isUpperASCII c then ascii_of_nat (nat_of_ascii c + 32) else c.

Fixpoint isASCII (s : string) : bool :=
  match s with
  | "" => true
  | String c s' => (nat_of_ascii c <? 128)%nat && isASCII s'
  end.

Fixpoint mapBytes (f : ascii -> ascii) (s : string) : string :=
  match s with
  | "" => ""
  | String c s' => String (f c) (mapBytes f s')
  end.

(** Leftmost, non-overlapping replacement: [skip] counts the bytes of a
    match that are still to be dropped. *)
Fixpoint replaceFrom (old new : string) (skip : nat) (s : string) : string :=
  match s with
  | "" => ""
  | String c s' =>
      match skip with
      | S k => replaceFrom old new k s'
      | O =>
          if String.prefix old (String c s')
          then new +:+ replaceFrom old new (String.length old - 1) s'
          else String c (replaceFrom old new 0 s')
      end
  end.

Fixpoint interleave (new s : string) : string :=
  match s with
  | "" => new
  | String c s' => new +:+ String c (interleave new s')
  end.

(** [strings.ReplaceAll]. With an empty [old] Go inserts [new] at every rune
    boundary; the byte-wise [interleave] is that for ASCII text. The program
    only ever passes a one-character [old]. *)
Definition ReplaceAll (s old new : string) : string :=
  if decide (old = "") then interleave new s else replaceFrom old new 0 s.

(** What the specification calls stripping: the bytes of [cs] removed. *)
Fixpoint stripBytes (cs : list ascii) (s : string) : string :=
  match s with
  | "" => ""
  | String c s' =>
      if decide (c ∈ cs) then stripBytes cs s' else String c (stripBytes cs s')
  end.

Fixpoint hasByte (c : ascii) (s : string) : bool :=
  match s with
  | "" => false
  | String c' s' => if decide (c' = c) then true else hasByte c s'
  end.

(** [fmt.Sprintf] at the three formats the program uses. [%d] of an [int]
    is its decimal numeral. *)
Definition Itoa (n : Z) : string := pretty n.

Definition Sprintf_s_d (s : string) (d : Z) : string :=
  s +:+ "_" +:+ Itoa d.

Definition Sprintf_s_s_d (s1 s2 : string) (d : Z) : string :=
  s1 +:+ "_" +:+ s2 +:+ "_" +:+ Itoa d.

Definition Sprintf_s_s_s (s1 s2 s3 : string) : string :=
  s1 +:+ "_" +:+ s2 +:+ "_" +:+ s3.

(** ** Go's [time] package *)

Definition Duration := Z.

Definition Nanosecond : Duration := 1.
Definition Second : Duration := 1000000000.
Definition Hour : Duration := 3600 * Second.

Definition maxDuration : Duration := 2 ^ 63 - 1.
Definition minDuration : Duration := - 2 ^ 63.

(** 64-bit two's complement wrap-around of [Duration] arithmetic. *)
Definition wrap64 (z : Z) : Z := (z + 2 ^ 63) mod 2 ^ 64 - 2 ^ 63.

Module Time.
(** An instant (nanoseconds since the Unix epoch) and the offset of its
    location at that instant, in seconds east of UTC. *)
Record t := mk { unixNano : Z; zoneOffset : Z }.

(** The zero [Time]: January 1 of year 1, UTC. *)
Definition zero : t := {| unixNano := -62135596800 * 1000000000; zoneOffset := 0 |}.

Definition After (a b : t) : bool := unixNano b <? unixNano a.
Definition Before (a b : t) : bool := unixNano a <? unixNano b.

Definition Add (a : t) (d : Duration) : t :=
  {| unixNano := unixNano a + d; zoneOffset := zoneOffset a |}.

(** [Sub] saturates at the largest and smallest [Duration]. *)
Definition Sub (a b : t) : Duration :=
  let d := unixNano a - unixNano b in
  if maxDuration <? d then maxDuration
  else if d <? minDuration then minDuration
  else d.

(** Year, month and day of the proleptic Gregorian calendar for a count
    of days since 1970-01-01: what [Time.Date] returns. *)
Definition civilDate (days : Z) : Z * Z * Z :=
  let z := days + 719468 in
  let era := z / 146097 in
  let doe := z - era * 146097 in
  let yoe := (doe - doe / 1460 + doe / 36524 - doe / 146096) / 365 in
  let doy := doe - (365 * yoe + yoe / 4 - yoe / 100) in
  let mp := (5 * doy + 2) / 153 in
  let d := doy - (153 * mp + 2) / 5 + 1 in
  let m := if mp <? 10 then mp + 3 else mp - 9 in
  let y := yoe + era * 400 + (if m <=? 2 then 1 else 0) in
  (y, m, d).

Definition Date (a : t) : Z * Z * Z :=
  civilDate ((unixNano a / Second + zoneOffset a) / 86400).

Fixpoint zeros (n : nat) : string :=
  match n with O => "" | S k => String "0" (zeros k) end.

(** [appendInt]: sign, then the digits padded with zeros to [width]. *)
Definition appendInt (x : Z) (width : nat) : string :=
  let digits := pretty (Z.abs x) in
  (if x <? 0 then "-" else "")
    +:+ zeros (width - String.length digits) +:+ digits.

(** [Format] at the layout "20060102". *)
Definition Format20060102 (a : t) : string :=
  let '(y, m, d) := Date a in
  appendInt y 4 +:+ appendInt m 2 +:+ appendInt d 2.
End Time.

(** ** The domain records (package [domain])

    The fields the aggregator reads or that [ToEvent] writes; coordinates,
    external ids and the bookkeeping timestamps take no part in any
    operation modelled here. *)

Definition error := string.

Definition ErrRateLimitExceeded : error := "rate limit exceeded".

Module Artist.
Record t := mk {
  ID : string;
  Name : string;
  Genres : list string;
  Popularity : Z;
  ImageURL : string
}.
End Artist.

Module Venue.
Record t := mk {
  ID : string;
  Name : string;
  City : string;
  Region : string;
  Country : string
}.
End Venue.

Module Event.
Record t := mk {
  ID : string;
  ArtistID : string;
  ArtistName : string;
  Title : string;
  DateTime : Time.t;
  Venue : Venue.t;
  TicketURL : string;
  TicketStatus : string;
  CachedUntil : Time.t
}.
End Event.

(** ** Scraped events (package [scrapers]) *)

Module ScrapedEvent.
Record t := mk {
  Title : string;
  ArtistName : string;
  Date : Time.t;
  VenueName : string;
  City : string;
  Country : string;
  URL : string
}.
End ScrapedEvent.

(** ** The aggregator's records *)

Module SourceResult.
Record t := mk {
  SourceName : string;
  Artists : list Artist.t;
  Events : list Event.t;
  Error : option error
}.
End SourceResult.

Module AggregatedResults.
Record t := mk {
  Artists : list Artist.t;
  Events : list Event.t;
  SourceStats : gmap string Z;
  TotalResults : Z;
  SearchTime : Duration;
  Errors : list string
}.
End AggregatedResults.

Module Config.
Record t := mk {
  MaxConcurrentRequests : Z;
  RequestTimeout : Duration;
  CacheEnabled : bool;
  CacheTTL : Duration;
  DeduplicationEnabled : bool;
  IncludeScrapers : bool;
  MaxResultsPerSource : Z
}.
End Config.

(** The collaborators: what one call of a source answers. *)
Definition MusicSource := string -> Z -> list Artist.t * option error.

Module EventSource.
Record t := mk {
  SearchEventsByArtist : string -> Z -> list Event.t * option error;
  SearchEventsByLocation : string -> string -> Z -> list Event.t * option error
}.
End EventSource.

Module Scraper.
Record t := mk {
  ScrapeEvents : string -> Z -> list ScrapedEvent.t * option error;
  ScrapeEventsByLocation :
    string -> string -> Z -> list ScrapedEvent.t * option error;
  GetName : string
}.
End Scraper.

(** The stored pointer is always the address of a result a search has just
    built, so an entry holds the result itself. *)
Module CacheEntry.
Record t := mk { Results : AggregatedResults.t; ExpiresAt : Time.t }.
End CacheEntry.

Module AggregatorCache.
Record t := mk {
  artistCache : gmap string CacheEntry.t;
  eventCache : gmap string CacheEntry.t;
  ttl : Duration
}.
End AggregatorCache.

Module MegaAggregator.
Record t := mk {
  musicSources : gmap string MusicSource;
  eventSources : gmap string EventSource.t;
  scraperRegistry : gmap string Scraper.t;
  cache : option AggregatorCache.t;
  config : Config.t
}.
End MegaAggregator.

(** The instants one search reads from the clock, in program order.
    [ToEvent] reads the clock once for every scraped record it converts:
    [tConvert j i] is the reading for record [i] of scraper [j] of the slice
    [GetAllScrapers] returns. *)
Module Clock.
Record t := mk {
  tStart : Time.t;
  tLookup : Time.t;
  tConvert : nat -> nat -> Time.t;
  tSort : Time.t;
  tEnd : Time.t;
  tStore : Time.t
}.
End Clock.

(** ** [sort.Slice]

    Go sorts a slice of at most twelve elements by insertion, each element
    moved left past the elements it is less than; [insertLeft] does so on
    the reversed prefix. Longer slices go through pattern-defeating
    quicksort, which yields a permutation ordered by [less] as well, with
    another order among elements that compare equal; nothing below depends
    on that order. *)
Fixpoint insertLeft {A} (less : A -> A -> bool) (x : A) (rprefix : list A)
    : list A :=
  match rprefix with
  | [] => [x]
  | y :: r => if less x y then y :: insertLeft less x r else x :: y :: r
  end.

Definition sortSlice {A} (less : A -> A -> bool) (data : list A) : list A :=
  rev (fold_left (fun rprefix x => insertLeft less x rprefix) data []).

(** ** The result cache *)

Definition NewAggregatorCache (ttl : Duration) : AggregatorCache.t :=
  {| AggregatorCache.artistCache := ∅;
     AggregatorCache.eventCache := ∅;
     AggregatorCache.ttl := ttl |}.

Definition GetArtists (c : AggregatorCache.t) (now : Time.t)
    (query : string) (limit : Z) : option AggregatedResults.t :=
  let key := Sprintf_s_d query limit in
  match AggregatorCache.artistCache c !! key with
  | None => None
  | Some entry =>
      if Time.After now (CacheEntry.ExpiresAt entry) then None
      else Some (CacheEntry.Results entry)
  end.

Definition SetArtists (c : AggregatorCache.t) (now : Time.t)
    (query : string) (limit : Z) (results : AggregatedResults.t)
    : AggregatorCache.t :=
  let key := Sprintf_s_d query limit in
  {| AggregatorCache.artistCache :=
       <[key := {| CacheEntry.Results := results;
                   CacheEntry.ExpiresAt :=
                     Time.Add now (AggregatorCache.ttl c) |}]>
         (AggregatorCache.artistCache c);
     AggregatorCache.eventCache := AggregatorCache.eventCache c;
     AggregatorCache.ttl := AggregatorCache.ttl c |}.

Definition GetEvents (c : AggregatorCache.t) (now : Time.t)
    (artistName city : string) (limit : Z) : option AggregatedResults.t :=
  let key := Sprintf_s_s_d artistName city limit in
  match AggregatorCache.eventCache c !! key with
  | None => None
  | Some entry =>
      if Time.After now (CacheEntry.ExpiresAt entry) then None
      else Some (CacheEntry.Results entry)
  end.

Definition SetEvents (c : AggregatorCache.t) (now : Time.t)
    (artistName city : string) (limit : Z) (results : AggregatedResults.t)
    : AggregatorCache.t :=
  let key := Sprintf_s_s_d artistName city limit in
  {| AggregatorCache.artistCache := AggregatorCache.artistCache c;
     AggregatorCache.eventCache :=
       <[key := {| CacheEntry.Results := results;
                   CacheEntry.ExpiresAt :=
                     Time.Add now (AggregatorCache.ttl c) |}]>
         (AggregatorCache.eventCache c);
     AggregatorCache.ttl := AggregatorCache.ttl c |}.

(** ** Construction and registration *)

Definition NewMegaAggregator (config : Config.t) : MegaAggregator.t :=
  let config :=
    {| Config.MaxConcurrentRequests :=
         if Config.MaxConcurrentRequests config =? 0 then 10
         else Config.MaxConcurrentRequests config;
       Config.RequestTimeout :=
         if Config.RequestTimeout config =? 0 then 30 * Second
         else Config.RequestTimeout config;
       Config.CacheEnabled := Config.CacheEnabled config;
       Config.CacheTTL :=
         if Config.CacheTTL config =? 0 then 1 * Hour
         else Config.CacheTTL config;
       Config.DeduplicationEnabled := Config.DeduplicationEnabled config;
       Config.IncludeScrapers := Config.IncludeScrapers config;
       Config.MaxResultsPerSource :=
         if Config.MaxResultsPerSource config =? 0 then 20
         else Config.MaxResultsPerSource config |} in
  {| MegaAggregator.musicSources := ∅;
     MegaAggregator.eventSources := ∅;
     MegaAggregator.scraperRegistry := ∅;
     MegaAggregator.cache :=
       if Config.CacheEnabled config
       then Some (NewAggregatorCache (Config.CacheTTL config))
       else None;
     MegaAggregator.config := config |}.

Definition RegisterMusicSource (m : MegaAggregator.t) (name : string)
    (source : MusicSource) : MegaAggregator.t :=
  {| MegaAggregator.musicSources :=
       <[name := source]> (MegaAggregator.musicSources m);
     MegaAggregator.eventSources := MegaAggregator.eventSources m;
     MegaAggregator.scraperRegistry := MegaAggregator.scraperRegistry m;
     MegaAggregator.cache := MegaAggregator.cache m;
     MegaAggregator.config := MegaAggregator.config m |}.

Definition RegisterEventSource (m : MegaAggregator.t) (name : string)
    (source : EventSource.t) : MegaAggregator.t :=
  {| MegaAggregator.musicSources := MegaAggregator.musicSources m;
     MegaAggregator.eventSources :=
       <[name := source]> (MegaAggregator.eventSources m);
     MegaAggregator.scraperRegistry := MegaAggregator.scraperRegistry m;
     MegaAggregator.cache := MegaAggregator.cache m;
     MegaAggregator.config := MegaAggregator.config m |}.

(** [ScraperRegistry.Register] files a scraper under its own name. *)
Definition RegisterScraper (m : MegaAggregator.t) (scraper : Scraper.t)
    : MegaAggregator.t :=
  {| MegaAggregator.musicSources := MegaAggregator.musicSources m;
     MegaAggregator.eventSources := MegaAggregator.eventSources m;
     MegaAggregator.scraperRegistry :=
       <[Scraper.GetName scraper := scraper]>
         (MegaAggregator.scraperRegistry m);
     MegaAggregator.cache := MegaAggregator.cache m;
     MegaAggregator.config := MegaAggregator.config m |}.

Definition GetAllScrapers (r : gmap string Scraper.t) : list Scraper.t :=
  snd <$> map_to_list r.

(** The aggregator once the cache it points to has been written. *)
Definition withCache (m : MegaAggregator.t) (c : AggregatorCache.t)
    : MegaAggregator.t :=
  {| MegaAggregator.musicSources := MegaAggregator.musicSources m;
     MegaAggregator.eventSources := MegaAggregator.eventSources m;
     MegaAggregator.scraperRegistry := MegaAggregator.scraperRegistry m;
     MegaAggregator.cache := Some c;
     MegaAggregator.config := MegaAggregator.config m |}.

(** ** The fixed-window daily limiter (Bandsintown client) *)

Module rateLimiter.
Record t := mk {
  requests : Z;
  windowStart : Time.t;
  dailyLimit : Z
}.

Definition newRateLimiter (dailyLimit : Z) (now : Time.t) : t :=
  {| requests := 0; windowStart := now; dailyLimit := dailyLimit |}.

(** [requests] is below [dailyLimit], a Go [int], where it is
    incremented, so the increment does not overflow. *)
Definition Allow (r : t) (now : Time.t) : option error * t :=
  let r :=
    if 24 * Hour <? Time.Sub now (windowStart r)
    then {| requests := 0; windowStart := now; dailyLimit := dailyLimit r |}
    else r in
  if dailyLimit r <=? requests r then (Some ErrRateLimitExceeded, r)
  else
    (None,
     {| requests := requests r + 1;
        windowStart := windowStart r;
        dailyLimit := dailyLimit r |}).

(** One [Allow] per instant of [times], in turn: the errors returned and
    the limiter left behind. *)
Fixpoint AllowEach (r : t) (times : list Time.t)
    : list (option error) * t :=
  match times with
  | [] => ([], r)
  | now :: rest =>
      let '(err, r) := Allow r now in
      let '(errs, r) := AllowEach r rest in
      (err :: errs, r)
  end.
End rateLimiter.

(** ** The minimum-interval throttle (MusicBrainz client)

    [Allow] reads the clock twice: [now] on entry and [woke] once it has
    slept. It returns the error, the limiter, and the duration it passed to
    [time.Sleep] (zero when it did not sleep). *)

Module musicBrainzRateLimiter.
Record t := mk {
  lastRequest : Time.t;
  interval : Duration
}.

Definition newMusicBrainzRateLimiter : t :=
  {| lastRequest := Time.zero; interval := Second |}.

Definition Allow (r : t) (now woke : Time.t)
    : option error * t * Duration :=
  let sleepTime :=
    if Time.Sub now (lastRequest r) <? interval r
    then wrap64 (interval r - Time.Sub now (lastRequest r))
    else 0 in
  (None, {| lastRequest := woke; interval := interval r |}, sleepTime).

(** [time.Sleep d] returns no sooner than [d] after it was called. *)
Definition sleptAtLeast (now woke : Time.t) (d : Duration) : Prop :=
  Time.unixNano now + d <= Time.unixNano woke.
End musicBrainzRateLimiter.

(** ** The sliding-window limiter (Songkick, Ticketmaster, Setlist.fm and
    Eventbrite clients)

    [eventRateLimiter] keeps the instants of the requests it let through.
    The music clients' [rateLimiter] (Apple Music, YouTube Music,
    SoundCloud, Deezer) is the same code, statement for statement, with a
    window of one hour. *)

Module eventRateLimiter.
Record t := mk {
  requests : list Time.t;
  limit : Z;
  windowSize : Duration
}.

Definition newEventRateLimiter (dailyLimit : Z) : t :=
  {| requests := []; limit := dailyLimit; windowSize := 24 * Hour |}.

(** [newRateLimiter] of package [music]. *)
Definition newHourlyRateLimiter (hourlyLimit : Z) : t :=
  {| requests := []; limit := hourlyLimit; windowSize := Hour |}.

Definition Allow (r : t) (now : Time.t) : option error * t :=
  let cutoff := Time.Add now (wrap64 (- windowSize r)) in
  let validRequests :=
    List.filter (fun reqTime => Time.After reqTime cutoff) (requests r) in
  let r :=
    {| requests := validRequests; limit := limit r;
       windowSize := windowSize r |} in
  if limit r <=? Z.of_nat (length (requests r))
  then (Some ErrRateLimitExceeded, r)
  else
    (None,
     {| requests := requests r ++ [now]; limit := limit r;
        windowSize := windowSize r |}).

(** One [Allow] per instant of [times], in turn. *)
Fixpoint AllowEach (r : t) (times : list Time.t)
    : list (option error) * t :=
  match times with
  | [] => ([], r)
  | now :: rest =>
      let '(err, r) := Allow r now in
      let '(errs, r) := AllowEach r rest in
      (err :: errs, r)
  end.

(** The instants of the calls that were let through. *)
Fixpoint allowedTimes (times : list Time.t) (errs : list (option error))
    : list Time.t :=
  match times, errs with
  | now :: times, None :: errs => now :: allowedTimes times errs
  | _ :: times, Some _ :: errs => allowedTimes times errs
  | _, _ => []
  end.

(** Whether [s] lies in the window that ends at [now]. *)
Definition inWindow (r : t) (now s : Time.t) : bool :=
  Time.After s (Time.Add now (- windowSize r)).
End eventRateLimiter.

(** ** Example data

    The sources, results and aggregators of the concrete runs at the end.
    They are on ASCII text, where [ToLower] never consults the Unicode
    tables; [asciiOnly] stands in for them there. *)

Definition radioheadA : Artist.t :=
  {| Artist.ID := ""; Artist.Name := "Radiohead"; Artist.Genres := [];
     Artist.Popularity := 90; Artist.ImageURL := "" |}.

Definition radioheadB : Artist.t :=
  {| Artist.ID := ""; Artist.Name := "radiohead."; Artist.Genres := [];
     Artist.Popularity := 70; Artist.ImageURL := "" |}.

Definition sourceA : MusicSource := fun _ _ => ([radioheadA], None).
Definition sourceB : MusicSource := fun _ _ => ([radioheadB], None).

Definition resultA : SourceResult.t :=
  {| SourceResult.SourceName := "A"; SourceResult.Artists := [radioheadA];
     SourceResult.Events := []; SourceResult.Error := None |}.

Definition resultB : SourceResult.t :=
  {| SourceResult.SourceName := "B"; SourceResult.Artists := [radioheadB];
     SourceResult.Events := []; SourceResult.Error := None |}.

Definition radioheadAggregator (config : Config.t) : MegaAggregator.t :=
  RegisterMusicSource
    (RegisterMusicSource (NewMegaAggregator config) "A" sourceA) "B" sourceB.

Definition asciiOnly : string -> string := fun s => s.

Definition seconds (n : Z) : Time.t :=
  {| Time.unixNano := n * Second; Time.zoneOffset := 0 |}.

Definition demoClock (start : Z) : Clock.t :=
  {| Clock.tStart := seconds start;
     Clock.tLookup := seconds start;
     Clock.tConvert := fun j i => seconds (start + 1 + Z.of_nat j + Z.of_nat i);
     Clock.tSort := seconds (start + 2);
     Clock.tEnd := seconds (start + 2);
     Clock.tStore := seconds (start + 2) |}.

Definition demoConfig : Config.t :=
  {| Config.MaxConcurrentRequests := 0;
     Config.RequestTimeout := 0;
     Config.CacheEnabled := true;
     Config.CacheTTL := 0;
     Config.DeduplicationEnabled := true;
     Config.IncludeScrapers := false;
     Config.MaxResultsPerSource := 0 |}.

Definition pacedLimiter : musicBrainzRateLimiter.t :=
  {| musicBrainzRateLimiter.lastRequest := seconds 100;
     musicBrainzRateLimiter.interval := Second |}.

Definition tenthsOfSecond (n : Z) : Time.t :=
  {| Time.unixNano := n * 100000000; Time.zoneOffset := 0 |}.

Definition downSource (cause : error) : MusicSource := fun _ _ => ([], Some cause).

Definition outageAggregator : MegaAggregator.t :=
  RegisterMusicSource
    (RegisterMusicSource (NewMegaAggregator demoConfig)
       "lastfm" (downSource "timeout"))
    "spotify" (downSource "status 503").

Definition outageResults : list SourceResult.t :=
  [ {| SourceResult.SourceName := "lastfm"; SourceResult.Artists := [];
       SourceResult.Events := []; SourceResult.Error := Some "timeout" |};
    {| SourceResult.SourceName := "spotify"; SourceResult.Artists := [];
       SourceResult.Events := []; SourceResult.Error := Some "status 503" |} ].

Definition partialAggregator : MegaAggregator.t :=
  RegisterMusicSource
    (RegisterMusicSource
       (RegisterMusicSource (NewMegaAggregator demoConfig) "spotify" sourceA)
       "lastfm" (downSource "timeout"))
    "deezer" sourceB.

Definition partialResults : list SourceResult.t :=
  [ {| SourceResult.SourceName := "spotify";
       SourceResult.Artists := [radioheadA];
       SourceResult.Events := []; SourceResult.Error := None |};
    {| SourceResult.SourceName := "lastfm"; SourceResult.Artists := [];
       SourceResult.Events := []; SourceResult.Error := Some "timeout" |};
    {| SourceResult.SourceName := "deezer";
       SourceResult.Artists := [radioheadB];
       SourceResult.Events := []; SourceResult.Error := None |} ].

Definition berlinEvent : Event.t :=
  {| Event.ID := "sk-1"; Event.ArtistID := "moderat";
     Event.ArtistName := "Moderat"; Event.Title := "Moderat live";
     Event.DateTime := seconds 5000;
     Event.Venue :=
       {| Venue.ID := "v-1"; Venue.Name := "Berghain"; Venue.City := "Berlin";
          Venue.Region := ""; Venue.Country := "DE" |};
     Event.TicketURL := ""; Event.TicketStatus := "";
     Event.CachedUntil := seconds 0 |}.

Definition venueSource : EventSource.t :=
  {| EventSource.SearchEventsByArtist := fun _ _ => ([], Some "not found");
     EventSource.SearchEventsByLocation := fun _ _ _ => ([berlinEvent], None) |}.

Definition cityAggregator : MegaAggregator.t :=
  RegisterEventSource (NewMegaAggregator demoConfig) "songkick" venueSource.

Definition rawConfig : Config.t :=
  {| Config.MaxConcurrentRequests := 0;
     Config.RequestTimeout := 0;
     Config.CacheEnabled := true;
     Config.CacheTTL := 0;
     Config.DeduplicationEnabled := false;
     Config.IncludeScrapers := true;
     Config.MaxResultsPerSource := 0 |}.

Definition negativeConfig : Config.t :=
  {| Config.MaxConcurrentRequests := -1;
     Config.RequestTimeout := 0;
     Config.CacheEnabled := true;
     Config.CacheTTL := 0;
     Config.DeduplicationEnabled := true;
     Config.IncludeScrapers := false;
     Config.MaxResultsPerSource := 0 |}.

Definition berlinLateShow : Event.t :=
  {| Event.ID := "bit-7"; Event.ArtistID := "moderat";
     Event.ArtistName := "MODERAT"; Event.Title := "Moderat, late show";
     Event.DateTime := seconds 80000;
     Event.Venue :=
       {| Venue.ID := "v-9"; Venue.Name := "Berg Hain"; Venue.City := "Berlin";
          Venue.Region := ""; Venue.Country := "DE" |};
     Event.TicketURL := ""; Event.TicketStatus := "";
     Event.CachedUntil := seconds 0 |}.

Definition clubNight (venueName : string) : ScrapedEvent.t :=
  {| ScrapedEvent.Title := "Club night"; ScrapedEvent.ArtistName := "Moderat";
     ScrapedEvent.Date := seconds 5000; ScrapedEvent.VenueName := venueName;
     ScrapedEvent.City := "Berlin"; ScrapedEvent.Country := "DE";
     ScrapedEvent.URL := "" |}.

Definition clubScraper : Scraper.t :=
  {| Scraper.ScrapeEvents :=
       fun _ _ => ([clubNight "Tresor"; clubNight "About Blank"], None);
     Scraper.ScrapeEventsByLocation := fun _ _ _ => ([], Some "blocked");
     Scraper.GetName := "clubs" |}.

Definition tourSource : EventSource.t :=
  {| EventSource.SearchEventsByArtist :=
       fun _ _ => ([berlinEvent; berlinLateShow], None);
     EventSource.SearchEventsByLocation :=
       fun _ _ _ => ([berlinLateShow; berlinEvent], None) |}.

Definition tourAggregator : MegaAggregator.t :=
  RegisterScraper
    (RegisterEventSource (NewMegaAggregator rawConfig) "songkick" tourSource)
    clubScraper.

Section Aggregator.

(** [strings.ToLower] maps an ASCII string byte by byte and hands any other
    string to the Unicode case tables, which are not part of this
    repository: [unicodeLower] stands for them. *)
Variable unicodeLower : string -> string.

Definition ToLower (s : string) : string :=
  if isASCII s then mapBytes toLowerByte s else unicodeLower s.

(** ** The deduplicator *)

Definition normalizeArtistName (name : string) : string :=
  let name := ToLower name in
  let name := ReplaceAll name " " "" in
  let name := ReplaceAll name "." "" in
  let name := ReplaceAll name "-" "" in
  name.

Definition normalizeEventKey (event : Event.t) : string :=
  let artistKey := normalizeArtistName (Event.ArtistName event) in
  let venueKey := ToLower (ReplaceAll (Venue.Name (Event.Venue event)) " " "") in
  let dateKey := Time.Format20060102 (Event.DateTime event) in
  Sprintf_s_s_s artistKey venueKey dateKey.

(** The loop shared by both operations: [seen] is the [map[string]bool],
    where a missing key reads as [false]. *)
Definition dedupStep {A} (key : A -> string)
    (st : gmap string bool * list A) (x : A) : gmap string bool * list A :=
  let '(seen, unique) := st in
  if negb (default false (seen !! key x))
  then (<[key x := true]> seen, unique ++ [x])
  else (seen, unique).

Definition DeduplicateArtists (artists : list Artist.t) : list Artist.t :=
  snd (fold_left (dedupStep (fun a => normalizeArtistName (Artist.Name a)))
         artists (∅, [])).

Definition DeduplicateEvents (events : list Event.t) : list Event.t :=
  snd (fold_left (dedupStep normalizeEventKey) events (∅, [])).

(** The specification's wording of the two keys. *)
Definition specArtistKey (name : string) : string :=
  stripBytes [" "; "."; "-"]%char (ToLower name).

Definition specEventKey (event : Event.t) : string :=
  specArtistKey (Event.ArtistName event)
    +:+ "_" +:+ ToLower (stripBytes [" "%char] (Venue.Name (Event.Venue event)))
    +:+ "_" +:+ Time.Format20060102 (Event.DateTime event).

(** The specification's wording of deduplication: the record at index [i]
    stays exactly when no record before it has its key. *)
Definition firstOccurrences {A} (key : A -> string) (l : list A) : list A :=
  omap (fun i =>
          x ← l !! i;
          if decide (key x ∈ key <$> take i l) then None else Some x)
       (seq 0 (length l)).

(** ** Scraped events to domain events *)

Definition ToEvent (now : Time.t) (s : ScrapedEvent.t) : Event.t :=
  let venue :=
    {| Venue.ID := ""; Venue.Name := ScrapedEvent.VenueName s;
       Venue.City := ScrapedEvent.City s; Venue.Region := "";
       Venue.Country := ScrapedEvent.Country s |} in
  let slug := ReplaceAll (ToLower (ScrapedEvent.ArtistName s)) " " "_" in
  let artistID := "scraped_artist_" +:+ slug in
  let eventID :=
    "scraped_" +:+ slug +:+ "_"
      +:+ Time.Format20060102 (ScrapedEvent.Date s) in
  let cacheUntil := Time.Add now (24 * Hour) in
  {| Event.ID := eventID; Event.ArtistID := artistID;
     Event.ArtistName := ScrapedEvent.ArtistName s; Event.Title := "";
     Event.DateTime := ScrapedEvent.Date s; Event.Venue := venue;
     Event.TicketURL := ""; Event.TicketStatus := "";
     Event.CachedUntil := cacheUntil |}.

(** ** Fan-out: one [SourceResult] per unit of work *)

Definition dispatchArtists (m : MegaAggregator.t) (query : string)
    : list SourceResult.t :=
  (fun '(sourceName, src) =>
     let '(artists, err) :=
       src query (Config.MaxResultsPerSource (MegaAggregator.config m)) in
     {| SourceResult.SourceName := sourceName;
        SourceResult.Artists := artists;
        SourceResult.Events := [];
        SourceResult.Error := err |})
    <$> map_to_list (MegaAggregator.musicSources m).

Definition eventSourceResult (sourceName : string)
    (answer : list Event.t * option error) : SourceResult.t :=
  let '(events, err) := answer in
  {| SourceResult.SourceName := sourceName;
     SourceResult.Artists := [];
     SourceResult.Events := events;
     SourceResult.Error := err |}.

(** A scraper's unit of work. Each [ToEvent] reads the clock for its
    [CachedUntil]: [now i] is the reading of the conversion of record [i]. *)
Definition scraperResult (now : nat -> Time.t) (scrpr : Scraper.t)
    (answer : list ScrapedEvent.t * option error) : SourceResult.t :=
  let '(scrapedEvents, err) := answer in
  match err with
  | Some e =>
      {| SourceResult.SourceName := Scraper.GetName scrpr;
         SourceResult.Artists := [];
         SourceResult.Events := [];
         SourceResult.Error := Some e |}
  | None =>
      {| SourceResult.SourceName := Scraper.GetName scrpr;
         SourceResult.Artists := [];
         SourceResult.Events := imap (fun i se => ToEvent (now i) se) scrapedEvents;
         SourceResult.Error := None |}
  end.

Definition dispatchEventsByArtist (m : MegaAggregator.t)
    (now : nat -> nat -> Time.t) (artistName : string) : list SourceResult.t :=
  let cap := Config.MaxResultsPerSource (MegaAggregator.config m) in
  ((fun '(sourceName, src) =>
      eventSourceResult sourceName
        (EventSource.SearchEventsByArtist src artistName cap))
     <$> map_to_list (MegaAggregator.eventSources m))
  ++ (if Config.IncludeScrapers (MegaAggregator.config m)
      then imap (fun j scrpr =>
                   scraperResult (now j) scrpr
                     (Scraper.ScrapeEvents scrpr artistName cap))
             (GetAllScrapers (MegaAggregator.scraperRegistry m))
      else []).

Definition dispatchEventsByLocation (m : MegaAggregator.t)
    (now : nat -> nat -> Time.t) (city country : string)
    : list SourceResult.t :=
  let cap := Config.MaxResultsPerSource (MegaAggregator.config m) in
  ((fun '(sourceName, src) =>
      eventSourceResult sourceName
        (EventSource.SearchEventsByLocation src city country cap))
     <$> map_to_list (MegaAggregator.eventSources m))
  ++ (if Config.IncludeScrapers (MegaAggregator.config m)
      then imap (fun j scrpr =>
                   scraperResult (now j) scrpr
                     (Scraper.ScrapeEventsByLocation scrpr city country cap))
             (GetAllScrapers (MegaAggregator.scraperRegistry m))
      else []).

(** The sequences the fan-in channel can deliver: every unit of work sends
    exactly one result, in the order the units finish. *)
Definition drainedArtists (m : MegaAggregator.t) (query : string)
    (results : list SourceResult.t) : Prop :=
  results ≡ₚ dispatchArtists m query.

Definition drainedEventsByArtist (m : MegaAggregator.t)
    (now : nat -> nat -> Time.t) (artistName : string)
    (results : list SourceResult.t) : Prop :=
  results ≡ₚ dispatchEventsByArtist m now artistName.

Definition drainedEventsByLocation (m : MegaAggregator.t)
    (now : nat -> nat -> Time.t) (city country : string)
    (results : list SourceResult.t) : Prop :=
  results ≡ₚ dispatchEventsByLocation m now city country.

(** ** Collecting the drained results *)

(** [fmt.Sprintf("%s: %v", name, err)] *)
Definition Sprintf_s_v (name : string) (err : error) : string :=
  name +:+ ": " +:+ err.

Definition collectArtistsStep
    (st : list Artist.t * gmap string Z * list string)
    (result : SourceResult.t) : list Artist.t * gmap string Z * list string :=
  let '(allArtists, sourceStats, errors) := st in
  match SourceResult.Error result with
  | Some err =>
      (allArtists, sourceStats,
       errors ++ [Sprintf_s_v (SourceResult.SourceName result) err])
  | None =>
      (allArtists ++ SourceResult.Artists result,
       <[SourceResult.SourceName result :=
           Z.of_nat (length (SourceResult.Artists result))]> sourceStats,
       errors)
  end.

Definition collectArtists (results : list SourceResult.t)
    : list Artist.t * gmap string Z * list string :=
  fold_left collectArtistsStep results ([], ∅, []).

Definition collectEventsStep
    (st : list Event.t * gmap string Z * list string)
    (result : SourceResult.t) : list Event.t * gmap string Z * list string :=
  let '(allEvents, sourceStats, errors) := st in
  match SourceResult.Error result with
  | Some err =>
      (allEvents, sourceStats,
       errors ++ [Sprintf_s_v (SourceResult.SourceName result) err])
  | None =>
      (allEvents ++ SourceResult.Events result,
       <[SourceResult.SourceName result :=
           Z.of_nat (length (SourceResult.Events result))]> sourceStats,
       errors)
  end.

Definition collectEvents (results : list SourceResult.t)
    : list Event.t * gmap string Z * list string :=
  fold_left collectEventsStep results ([], ∅, []).

(** ** The three search operations

    A search that finds its answer in the cache returns it. Otherwise it
    makes the semaphore, [make(chan struct{}, MaxConcurrentRequests)], which
    panics when the capacity is negative, and starts one goroutine per unit
    of work. Each goroutine sends on the semaphore before it asks its
    source: with capacity zero the semaphore is unbuffered, none of the
    sends is ever received, and the drain of the results never ends unless
    there is no goroutine at all. In every other case the drain delivers
    [results] and the search returns.

    The caller passes a context, as package [context] demands, and the
    registered sources are not nil; what the deadline of the context does to
    a source shows in that source's answer. *)
Inductive outcome : Type :=
  | Returns (results : option AggregatedResults.t) (err : option error)
      (m : MegaAggregator.t)
  | Panics
  | Blocks.

(** The goroutines an event search starts: one per event source, and one
    per scraper when the configuration includes the scrapers. *)
Definition eventGoroutines (m : MegaAggregator.t) : nat :=
  size (MegaAggregator.eventSources m)
  + (if Config.IncludeScrapers (MegaAggregator.config m)
     then length (GetAllScrapers (MegaAggregator.scraperRegistry m))
     else 0).

Definition artistLess (a b : Artist.t) : bool :=
  Artist.Popularity b <? Artist.Popularity a.

Definition eventLess (now : Time.t) (a b : Event.t) : bool :=
  let iUpcoming := Time.After (Event.DateTime a) now in
  let jUpcoming := Time.After (Event.DateTime b) now in
  if iUpcoming && negb jUpcoming then true
  else if negb iUpcoming && jUpcoming then false
  else Time.Before (Event.DateTime a) (Event.DateTime b).

Definition SearchArtists (m : MegaAggregator.t) (clk : Clock.t)
    (results : list SourceResult.t) (query : string) (limit : Z) : outcome :=
  let startTime := Clock.tStart clk in
  let limit := if limit <=? 0 then 50 else limit in
  match
    match MegaAggregator.cache m with
    | Some c => GetArtists c (Clock.tLookup clk) query limit
    | None => None
    end
  with
  | Some cached => Returns (Some cached) None m
  | None =>
      let capacity := Config.MaxConcurrentRequests (MegaAggregator.config m) in
      let goroutines := size (MegaAggregator.musicSources m) in
      if capacity <? 0 then Panics
      else if (capacity =? 0) && negb (goroutines =? 0)%nat then Blocks
      else
      let '(allArtists, sourceStats, errors) := collectArtists results in
      let allArtists :=
        if Config.DeduplicationEnabled (MegaAggregator.config m)
        then DeduplicateArtists allArtists else allArtists in
      let allArtists := sortSlice artistLess allArtists in
      let allArtists :=
        if limit <? Z.of_nat (length allArtists)
        then take (Z.to_nat limit) allArtists else allArtists in
      let results :=
        {| AggregatedResults.Artists := allArtists;
           AggregatedResults.Events := [];
           AggregatedResults.SourceStats := sourceStats;
           AggregatedResults.TotalResults := Z.of_nat (length allArtists);
           AggregatedResults.SearchTime := Time.Sub (Clock.tEnd clk) startTime;
           AggregatedResults.Errors := errors |} in
      let m :=
        match MegaAggregator.cache m with
        | Some c =>
            withCache m (SetArtists c (Clock.tStore clk) query limit results)
        | None => m
        end in
      Returns (Some results) None m
  end.

Definition SearchEvents (m : MegaAggregator.t) (clk : Clock.t)
    (results : list SourceResult.t) (artistName : string) (limit : Z)
    : outcome :=
  let startTime := Clock.tStart clk in
  let limit := if limit <=? 0 then 50 else limit in
  match
    match MegaAggregator.cache m with
    | Some c => GetEvents c (Clock.tLookup clk) artistName "" limit
    | None => None
    end
  with
  | Some cached => Returns (Some cached) None m
  | None =>
      let capacity := Config.MaxConcurrentRequests (MegaAggregator.config m) in
      let goroutines := eventGoroutines m in
      if capacity <? 0 then Panics
      else if (capacity =? 0) && negb (goroutines =? 0)%nat then Blocks
      else
      let '(allEvents, sourceStats, errors) := collectEvents results in
      let allEvents :=
        if Config.DeduplicationEnabled (MegaAggregator.config m)
        then DeduplicateEvents allEvents else allEvents in
      let now := Clock.tSort clk in
      let allEvents := sortSlice (eventLess now) allEvents in
      let allEvents :=
        if limit <? Z.of_nat (length allEvents)
        then take (Z.to_nat limit) allEvents else allEvents in
      let results :=
        {| AggregatedResults.Artists := [];
           AggregatedResults.Events := allEvents;
           AggregatedResults.SourceStats := sourceStats;
           AggregatedResults.TotalResults := Z.of_nat (length allEvents);
           AggregatedResults.SearchTime := Time.Sub (Clock.tEnd clk) startTime;
           AggregatedResults.Errors := errors |} in
      let m :=
        match MegaAggregator.cache m with
        | Some c =>
            withCache m
              (SetEvents c (Clock.tStore clk) artistName "" limit results)
        | None => m
        end in
      Returns (Some results) None m
  end.

Definition SearchEventsByLocation (m : MegaAggregator.t) (clk : Clock.t)
    (results : list SourceResult.t) (city country : string) (limit : Z)
    : outcome :=
  let startTime := Clock.tStart clk in
  let limit := if limit <=? 0 then 50 else limit in
  match
    match MegaAggregator.cache m with
    | Some c => GetEvents c (Clock.tLookup clk) "" city limit
    | None => None
    end
  with
  | Some cached => Returns (Some cached) None m
  | None =>
      let capacity := Config.MaxConcurrentRequests (MegaAggregator.config m) in
      let goroutines := eventGoroutines m in
      if capacity <? 0 then Panics
      else if (capacity =? 0) && negb (goroutines =? 0)%nat then Blocks
      else
      let '(allEvents, sourceStats, errors) := collectEvents results in
      let allEvents :=
        if Config.DeduplicationEnabled (MegaAggregator.config m)
        then DeduplicateEvents allEvents else allEvents in
      let now := Clock.tSort clk in
      let allEvents := sortSlice (eventLess now) allEvents in
      let allEvents :=
        if limit <? Z.of_nat (length allEvents)
        then take (Z.to_nat limit) allEvents else allEvents in
      let results :=
        {| AggregatedResults.Artists := [];
           AggregatedResults.Events := allEvents;
           AggregatedResults.SourceStats := sourceStats;
           AggregatedResults.TotalResults := Z.of_nat (length allEvents);
           AggregatedResults.SearchTime := Time.Sub (Clock.tEnd clk) startTime;
           AggregatedResults.Errors := errors |} in
      let m :=
        match MegaAggregator.cache m with
        | Some c =>
            withCache m (SetEvents c (Clock.tStore clk) "" city limit results)
        | None => m
        end in
      Returns (Some results) None m
  end.

(** Whether a search goes to the sources: the cache is off, or the lookup
    finds no live entry. *)
Definition missesArtists (m : MegaAggregator.t) (clk : Clock.t)
    (query : string) (limit : Z) : Prop :=
  match MegaAggregator.cache m with
  | Some c =>
      GetArtists c (Clock.tLookup clk) query
        (if limit <=? 0 then 50 else limit) = None
  | None => True
  end.

Definition missesEvents (m : MegaAggregator.t) (clk : Clock.t)
    (artistName city : string) (limit : Z) : Prop :=
  match MegaAggregator.cache m with
  | Some c =>
      GetEvents c (Clock.tLookup clk) artistName city
        (if limit <=? 0 then 50 else limit) = None
  | None => True
  end.

(** What the fan-in channel of a past search delivered: one result per
    goroutine, under the name of its source or scraper. What the results
    hold is left open: a source is a remote service whose answers change
    from call to call, and the conversions of a scraper's records read the
    clock one by one. *)
Definition sentByArtistSearch (m : MegaAggregator.t)
    (results : list SourceResult.t) : Prop :=
  SourceResult.SourceName <$> results
  ≡ₚ (map_to_list (MegaAggregator.musicSources m)).*1.

Definition sentByEventSearch (m : MegaAggregator.t)
    (results : list SourceResult.t) : Prop :=
  SourceResult.SourceName <$> results
  ≡ₚ (map_to_list (MegaAggregator.eventSources m)).*1
     ++ (if Config.IncludeScrapers (MegaAggregator.config m)
         then Scraper.GetName
                <$> GetAllScrapers (MegaAggregator.scraperRegistry m)
         else []).

(** The aggregators a program can hold: built by [NewMegaAggregator], then
    changed only by registration and by the searches that returned. A
    search that panics or blocks leaves the aggregator as it was. *)
Inductive reachable : MegaAggregator.t -> Prop :=
  | reach_new config : reachable (NewMegaAggregator config)
  | reach_music m name source :
      reachable m -> reachable (RegisterMusicSource m name source)
  | reach_event m name source :
      reachable m -> reachable (RegisterEventSource m name source)
  | reach_scraper m scraper :
      reachable m -> reachable (RegisterScraper m scraper)
  | reach_SearchArtists m clk results query limit r err m' :
      reachable m ->
      sentByArtistSearch m results ->
      SearchArtists m clk results query limit = Returns r err m' ->
      reachable m'
  | reach_SearchEvents m clk results artistName limit r err m' :
      reachable m ->
      sentByEventSearch m results ->
      SearchEvents m clk results artistName limit = Returns r err m' ->
      reachable m'
  | reach_SearchEventsByLocation m clk results city country limit r err m' :
      reachable m ->
      sentByEventSearch m results ->
      SearchEventsByLocation m clk results city country limit
      = Returns r err m' ->
      reachable m'.

(** The order [sort.Slice] is asked for. *)
Definition popularityDescending (l : list Artist.t) : Prop :=
  forall i a b, l !! i = Some a -> l !! S i = Some b ->
    Artist.Popularity b <= Artist.Popularity a.

Definition upcomingFirst (now : Time.t) (l : list Event.t) : Prop :=
  forall i j a b, (i < j)%nat -> l !! i = Some a -> l !! j = Some b ->
    ~ (Time.After (Event.DateTime a) now = false
       /\ Time.After (Event.DateTime b) now = true).

Definition ascendingWithinPartitions (now : Time.t) (l : list Event.t)
    : Prop :=
  forall i j a b, (i < j)%nat -> l !! i = Some a -> l !! j = Some b ->
    Time.After (Event.DateTime a) now = Time.After (Event.DateTime b) now ->
    Time.unixNano (Event.DateTime a) <= Time.unixNano (Event.DateTime b).

(** ** Definitions used by the statements and proofs below *)

(** The limit a search works with: the one asked for, or 50. *)
Definition effectiveLimit (limit : Z) : Z := if limit <=? 0 then 50 else limit.

(** What a search that goes to the sources builds. *)
Definition freshArtists (m : MegaAggregator.t) (clk : Clock.t)
    (results : list SourceResult.t) (limit : Z) : AggregatedResults.t :=
  let '(allArtists, sourceStats, errors) := collectArtists results in
  let allArtists :=
    if Config.DeduplicationEnabled (MegaAggregator.config m)
    then DeduplicateArtists allArtists else allArtists in
  let allArtists := sortSlice artistLess allArtists in
  let allArtists :=
    if effectiveLimit limit <? Z.of_nat (length allArtists)
    then take (Z.to_nat (effectiveLimit limit)) allArtists else allArtists in
  {| AggregatedResults.Artists := allArtists;
     AggregatedResults.Events := [];
     AggregatedResults.SourceStats := sourceStats;
     AggregatedResults.TotalResults := Z.of_nat (length allArtists);
     AggregatedResults.SearchTime :=
       Time.Sub (Clock.tEnd clk) (Clock.tStart clk);
     AggregatedResults.Errors := errors |}.

(** The same for the two event searches, whose bodies agree from the
    collection on. *)
Definition freshEvents (m : MegaAggregator.t) (clk : Clock.t)
    (results : list SourceResult.t) (limit : Z) : AggregatedResults.t :=
  let '(allEvents, sourceStats, errors) := collectEvents results in
  let allEvents :=
    if Config.DeduplicationEnabled (MegaAggregator.config m)
    then DeduplicateEvents allEvents else allEvents in
  let allEvents := sortSlice (eventLess (Clock.tSort clk)) allEvents in
  let allEvents :=
    if effectiveLimit limit <? Z.of_nat (length allEvents)
    then take (Z.to_nat (effectiveLimit limit)) allEvents else allEvents in
  {| AggregatedResults.Artists := [];
     AggregatedResults.Events := allEvents;
     AggregatedResults.SourceStats := sourceStats;
     AggregatedResults.TotalResults := Z.of_nat (length allEvents);
     AggregatedResults.SearchTime :=
       Time.Sub (Clock.tEnd clk) (Clock.tStart clk);
     AggregatedResults.Errors := errors |}.

(** A drained result without an error. *)
Definition succeeded (result : SourceResult.t) : Prop :=
  SourceResult.Error result = None.

(** "<source>: <cause>" for every failing result, in arrival order. *)
Definition formattedErrors (results : list SourceResult.t) : list string :=
  omap (fun result =>
          Sprintf_s_v (SourceResult.SourceName result)
            <$> SourceResult.Error result) results.

(** The counts the error-free results write into [sourceStats], in arrival
    order; a later result overwrites an earlier one of the same name. *)
Definition recordCounts {A} (items : SourceResult.t -> list A)
    (stats : gmap string Z) (results : list SourceResult.t) : gmap string Z :=
  fold_left (fun stats result =>
               <[SourceResult.SourceName result :=
                   Z.of_nat (length (items result))]> stats)
    (filter succeeded results) stats.

(** The records of [l] whose key is neither among the records [pre] that
    came before [l] nor among the earlier records of [l]. *)
Fixpoint keepNew {A} (key : A -> string) (pre l : list A) : list A :=
  match l with
  | [] => []
  | x :: rest =>
      (if decide (key x ∈ key <$> pre) then [] else [x])
        ++ keepNew key (pre ++ [x]) rest
  end.

(** No unit of work for an event search: no event source, and no scraper
    that takes part. *)
Definition noEventSources (m : MegaAggregator.t) : Prop :=
  MegaAggregator.eventSources m = ∅
  /\ (Config.IncludeScrapers (MegaAggregator.config m) = false
      \/ MegaAggregator.scraperRegistry m = ∅).

(** What holds of a result built by an artist search and filed under
    [key]; [noSources] says that the search had no source to ask. *)
Definition artistEntryOK (noSources : Prop) (key : string)
    (r : AggregatedResults.t) : Prop :=
  AggregatedResults.TotalResults r
    = Z.of_nat (length (AggregatedResults.Artists r))
  /\ AggregatedResults.Events r = []
  /\ popularityDescending (AggregatedResults.Artists r)
  /\ (forall query limit,
        key = Sprintf_s_d query limit ->
        Z.of_nat (length (AggregatedResults.Artists r)) <= limit)
  /\ (noSources ->
      AggregatedResults.Artists r = [] /\ AggregatedResults.Errors r = []).

(** The same for a result built by an event search: [now] is the instant
    its sort step read. *)
Definition eventEntryOK (noSources : Prop) (key : string)
    (r : AggregatedResults.t) : Prop :=
  AggregatedResults.TotalResults r
    = Z.of_nat (length (AggregatedResults.Events r))
  /\ AggregatedResults.Artists r = []
  /\ (exists now,
        upcomingFirst now (AggregatedResults.Events r)
        /\ ascendingWithinPartitions now (AggregatedResults.Events r))
  /\ (forall artistName city limit,
        key = Sprintf_s_s_d artistName city limit ->
        Z.of_nat (length (AggregatedResults.Events r)) <= limit)
  /\ (noSources ->
      AggregatedResults.Events r = [] /\ AggregatedResults.Errors r = []).

(** The invariant of the cache: every entry is such a result. *)
Definition cacheInv (m : MegaAggregator.t) : Prop :=
  forall c, MegaAggregator.cache m = Some c ->
    (forall key entry,
       AggregatorCache.artistCache c !! key = Some entry ->
       artistEntryOK (MegaAggregator.musicSources m = ∅) key
         (CacheEntry.Results entry))
    /\ (forall key entry,
          AggregatorCache.eventCache c !! key = Some entry ->
          eventEntryOK (noEventSources m) key (CacheEntry.Results entry)).

(** Case analysis on the comparisons of [eventLess]. *)
Ltac event_order :=
  unfold eventLess, Time.After, Time.Before;
  repeat match goal with
         | |- context [?x <? ?y] => destruct (Z.ltb_spec x y)
         end; simpl; intros; first [done | lia].

(** The sum of the counts in a [SourceStats] map. *)
Definition statsTotal (stats : gmap string Z) : Z :=
  foldr Z.add 0 (snd <$> map_to_list stats).

(** * Properties *)

(** ** Strings and keys *)

Lemma app_cons c (s1 s2 : string) : String c s1 +:+ s2 = String c (s1 +:+ s2).
Proof. reflexivity. Qed.

Lemma app_empty_l (s : string) : "" +:+ s = s.
Proof. reflexivity. Qed.

Lemma replaceFrom_single c s :
  replaceFrom (String c "") "" 0 s = stripBytes [c] s.
Proof.
  induction s as [|c' s IH]; [done|].
  cbn [replaceFrom stripBytes String.prefix String.length].
  destruct (ascii_dec c c') as [->|Hne].
  - rewrite decide_True by (by apply list_elem_of_singleton).
    assert (String.prefix "" s = true) as -> by (by destruct s).
    by rewrite app_empty_l.
  - rewrite decide_False by (by intros ->%list_elem_of_singleton).
    by rewrite IH.
Qed.

Lemma ReplaceAll_single c s : ReplaceAll s (String c "") "" = stripBytes [c] s.
Proof. unfold ReplaceAll. rewrite decide_False by done. apply replaceFrom_single. Qed.

Lemma stripBytes_twice cs1 cs2 s :
  stripBytes cs2 (stripBytes cs1 s) = stripBytes (cs1 ++ cs2) s.
Proof.
  induction s as [|c s IH]; [done|]. cbn [stripBytes].
  destruct (decide (c ∈ cs1)) as [H1|H1].
  - rewrite decide_True by (apply elem_of_app; by left). done.
  - cbn [stripBytes]. destruct (decide (c ∈ cs2)) as [H2|H2].
    + rewrite decide_True by (apply elem_of_app; by right). done.
    + rewrite decide_False by (by intros [?|?]%elem_of_app). by rewrite IH.
Qed.

Lemma normalizeArtistName_spec name :
  normalizeArtistName name = specArtistKey name.
Proof.
  unfold normalizeArtistName, specArtistKey.
  by rewrite !ReplaceAll_single, !stripBytes_twice.
Qed.

Lemma normalizeEventKey_spec event :
  normalizeEventKey event = specEventKey event.
Proof.
  unfold normalizeEventKey, specEventKey, Sprintf_s_s_s.
  by rewrite normalizeArtistName_spec, ReplaceAll_single.
Qed.

Lemma string_app_assoc (s1 s2 s3 : string) :
  (s1 +:+ s2) +:+ s3 = s1 +:+ s2 +:+ s3.
Proof. induction s1 as [|c s1 IH]; [done|]. by rewrite !app_cons, IH. Qed.

Lemma hasByte_app c s1 s2 :
  hasByte c (s1 +:+ s2) = hasByte c s1 || hasByte c s2.
Proof.
  induction s1 as [|c' s1 IH]; [done|].
  rewrite app_cons. cbn [hasByte]. by case_decide.
Qed.

Lemma pretty_N_go_no_underscore x s :
  hasByte "_" s = false -> hasByte "_" (pretty_N_go x s) = false.
Proof.
  revert s. induction (N.lt_wf_0 x) as [x _ IH]; intros s Hs.
  destruct (decide (x = 0)%N) as [->|Hx]; [by rewrite pretty_N_go_0|].
  rewrite pretty_N_go_step by lia. apply IH; [apply N.div_lt; lia|].
  cbn [hasByte]. rewrite Hs.
  unfold pretty_N_char. by repeat case_match.
Qed.

Lemma pretty_N_no_underscore (x : N) : hasByte "_" (pretty x) = false.
Proof.
  unfold pretty, pretty_N. case_decide; [done|].
  by apply pretty_N_go_no_underscore.
Qed.

Lemma Itoa_no_underscore n : hasByte "_" (Itoa n) = false.
Proof.
  unfold Itoa, pretty, pretty_Z. destruct n as [|p|p]; [done|..].
  - apply pretty_N_no_underscore.
  - rewrite hasByte_app. cbn. apply pretty_N_no_underscore.
Qed.

Lemma underscore_tail_inj s1 s2 d1 d2 :
  hasByte "_" d1 = false -> hasByte "_" d2 = false ->
  s1 +:+ "_" +:+ d1 = s2 +:+ "_" +:+ d2 -> s1 = s2 /\ d1 = d2.
Proof.
  intros H1 H2. revert s2.
  induction s1 as [|c s1 IH]; intros [|c' s2]; rewrite ?app_cons, ?app_empty_l.
  - by intros [= ->].
  - intros [= <- ->]. rewrite hasByte_app in H1.
    cbn in H1. by rewrite orb_true_r in H1.
  - intros [= -> <-]. rewrite hasByte_app in H2.
    cbn in H2. by rewrite orb_true_r in H2.
  - intros [= <- Heq]. destruct (IH _ Heq) as [-> ->]. done.
Qed.

Lemma Sprintf_s_d_inj q1 q2 l1 l2 :
  Sprintf_s_d q1 l1 = Sprintf_s_d q2 l2 -> q1 = q2 /\ l1 = l2.
Proof.
  unfold Sprintf_s_d. intros H.
  apply underscore_tail_inj in H as [-> H]; auto using Itoa_no_underscore.
  split; [done|]. by apply (inj pretty).
Qed.

Lemma Sprintf_s_s_d_limit a1 c1 l1 a2 c2 l2 :
  Sprintf_s_s_d a1 c1 l1 = Sprintf_s_s_d a2 c2 l2 -> l1 = l2.
Proof.
  unfold Sprintf_s_s_d. intros H.
  assert (forall a c d, a +:+ "_" +:+ c +:+ "_" +:+ d
                         = (a +:+ "_" +:+ c) +:+ "_" +:+ d) as Hassoc.
  { intros a c d. by rewrite !string_app_assoc. }
  rewrite !Hassoc in H.
  apply underscore_tail_inj in H as [_ H]; auto using Itoa_no_underscore.
  by apply (inj pretty).
Qed.

(** ** The result cache *)

Lemma GetArtists_None c now query limit :
  GetArtists c now query limit = None <->
  AggregatorCache.artistCache c !! Sprintf_s_d query limit = None
  \/ exists entry,
       AggregatorCache.artistCache c !! Sprintf_s_d query limit = Some entry
       /\ Time.unixNano (CacheEntry.ExpiresAt entry) < Time.unixNano now.
Proof.
  unfold GetArtists, Time.After.
  destruct (AggregatorCache.artistCache c !! _) as [entry|]; [|naive_solver].
  destruct (Z.ltb_spec (Time.unixNano (CacheEntry.ExpiresAt entry))
              (Time.unixNano now)); split; try naive_solver.
  intros [?|(e & [= <-] & ?)]; [done|lia].
Qed.

Lemma GetEvents_None c now artistName city limit :
  GetEvents c now artistName city limit = None <->
  AggregatorCache.eventCache c !! Sprintf_s_s_d artistName city limit = None
  \/ exists entry,
       AggregatorCache.eventCache c !! Sprintf_s_s_d artistName city limit
         = Some entry
       /\ Time.unixNano (CacheEntry.ExpiresAt entry) < Time.unixNano now.
Proof.
  unfold GetEvents, Time.After.
  destruct (AggregatorCache.eventCache c !! _) as [entry|]; [|naive_solver].
  destruct (Z.ltb_spec (Time.unixNano (CacheEntry.ExpiresAt entry))
              (Time.unixNano now)); split; try naive_solver.
  intros [?|(e & [= <-] & ?)]; [done|lia].
Qed.

Lemma SearchArtists_hit m c clk results query limit cached :
  MegaAggregator.cache m = Some c ->
  GetArtists c (Clock.tLookup clk) query (effectiveLimit limit) = Some cached ->
  SearchArtists m clk results query limit = Returns (Some cached) None m.
Proof.
  unfold SearchArtists, effectiveLimit. intros -> Hget.
  by rewrite Hget.
Qed.

Lemma SearchEvents_hit m c clk results artistName limit cached :
  MegaAggregator.cache m = Some c ->
  GetEvents c (Clock.tLookup clk) artistName "" (effectiveLimit limit)
    = Some cached ->
  SearchEvents m clk results artistName limit = Returns (Some cached) None m.
Proof.
  unfold SearchEvents, effectiveLimit. intros -> Hget.
  by rewrite Hget.
Qed.

Lemma SearchEventsByLocation_hit m c clk results city country limit cached :
  MegaAggregator.cache m = Some c ->
  GetEvents c (Clock.tLookup clk) "" city (effectiveLimit limit)
    = Some cached ->
  SearchEventsByLocation m clk results city country limit
    = Returns (Some cached) None m.
Proof.
  unfold SearchEventsByLocation, effectiveLimit. intros -> Hget.
  by rewrite Hget.
Qed.

(** A search that misses the cache, by the capacity of its semaphore. *)
Lemma SearchArtists_miss m clk results query limit :
  0 < Config.MaxConcurrentRequests (MegaAggregator.config m) ->
  missesArtists m clk query limit ->
  SearchArtists m clk results query limit
  = Returns (Some (freshArtists m clk results limit)) None
      match MegaAggregator.cache m with
      | Some c =>
          withCache m
            (SetArtists c (Clock.tStore clk) query (effectiveLimit limit)
               (freshArtists m clk results limit))
      | None => m
      end.
Proof.
  unfold missesArtists, SearchArtists, freshArtists, effectiveLimit.
  intros Hcap Hmiss.
  rewrite (proj2 (Z.ltb_ge _ _)), (proj2 (Z.eqb_neq _ _)) by lia. simpl.
  destruct (MegaAggregator.cache m) as [c|];
    [rewrite Hmiss|]; by destruct (collectArtists results) as [[??]?].
Qed.

Lemma SearchEvents_miss m clk results artistName limit :
  0 < Config.MaxConcurrentRequests (MegaAggregator.config m) ->
  missesEvents m clk artistName "" limit ->
  SearchEvents m clk results artistName limit
  = Returns (Some (freshEvents m clk results limit)) None
      match MegaAggregator.cache m with
      | Some c =>
          withCache m
            (SetEvents c (Clock.tStore clk) artistName ""
               (effectiveLimit limit) (freshEvents m clk results limit))
      | None => m
      end.
Proof.
  unfold missesEvents, SearchEvents, freshEvents, effectiveLimit.
  intros Hcap Hmiss.
  rewrite (proj2 (Z.ltb_ge _ _)), (proj2 (Z.eqb_neq _ _)) by lia. simpl.
  destruct (MegaAggregator.cache m) as [c|];
    [rewrite Hmiss|]; by destruct (collectEvents results) as [[??]?].
Qed.

Lemma SearchEventsByLocation_miss m clk results city country limit :
  0 < Config.MaxConcurrentRequests (MegaAggregator.config m) ->
  missesEvents m clk "" city limit ->
  SearchEventsByLocation m clk results city country limit
  = Returns (Some (freshEvents m clk results limit)) None
      match MegaAggregator.cache m with
      | Some c =>
          withCache m
            (SetEvents c (Clock.tStore clk) "" city
               (effectiveLimit limit) (freshEvents m clk results limit))
      | None => m
      end.
Proof.
  unfold missesEvents, SearchEventsByLocation, freshEvents, effectiveLimit.
  intros Hcap Hmiss.
  rewrite (proj2 (Z.ltb_ge _ _)), (proj2 (Z.eqb_neq _ _)) by lia. simpl.
  destruct (MegaAggregator.cache m) as [c|];
    [rewrite Hmiss|]; by destruct (collectEvents results) as [[??]?].
Qed.

Lemma SearchArtists_panics m clk results query limit :
  Config.MaxConcurrentRequests (MegaAggregator.config m) < 0 ->
  missesArtists m clk query limit ->
  SearchArtists m clk results query limit = Panics.
Proof.
  unfold missesArtists, SearchArtists. intros Hcap Hmiss.
  rewrite (proj2 (Z.ltb_lt _ _)) by lia.
  destruct (MegaAggregator.cache m) as [c|]; [by rewrite Hmiss|done].
Qed.

Lemma SearchEvents_panics m clk results artistName limit :
  Config.MaxConcurrentRequests (MegaAggregator.config m) < 0 ->
  missesEvents m clk artistName "" limit ->
  SearchEvents m clk results artistName limit = Panics.
Proof.
  unfold missesEvents, SearchEvents. intros Hcap Hmiss.
  rewrite (proj2 (Z.ltb_lt _ _)) by lia.
  destruct (MegaAggregator.cache m) as [c|]; [by rewrite Hmiss|done].
Qed.

Lemma SearchEventsByLocation_panics m clk results city country limit :
  Config.MaxConcurrentRequests (MegaAggregator.config m) < 0 ->
  missesEvents m clk "" city limit ->
  SearchEventsByLocation m clk results city country limit = Panics.
Proof.
  unfold missesEvents, SearchEventsByLocation. intros Hcap Hmiss.
  rewrite (proj2 (Z.ltb_lt _ _)) by lia.
  destruct (MegaAggregator.cache m) as [c|]; [by rewrite Hmiss|done].
Qed.

(** Whatever a search returns, it returns a result found in the cache or
    built by this call, and no error. *)
Lemma SearchArtists_returns m clk results query limit r err m' :
  SearchArtists m clk results query limit = Returns r err m' ->
  err = None
  /\ ((exists c cached,
         MegaAggregator.cache m = Some c
         /\ GetArtists c (Clock.tLookup clk) query (effectiveLimit limit)
            = Some cached
         /\ r = Some cached /\ m' = m)
      \/ (missesArtists m clk query limit
          /\ r = Some (freshArtists m clk results limit)
          /\ m' = match MegaAggregator.cache m with
                  | Some c =>
                      withCache m
                        (SetArtists c (Clock.tStore clk) query
                           (effectiveLimit limit)
                           (freshArtists m clk results limit))
                  | None => m
                  end)).
Proof.
  unfold SearchArtists, missesArtists, freshArtists, effectiveLimit.
  destruct (MegaAggregator.cache m) as [c|].
  - destruct (GetArtists c _ _ _) as [cached|] eqn:Hget.
    + intros [= <- <- <-]. split; [done|]. left. by exists c, cached.
    + repeat case_match; try done; intros [= <- <- <-]; (split; [done|]);
        by right.
  - repeat case_match; try done; intros [= <- <- <-]; (split; [done|]);
      by right.
Qed.

Lemma SearchEvents_returns m clk results artistName limit r err m' :
  SearchEvents m clk results artistName limit = Returns r err m' ->
  err = None
  /\ ((exists c cached,
         MegaAggregator.cache m = Some c
         /\ GetEvents c (Clock.tLookup clk) artistName ""
              (effectiveLimit limit) = Some cached
         /\ r = Some cached /\ m' = m)
      \/ (missesEvents m clk artistName "" limit
          /\ r = Some (freshEvents m clk results limit)
          /\ m' = match MegaAggregator.cache m with
                  | Some c =>
                      withCache m
                        (SetEvents c (Clock.tStore clk) artistName ""
                           (effectiveLimit limit)
                           (freshEvents m clk results limit))
                  | None => m
                  end)).
Proof.
  unfold SearchEvents, missesEvents, freshEvents, effectiveLimit.
  destruct (MegaAggregator.cache m) as [c|].
  - destruct (GetEvents c _ _ _ _) as [cached|] eqn:Hget.
    + intros [= <- <- <-]. split; [done|]. left. by exists c, cached.
    + repeat case_match; try done; intros [= <- <- <-]; (split; [done|]);
        by right.
  - repeat case_match; try done; intros [= <- <- <-]; (split; [done|]);
      by right.
Qed.

Lemma SearchEventsByLocation_returns m clk results city country limit r err
    m' :
  SearchEventsByLocation m clk results city country limit = Returns r err m' ->
  err = None
  /\ ((exists c cached,
         MegaAggregator.cache m = Some c
         /\ GetEvents c (Clock.tLookup clk) "" city (effectiveLimit limit)
            = Some cached
         /\ r = Some cached /\ m' = m)
      \/ (missesEvents m clk "" city limit
          /\ r = Some (freshEvents m clk results limit)
          /\ m' = match MegaAggregator.cache m with
                  | Some c =>
                      withCache m
                        (SetEvents c (Clock.tStore clk) "" city
                           (effectiveLimit limit)
                           (freshEvents m clk results limit))
                  | None => m
                  end)).
Proof.
  unfold SearchEventsByLocation, missesEvents, freshEvents, effectiveLimit.
  destruct (MegaAggregator.cache m) as [c|].
  - destruct (GetEvents c _ _ _ _) as [cached|] eqn:Hget.
    + intros [= <- <- <-]. split; [done|]. left. by exists c, cached.
    + repeat case_match; try done; intros [= <- <- <-]; (split; [done|]);
        by right.
  - repeat case_match; try done; intros [= <- <- <-]; (split; [done|]);
      by right.
Qed.

(** After any artist search on an aggregator with a cache, the entry under
    the search's key holds the result the search returned. *)
Lemma SearchArtists_leaves_entry m c clk results query limit :
  0 < Config.MaxConcurrentRequests (MegaAggregator.config m) ->
  MegaAggregator.cache m = Some c ->
  exists r c1 entry,
    SearchArtists m clk results query limit = Returns (Some r) None (withCache m c1)
    /\ AggregatorCache.artistCache c1
         !! Sprintf_s_d query (effectiveLimit limit) = Some entry
    /\ CacheEntry.Results entry = r
    /\ (missesArtists m clk query limit ->
        CacheEntry.ExpiresAt entry
        = Time.Add (Clock.tStore clk) (AggregatorCache.ttl c)).
Proof.
  intros Hcap Hc.
  assert (withCache m c = m) as Hm by (destruct m; simpl in *; by subst).
  destruct (GetArtists c (Clock.tLookup clk) query (effectiveLimit limit))
    as [cached|] eqn:Hget.
  - exists cached, c.
    pose proof Hget as Hget'. unfold GetArtists in Hget'.
    destruct (AggregatorCache.artistCache c !! _) as [entry|] eqn:Hl; [|done].
    exists entry. rewrite Hm. split; [by eapply SearchArtists_hit|].
    split; [done|]. split; [by case_match; simplify_eq|].
    unfold missesArtists. rewrite Hc. fold (effectiveLimit limit).
    by rewrite Hget.
  - assert (missesArtists m clk query limit) as Hmiss.
    { unfold missesArtists. by rewrite Hc. }
    rewrite (SearchArtists_miss _ _ _ _ _ Hcap Hmiss), Hc.
    eexists _, _, _. split; [done|]. simpl. by rewrite lookup_insert_eq.
Qed.

(** C7. The result cache. [GetArtists] and [GetEvents] answer "no entry"
    exactly when the key is absent or the instant of the lookup is after the
    entry's [ExpiresAt]; they leave the cache as it is. [SetArtists] and
    [SetEvents] overwrite the entry of their key, whatever was there, with
    the given result and the expiry [now + ttl], and touch nothing else.
    Hence, on an aggregator with a cache and a positive
    [MaxConcurrentRequests], a [SearchArtists] call leaves its result under
    its key, and an identical call whose lookup is not after that entry's
    expiry (which is the first call's store instant plus the TTL when the
    first call went to the sources) returns the same result, from the
    cache, whatever the sources would now answer. *)
Theorem cache_get_set_idempotence :
  (forall c now query limit,
     GetArtists c now query limit = None <->
     AggregatorCache.artistCache c !! Sprintf_s_d query limit = None
     \/ exists entry,
          AggregatorCache.artistCache c !! Sprintf_s_d query limit = Some entry
          /\ Time.unixNano (CacheEntry.ExpiresAt entry) < Time.unixNano now)
  /\ (forall c now artistName city limit,
        GetEvents c now artistName city limit = None <->
        AggregatorCache.eventCache c !! Sprintf_s_s_d artistName city limit
          = None
        \/ exists entry,
             AggregatorCache.eventCache c !! Sprintf_s_s_d artistName city limit
               = Some entry
             /\ Time.unixNano (CacheEntry.ExpiresAt entry) < Time.unixNano now)
  /\ (forall c now query limit results,
        SetArtists c now query limit results
        = {| AggregatorCache.artistCache :=
               <[Sprintf_s_d query limit :=
                   {| CacheEntry.Results := results;
                      CacheEntry.ExpiresAt :=
                        Time.mk (Time.unixNano now + AggregatorCache.ttl c)
                          (Time.zoneOffset now) |}]>
                 (AggregatorCache.artistCache c);
             AggregatorCache.eventCache := AggregatorCache.eventCache c;
             AggregatorCache.ttl := AggregatorCache.ttl c |}
        /\ forall later,
             Time.unixNano later <= Time.unixNano now + AggregatorCache.ttl c ->
             GetArtists (SetArtists c now query limit results) later query limit
             = Some results)
  /\ (forall c now artistName city limit results,
        SetEvents c now artistName city limit results
        = {| AggregatorCache.artistCache := AggregatorCache.artistCache c;
             AggregatorCache.eventCache :=
               <[Sprintf_s_s_d artistName city limit :=
                   {| CacheEntry.Results := results;
                      CacheEntry.ExpiresAt :=
                        Time.mk (Time.unixNano now + AggregatorCache.ttl c)
                          (Time.zoneOffset now) |}]>
                 (AggregatorCache.eventCache c);
             AggregatorCache.ttl := AggregatorCache.ttl c |}
        /\ forall later,
             Time.unixNano later <= Time.unixNano now + AggregatorCache.ttl c ->
             GetEvents (SetEvents c now artistName city limit results) later
               artistName city limit
             = Some results)
  /\ (forall m c clk1 results1 query limit,
        MegaAggregator.cache m = Some c ->
        0 < Config.MaxConcurrentRequests (MegaAggregator.config m) ->
        exists r1 m1 c1 entry,
          SearchArtists m clk1 results1 query limit = Returns (Some r1) None m1
          /\ MegaAggregator.cache m1 = Some c1
          /\ AggregatorCache.artistCache c1
               !! Sprintf_s_d query (effectiveLimit limit) = Some entry
          /\ (missesArtists m clk1 query limit ->
              Time.unixNano (CacheEntry.ExpiresAt entry)
              = Time.unixNano (Clock.tStore clk1) + AggregatorCache.ttl c)
          /\ forall clk2 results2,
               Time.unixNano (Clock.tLookup clk2)
                 <= Time.unixNano (CacheEntry.ExpiresAt entry) ->
               SearchArtists m1 clk2 results2 query limit
               = Returns (Some r1) None m1).
Proof.
  split; [exact GetArtists_None|]. split; [exact GetEvents_None|].
  split; [|split].
  - intros c now query limit results. split; [done|]. intros later Hlater.
    unfold GetArtists, SetArtists, Time.After. simpl.
    rewrite lookup_insert_eq. simpl.
    by rewrite (proj2 (Z.ltb_ge _ _)) by lia.
  - intros c now artistName city limit results. split; [done|].
    intros later Hlater.
    unfold GetEvents, SetEvents, Time.After. simpl.
    rewrite lookup_insert_eq. simpl.
    by rewrite (proj2 (Z.ltb_ge _ _)) by lia.
  - intros m c clk1 results1 query limit Hc Hcap.
    destruct (SearchArtists_leaves_entry m c clk1 results1 query limit Hcap Hc)
      as (r1 & c1 & entry & Hrun & Hentry & Hres & Hexp).
    exists r1, (withCache m c1), c1, entry.
    split; [done|]. split; [done|]. split; [done|].
    split; [intros Hmiss; by rewrite (Hexp Hmiss)|].
    intros clk2 results2 Hwithin.
    apply SearchArtists_hit with (c := c1); [done|].
    unfold GetArtists, Time.After. rewrite Hentry, Hres.
    by rewrite (proj2 (Z.ltb_ge _ _)) by lia.
Qed.

Lemma GetEvents_after_SetEvents c now a1 c1 a2 c2 limit results later :
  Sprintf_s_s_d a1 c1 limit = Sprintf_s_s_d a2 c2 limit ->
  Time.unixNano later <= Time.unixNano now + AggregatorCache.ttl c ->
  GetEvents (SetEvents c now a1 c1 limit results) later a2 c2 limit
  = Some results.
Proof.
  intros Hkey Hlater. unfold GetEvents, SetEvents, Time.After. simpl.
  rewrite <- Hkey, lookup_insert_eq. simpl.
  by rewrite (proj2 (Z.ltb_ge _ _)) by lia.
Qed.

(** C10. The event-cache key is not injective. The pairs ("a_b", "") and
    ("a", "b_") differ and get one key at every limit, so an entry stored by
    [SetEvents] under either pair is what [GetEvents] returns for the other.
    The searches meet the same way: the artist "_a" and the city "a_" share
    a key, so, on an aggregator with a cache and a positive
    [MaxConcurrentRequests], an artist search for "_a" within the TTL of a
    location search for "a_" returns the location search's result without
    asking any source, and the other way round. *)
Theorem event_cache_key_not_injective :
  ("a_b", "") <> ("a", "b_")
  /\ (forall limit, Sprintf_s_s_d "a_b" "" limit = Sprintf_s_s_d "a" "b_" limit)
  /\ (forall c now limit results later,
        Time.unixNano later <= Time.unixNano now + AggregatorCache.ttl c ->
        GetEvents (SetEvents c now "a" "b_" limit results) later "a_b" "" limit
        = Some results
        /\ GetEvents (SetEvents c now "a_b" "" limit results) later "a" "b_"
             limit
           = Some results)
  /\ (forall m c clk1 results1 country limit clk2 results2,
        MegaAggregator.cache m = Some c ->
        0 < Config.MaxConcurrentRequests (MegaAggregator.config m) ->
        missesEvents m clk1 "" "a_" limit ->
        Time.unixNano (Clock.tLookup clk2)
          <= Time.unixNano (Clock.tStore clk1) + AggregatorCache.ttl c ->
        exists m1,
          SearchEventsByLocation m clk1 results1 "a_" country limit
          = Returns (Some (freshEvents m clk1 results1 limit)) None m1
          /\ SearchEvents m1 clk2 results2 "_a" limit
             = Returns (Some (freshEvents m clk1 results1 limit)) None m1)
  /\ (forall m c clk1 results1 country limit clk2 results2,
        MegaAggregator.cache m = Some c ->
        0 < Config.MaxConcurrentRequests (MegaAggregator.config m) ->
        missesEvents m clk1 "_a" "" limit ->
        Time.unixNano (Clock.tLookup clk2)
          <= Time.unixNano (Clock.tStore clk1) + AggregatorCache.ttl c ->
        exists m1,
          SearchEvents m clk1 results1 "_a" limit
          = Returns (Some (freshEvents m clk1 results1 limit)) None m1
          /\ SearchEventsByLocation m1 clk2 results2 "a_" country limit
             = Returns (Some (freshEvents m clk1 results1 limit)) None m1).
Proof.
  split; [discriminate|]. split; [reflexivity|]. split; [|split].
  - intros c now limit results later Hlater.
    split; by apply GetEvents_after_SetEvents.
  - intros m c clk1 results1 country limit clk2 results2 Hc Hcap Hmiss Hlater.
    rewrite (SearchEventsByLocation_miss _ _ _ _ _ _ Hcap Hmiss), Hc.
    eexists. split; [done|].
    eapply SearchEvents_hit; [done|].
    by apply GetEvents_after_SetEvents.
  - intros m c clk1 results1 country limit clk2 results2 Hc Hcap Hmiss Hlater.
    rewrite (SearchEvents_miss _ _ _ _ _ Hcap Hmiss), Hc.
    eexists. split; [done|].
    eapply SearchEventsByLocation_hit; [done|].
    by apply GetEvents_after_SetEvents.
Qed.

(** ** The rate limiters *)

Lemma duration_bounds :
  maxDuration = 9223372036854775807 /\ minDuration = -9223372036854775808
  /\ Hour = 3600000000000.
Proof. by compute. Qed.

Lemma Sub_exact a b :
  minDuration <= Time.unixNano a - Time.unixNano b <= maxDuration ->
  Time.Sub a b = Time.unixNano a - Time.unixNano b.
Proof.
  unfold Time.Sub. intros [Hlo Hhi].
  rewrite (proj2 (Z.ltb_ge _ _)) by lia.
  by rewrite (proj2 (Z.ltb_ge _ _)) by lia.
Qed.

(** Saturation does not change on which side of a day the difference is. *)
Lemma Sub_over_a_day a b :
  (24 * Hour <? Time.Sub a b)
  = (24 * Hour <? Time.unixNano a - Time.unixNano b).
Proof.
  destruct duration_bounds as (Hmax & Hmin & Hh).
  unfold Time.Sub. rewrite Hmax, Hmin, Hh.
  set (d := Time.unixNano a - Time.unixNano b).
  destruct (Z.ltb_spec 9223372036854775807 d);
    [|destruct (Z.ltb_spec d (-9223372036854775808))];
    repeat match goal with
           | |- context [?x <? ?y] => destruct (Z.ltb_spec x y)
           end; try done; lia.
Qed.

Lemma Allow_within_window r now :
  Time.unixNano now - Time.unixNano (rateLimiter.windowStart r) <= 24 * Hour ->
  rateLimiter.Allow r now
  = if rateLimiter.dailyLimit r <=? rateLimiter.requests r
    then (Some ErrRateLimitExceeded, r)
    else (None,
          {| rateLimiter.requests := rateLimiter.requests r + 1;
             rateLimiter.windowStart := rateLimiter.windowStart r;
             rateLimiter.dailyLimit := rateLimiter.dailyLimit r |}).
Proof.
  intros Hin. unfold rateLimiter.Allow. rewrite Sub_over_a_day.
  by rewrite (proj2 (Z.ltb_ge _ _)) by lia.
Qed.

(** [n] calls inside the window of a limiter with room for them all
    succeed and are counted. *)
Lemma AllowEach_within_window times : forall r,
  Forall (fun now =>
            Time.unixNano now - Time.unixNano (rateLimiter.windowStart r)
              <= 24 * Hour) times ->
  rateLimiter.requests r + Z.of_nat (length times) <= rateLimiter.dailyLimit r ->
  rateLimiter.AllowEach r times
  = (replicate (length times) None,
     {| rateLimiter.requests := rateLimiter.requests r + Z.of_nat (length times);
        rateLimiter.windowStart := rateLimiter.windowStart r;
        rateLimiter.dailyLimit := rateLimiter.dailyLimit r |}).
Proof.
  induction times as [|now times IH]; intros r Hin Hroom.
  - simpl. rewrite Z.add_0_r. by destruct r.
  - apply Forall_cons in Hin as [Hnow Hin].
    cbn [length] in Hroom. rewrite Nat2Z.inj_succ in Hroom.
    cbn [rateLimiter.AllowEach length replicate].
    rewrite Allow_within_window by done.
    rewrite (proj2 (Z.leb_gt _ _)) by lia.
    rewrite IH; cbn [rateLimiter.requests rateLimiter.windowStart
                       rateLimiter.dailyLimit]; [|done|lia].
    rewrite Nat2Z.inj_succ. do 2 f_equal. lia.
Qed.

(** C8. The fixed-window daily limiter. A limiter made with a daily limit
    of [n] lets exactly [n] calls made inside its window through; the next
    call inside the window is refused with [ErrRateLimitExceeded] and
    leaves the count and the window start as they were. With a daily limit
    of at least 1 and whatever the count, a call made more than 24 hours
    after the window start opens a new window at the instant of the call,
    succeeds, and leaves the count at 1. *)
Theorem fixed_window_limiter (dailyLimit : Z) (start : Time.t)
    (times : list Time.t) :
  Z.of_nat (length times) = dailyLimit ->
  Forall (fun now => Time.unixNano now - Time.unixNano start <= 24 * Hour)
    times ->
  let '(errs, r) :=
    rateLimiter.AllowEach (rateLimiter.newRateLimiter dailyLimit start) times in
  errs = replicate (length times) None
  /\ rateLimiter.requests r = dailyLimit
  /\ rateLimiter.windowStart r = start
  /\ (forall next,
        Time.unixNano next - Time.unixNano start <= 24 * Hour ->
        rateLimiter.Allow r next = (Some ErrRateLimitExceeded, r))
  /\ (0 < dailyLimit ->
      forall r' later,
        rateLimiter.dailyLimit r' = dailyLimit ->
        24 * Hour
          < Time.unixNano later - Time.unixNano (rateLimiter.windowStart r') ->
        rateLimiter.Allow r' later
        = (None,
           {| rateLimiter.requests := 1;
              rateLimiter.windowStart := later;
              rateLimiter.dailyLimit := dailyLimit |})).
Proof.
  intros Hlen Hin.
  rewrite AllowEach_within_window by (simpl; first [done | lia]).
  cbn [rateLimiter.newRateLimiter rateLimiter.requests
         rateLimiter.windowStart rateLimiter.dailyLimit].
  split; [done|]. split; [lia|]. split; [done|]. split.
  - intros next Hnext. rewrite Allow_within_window by done. simpl.
    by rewrite (proj2 (Z.leb_le _ _)) by lia.
  - intros Hpos r' later Hlimit Hlate. unfold rateLimiter.Allow.
    rewrite Sub_over_a_day, (proj2 (Z.ltb_lt _ _)) by done. simpl.
    rewrite Hlimit. by rewrite (proj2 (Z.leb_gt _ _)) by lia.
Qed.

(** C9. The minimum-interval throttle never refuses: for every limiter and
    every pair of clock readings [Allow] returns no error and records the
    second reading as the last request. When the last request is not in the
    future, the interval is a [Duration], and [time.Sleep] returns no sooner
    than asked, at least the interval lies between the previous request and
    the one recorded. *)
Theorem throttle_never_rejects (r : musicBrainzRateLimiter.t)
    (now woke : Time.t) :
  let '(err, r', sleepTime) := musicBrainzRateLimiter.Allow r now woke in
  err = None
  /\ musicBrainzRateLimiter.lastRequest r' = woke
  /\ musicBrainzRateLimiter.interval r' = musicBrainzRateLimiter.interval r
  /\ (Time.unixNano (musicBrainzRateLimiter.lastRequest r)
        <= Time.unixNano now <= Time.unixNano woke ->
      musicBrainzRateLimiter.interval r <= maxDuration ->
      musicBrainzRateLimiter.sleptAtLeast now woke sleepTime ->
      musicBrainzRateLimiter.interval r
        <= Time.unixNano woke
           - Time.unixNano (musicBrainzRateLimiter.lastRequest r)).
Proof.
  unfold musicBrainzRateLimiter.Allow, musicBrainzRateLimiter.sleptAtLeast.
  cbn [musicBrainzRateLimiter.lastRequest musicBrainzRateLimiter.interval].
  split; [done|]. split; [done|]. split; [done|].
  intros [Hpast Hmono] Hfits.
  destruct duration_bounds as (Hmax & Hmin & _).
  set (d := Time.unixNano now
            - Time.unixNano (musicBrainzRateLimiter.lastRequest r)).
  assert (0 <= d) by (unfold d; lia).
  assert (Time.Sub now (musicBrainzRateLimiter.lastRequest r)
          = Z.min d maxDuration) as ->.
  { unfold Time.Sub. fold d. rewrite Hmax, Hmin.
    destruct (Z.ltb_spec 9223372036854775807 d);
      [|destruct (Z.ltb_spec d (-9223372036854775808))]; lia. }
  destruct (Z.ltb_spec (Z.min d maxDuration)
              (musicBrainzRateLimiter.interval r)) as [Hshort|Hlong].
  - assert (Z.min d maxDuration = d) as -> by lia.
    assert (wrap64 (musicBrainzRateLimiter.interval r - d)
            = musicBrainzRateLimiter.interval r - d) as ->.
    { unfold wrap64. rewrite Hmax in *.
      change (2 ^ 63) with 9223372036854775808.
      change (2 ^ 64) with 18446744073709551616.
      rewrite Z.mod_small; lia. }
    unfold d. lia.
  - intros Hslept. unfold d in *. lia.
Qed.

(** ** Draining the fan-in channel *)

Lemma collectArtists_fold results : forall allArtists sourceStats errors,
  fold_left collectArtistsStep results (allArtists, sourceStats, errors)
  = (allArtists
       ++ concat (SourceResult.Artists <$> filter succeeded results),
     recordCounts SourceResult.Artists sourceStats results,
     errors ++ formattedErrors results).
Proof.
  unfold recordCounts, formattedErrors, succeeded.
  induction results as [|result results IH]; intros allArtists sourceStats errors.
  - simpl. by rewrite !app_nil_r.
  - cbn [fold_left collectArtistsStep omap list_omap]. rewrite filter_cons.
    destruct (SourceResult.Error result) as [err|] eqn:Herr.
    + rewrite IH, decide_False by done. simpl. by rewrite <- app_assoc.
    + rewrite IH, decide_True by done. simpl. by rewrite <- app_assoc.
Qed.

Lemma collectEvents_fold results : forall allEvents sourceStats errors,
  fold_left collectEventsStep results (allEvents, sourceStats, errors)
  = (allEvents
       ++ concat (SourceResult.Events <$> filter succeeded results),
     recordCounts SourceResult.Events sourceStats results,
     errors ++ formattedErrors results).
Proof.
  unfold recordCounts, formattedErrors, succeeded.
  induction results as [|result results IH]; intros allEvents sourceStats errors.
  - simpl. by rewrite !app_nil_r.
  - cbn [fold_left collectEventsStep omap list_omap]. rewrite filter_cons.
    destruct (SourceResult.Error result) as [err|] eqn:Herr.
    + rewrite IH, decide_False by done. simpl. by rewrite <- app_assoc.
    + rewrite IH, decide_True by done. simpl. by rewrite <- app_assoc.
Qed.

Lemma recordCounts_lookup {A} (items : SourceResult.t -> list A) results :
  forall stats name,
  recordCounts items stats results !! name
  = match
      last (filter (fun r => SourceResult.SourceName r = name)
              (filter succeeded results))
    with
    | Some r => Some (Z.of_nat (length (items r)))
    | None => stats !! name
    end.
Proof.
  unfold recordCounts.
  induction (filter succeeded results) as [|r l IH]; intros stats name; [done|].
  cbn [fold_left]. rewrite IH, filter_cons.
  destruct (decide (SourceResult.SourceName r = name)) as [<-|Hne].
  - destruct (filter _ l) as [|r' l'] eqn:Hl.
    + simpl. by rewrite lookup_insert_eq.
    + change (last (r :: r' :: l')) with (last (r' :: l')).
      destruct (last (r' :: l')) eqn:E; [done|]. by apply last_None in E.
  - destruct (last (filter _ l)); [done|]. by rewrite lookup_insert_ne.
Qed.

(** With one result per name, the count under a name is the count of the
    result that carries the name. *)
Lemma recordCounts_NoDup {A} (items : SourceResult.t -> list A) results :
  NoDup (SourceResult.SourceName <$> results) ->
  (forall name,
     is_Some (recordCounts items ∅ results !! name) <->
     exists r, r ∈ results /\ SourceResult.SourceName r = name /\ succeeded r)
  /\ (forall r, r ∈ results -> succeeded r ->
        recordCounts items ∅ results !! SourceResult.SourceName r
        = Some (Z.of_nat (length (items r)))).
Proof.
  intros Hnd.
  assert (forall name r,
            last (filter (fun r => SourceResult.SourceName r = name)
                    (filter succeeded results)) = Some r ->
            r ∈ results /\ SourceResult.SourceName r = name /\ succeeded r)
    as Hlast.
  { intros name r Hl. apply last_Some_elem_of in Hl.
    apply list_elem_of_filter in Hl as [Hn Hl].
    apply list_elem_of_filter in Hl as [Hs Hl]. done. }
  assert (forall r, r ∈ results -> succeeded r ->
            last (filter (fun r' => SourceResult.SourceName r'
                                     = SourceResult.SourceName r)
                    (filter succeeded results)) = Some r) as Hfound.
  { intros r Hr Hs.
    destruct (last (filter _ (filter succeeded results))) as [r'|] eqn:Hl.
    - destruct (Hlast _ _ Hl) as (Hr' & Hn & _). f_equal.
      apply list_elem_of_lookup in Hr as [i Hi].
      apply list_elem_of_lookup in Hr' as [j Hj].
      assert (i = j) as ->; [|congruence].
      eapply NoDup_lookup; [exact Hnd| |];
        rewrite list_lookup_fmap; [by rewrite Hi|rewrite Hj; simpl; by rewrite Hn].
    - apply last_None in Hl.
      assert (r ∈ filter (fun r' => SourceResult.SourceName r'
                                     = SourceResult.SourceName r)
                (filter succeeded results)) as Hin.
      { apply list_elem_of_filter. split; [done|].
        by apply list_elem_of_filter. }
      rewrite Hl in Hin. by apply elem_of_nil in Hin. }
  split.
  - intros name. rewrite recordCounts_lookup. split.
    + destruct (last _) as [r|] eqn:Hl; [|by intros [? ?]].
      intros _. exists r. by apply Hlast.
    + intros (r & Hr & <- & Hs). by rewrite Hfound.
  - intros r Hr Hs. by rewrite recordCounts_lookup, Hfound.
Qed.

Lemma dispatchArtists_names m query :
  NoDup (SourceResult.SourceName <$> dispatchArtists m query).
Proof.
  unfold dispatchArtists. rewrite <- list_fmap_compose.
  erewrite list_fmap_ext; [apply (NoDup_fst_map_to_list
                                    (MegaAggregator.musicSources m))|].
  intros i [name src] _. simpl. by destruct (src _ _).
Qed.

Lemma drainedArtists_names m query results :
  drainedArtists m query results ->
  NoDup (SourceResult.SourceName <$> results)
  /\ length results = size (MegaAggregator.musicSources m).
Proof.
  unfold drainedArtists. intros Hp. split.
  - rewrite Hp. apply dispatchArtists_names.
  - rewrite Hp. unfold dispatchArtists.
    by rewrite length_fmap, length_map_to_list.
Qed.

Lemma elem_of_dispatchArtists m query result :
  result ∈ dispatchArtists m query <->
  exists name src,
    MegaAggregator.musicSources m !! name = Some src
    /\ result
       = {| SourceResult.SourceName := name;
            SourceResult.Artists :=
              (src query (Config.MaxResultsPerSource (MegaAggregator.config m))).1;
            SourceResult.Events := [];
            SourceResult.Error :=
              (src query (Config.MaxResultsPerSource (MegaAggregator.config m))).2
         |}.
Proof.
  unfold dispatchArtists. rewrite list_elem_of_fmap. split.
  - intros ([name src] & -> & Hin). apply elem_of_map_to_list in Hin.
    exists name, src. split; [done|]. by destruct (src _ _).
  - intros (name & src & Hl & ->). exists (name, src).
    split; [by destruct (src _ _)|]. by apply elem_of_map_to_list.
Qed.


(** ** Deduplication *)

Lemma dedup_fold {A} (key : A -> string) l : forall pre seen unique,
  (forall k, default false (seen !! k) = true <-> k ∈ key <$> pre) ->
  (fold_left (dedupStep key) l (seen, unique)).2 = unique ++ keepNew key pre l.
Proof.
  induction l as [|x l IH]; intros pre seen unique Hseen.
  - simpl. by rewrite app_nil_r.
  - cbn [fold_left keepNew dedupStep].
    destruct (default false (seen !! key x)) eqn:Hx; cbn [negb].
    + rewrite decide_True by (by apply Hseen).
      apply IH. intros k. rewrite fmap_app, elem_of_app, <- Hseen.
      split; [by left|]. intros [?|Hk]; [done|].
      apply list_elem_of_singleton in Hk as ->. done.
    + rewrite decide_False by (rewrite <- Hseen; congruence).
      rewrite (IH (pre ++ [x])), <- app_assoc; [done|].
      intros k. rewrite fmap_app, elem_of_app, <- Hseen.
      destruct (decide (k = key x)) as [->|Hne].
      * rewrite lookup_insert_eq. simpl. split; [right; by left|done].
      * rewrite lookup_insert_ne by done. split; [by left|].
        intros [?|Hk]; [done|]. by apply list_elem_of_singleton in Hk.
Qed.

Lemma keepNew_indexed {A} (key : A -> string) l : forall pre,
  keepNew key pre l
  = omap (fun i =>
            x ← l !! i;
            if decide (key x ∈ key <$> (pre ++ take i l)) then None
            else Some x)
      (seq 0 (length l)).
Proof.
  induction l as [|x l IH]; intros pre; [done|].
  cbn [keepNew length seq omap list_omap lookup list_lookup take mbind
         option_bind]. rewrite app_nil_r.
  rewrite IH, <- fmap_S_seq.
  assert (omap (fun i =>
                  x0 ← ((x :: l) !! i);
                  if decide (key x0 ∈ key <$> (pre ++ take i (x :: l)))
                  then None else Some x0) (S <$> seq 0 (length l))
          = omap (fun i =>
                    x0 ← l !! i;
                    if decide (key x0 ∈ key <$> ((pre ++ [x]) ++ take i l))
                    then None else Some x0) (seq 0 (length l))) as ->.
  { apply list_omap_ext, Forall2_fmap_l, Forall_Forall2_diag, Forall_forall.
    intros i _. simpl. by rewrite <- app_assoc. }
  by case_decide.
Qed.

Lemma keepNew_sublist {A} (key : A -> string) l : forall pre,
  keepNew key pre l `sublist_of` l.
Proof.
  induction l as [|x l IH]; intros pre; [done|]. cbn [keepNew].
  case_decide; simpl; [apply sublist_cons|apply sublist_skip]; apply IH.
Qed.

Lemma keepNew_keys {A} (key : A -> string) l : forall pre,
  NoDup (key <$> keepNew key pre l)
  /\ (forall x, x ∈ keepNew key pre l -> key x ∉ key <$> pre)
  /\ (forall x, x ∈ l -> key x ∈ (key <$> pre) ++ (key <$> keepNew key pre l)).
Proof.
  induction l as [|x l IH]; intros pre.
  { split; [constructor|]. split; intros y Hy; by apply elem_of_nil in Hy. }
  destruct (IH (pre ++ [x])) as (Hnd & Hfresh & Hall). cbn [keepNew].
  assert (forall y, y ∈ keepNew key (pre ++ [x]) l ->
            (key y ∉ key <$> pre) /\ key y <> key x) as Hfresh'.
  { intros y Hy. specialize (Hfresh y Hy).
    rewrite fmap_app, elem_of_app in Hfresh. split; [tauto|].
    intros Heq. apply Hfresh. right. rewrite Heq. by left. }
  assert (forall y, y ∈ l ->
            key y ∈ (key <$> pre) ++ key x
                     :: (key <$> keepNew key (pre ++ [x]) l)) as Hall'.
  { intros y Hy. specialize (Hall y Hy).
    rewrite fmap_app, <- app_assoc in Hall. exact Hall. }
  case_decide as Hx; simpl.
  - split; [done|]. split; [intros y Hy; by apply Hfresh'|].
    intros y [->|Hy]%elem_of_cons; [apply elem_of_app; by left|].
    specialize (Hall' y Hy).
    apply elem_of_app in Hall' as [?|[->|?]%elem_of_cons];
      apply elem_of_app; auto.
  - split; [|split].
    + constructor; [|done]. intros (y & Hk & Hy)%list_elem_of_fmap.
      by destruct (Hfresh' y Hy).
    + intros y [->|Hy]%elem_of_cons; [done|]. by apply Hfresh'.
    + intros y [->|Hy]%elem_of_cons.
      * apply elem_of_app. right. by left.
      * by apply Hall'.
Qed.

(** What both [DeduplicateArtists] and [DeduplicateEvents] do, for any key. *)
Lemma dedup_first_occurrences {A} (key : A -> string) (l : list A) :
  let out := (fold_left (dedupStep key) l (∅, [])).2 in
  out `sublist_of` l
  /\ (length out <= length l)%nat
  /\ out = firstOccurrences key l
  /\ NoDup (key <$> out)
  /\ (forall x, x ∈ l -> exists y, y ∈ out /\ key y = key x)
  /\ (forall x y, x ∈ l -> y ∈ l ->
        forall x' y', x' ∈ out -> y' ∈ out ->
          key x' = key x -> key y' = key y ->
          (x' = y' <-> key x = key y)).
Proof.
  intros out.
  assert (out = keepNew key [] l) as Hout.
  { unfold out. rewrite (dedup_fold key l []); [done|].
    intros k. rewrite lookup_empty. simpl. split; [done|].
    intros Hk. by apply elem_of_nil in Hk. }
  destruct (keepNew_keys key l []) as (Hnd & _ & Hall).
  rewrite <- Hout in Hnd, Hall.
  split; [rewrite Hout; apply keepNew_sublist|].
  split; [rewrite Hout; apply sublist_length, keepNew_sublist|].
  split; [by rewrite Hout, keepNew_indexed|].
  split; [done|]. split.
  - intros x Hx. specialize (Hall x Hx). simpl in Hall.
    apply list_elem_of_fmap in Hall as (y & Hk & Hy). by exists y.
  - intros x y _ _ x' y' Hx' Hy' Hkx Hky. split; [by intros ->; congruence|].
    intros Hk.
    apply list_elem_of_lookup in Hx' as [i Hi].
    apply list_elem_of_lookup in Hy' as [j Hj].
    assert (i = j) as ->; [|congruence].
    eapply NoDup_lookup; [exact Hnd| |]; rewrite list_lookup_fmap.
    + by rewrite Hi.
    + rewrite Hj. simpl. congruence.
Qed.

(** C3. Deduplication. For every list, [DeduplicateArtists] and
    [DeduplicateEvents] return a subsequence of their input, so no longer
    than it: exactly the records with no earlier record of the same key, in
    their input order. The output holds one record per key of the input, so
    two input records are stood for by one output record exactly when their
    keys are equal. The artist key is the name in lower case without
    spaces, periods and hyphens; the event key is that key of the artist
    name, the venue name in lower case without spaces, and the date as
    YYYYMMDD, joined by underscores. *)
Theorem deduplication_keeps_first_occurrences :
  (forall artists,
     let key := fun a => normalizeArtistName (Artist.Name a) in
     let out := DeduplicateArtists artists in
     out `sublist_of` artists
     /\ (length out <= length artists)%nat
     /\ out = firstOccurrences key artists
     /\ NoDup (key <$> out)
     /\ (forall x, x ∈ artists -> exists y, y ∈ out /\ key y = key x)
     /\ (forall x y, x ∈ artists -> y ∈ artists ->
           forall x' y', x' ∈ out -> y' ∈ out ->
             key x' = key x -> key y' = key y ->
             (x' = y' <-> key x = key y)))
  /\ (forall events,
        let key := normalizeEventKey in
        let out := DeduplicateEvents events in
        out `sublist_of` events
        /\ (length out <= length events)%nat
        /\ out = firstOccurrences key events
        /\ NoDup (key <$> out)
        /\ (forall x, x ∈ events -> exists y, y ∈ out /\ key y = key x)
        /\ (forall x y, x ∈ events -> y ∈ events ->
              forall x' y', x' ∈ out -> y' ∈ out ->
                key x' = key x -> key y' = key y ->
                (x' = y' <-> key x = key y)))
  /\ (forall name,
        normalizeArtistName name
        = stripBytes [" "; "."; "-"]%char (ToLower name))
  /\ (forall event,
        normalizeEventKey event
        = normalizeArtistName (Event.ArtistName event)
            +:+ "_"
            +:+ ToLower (stripBytes [" "%char] (Venue.Name (Event.Venue event)))
            +:+ "_" +:+ Time.Format20060102 (Event.DateTime event)).
Proof.
  split; [|split; [|split]].
  - intros artists key out.
    apply (dedup_first_occurrences key artists).
  - intros events key out.
    apply (dedup_first_occurrences key events).
  - exact normalizeArtistName_spec.
  - intros event. rewrite normalizeEventKey_spec. unfold specEventKey.
    by rewrite normalizeArtistName_spec.
Qed.

(** ** Sorting *)

Section sortSlice_correct.
Context {A : Type} (less : A -> A -> bool).
Hypothesis less_asym : forall a b, less a b = true -> less b a = false.
Hypothesis notless_trans :
  forall a b c, less a b = false -> less b c = false -> less a c = false.

Lemma insertLeft_perm x rprefix : insertLeft less x rprefix ≡ₚ x :: rprefix.
Proof.
  induction rprefix as [|y r IH]; [done|]. cbn [insertLeft].
  destruct (less x y); [|done]. rewrite IH. apply Permutation_swap.
Qed.

Lemma insertLeft_sorted x rprefix :
  StronglySorted (fun a b => less a b = false) rprefix ->
  StronglySorted (fun a b => less a b = false) (insertLeft less x rprefix).
Proof.
  induction rprefix as [|y r IH]; intros Hs; cbn [insertLeft].
  { repeat constructor. }
  apply StronglySorted_cons in Hs as [Hy Hr].
  destruct (less x y) eqn:Hxy.
  - constructor; [by apply IH|].
    rewrite insertLeft_perm. constructor; [by apply less_asym|done].
  - constructor; [by constructor|]. constructor; [done|].
    eapply Forall_impl; [exact Hy|]. intros z Hz. by eapply notless_trans.
Qed.

Lemma insertAll_sorted data : forall rprefix,
  StronglySorted (fun a b => less a b = false) rprefix ->
  StronglySorted (fun a b => less a b = false)
    (fold_left (fun rprefix x => insertLeft less x rprefix) data rprefix).
Proof.
  induction data as [|x data IH]; intros rprefix Hs; [done|].
  cbn [fold_left]. by apply IH, insertLeft_sorted.
Qed.

Lemma insertAll_perm data : forall rprefix,
  fold_left (fun rprefix x => insertLeft less x rprefix) data rprefix
  ≡ₚ data ++ rprefix.
Proof.
  induction data as [|x data IH]; intros rprefix; [done|].
  cbn [fold_left]. rewrite IH, insertLeft_perm. simpl.
  by rewrite Permutation_middle.
Qed.

Lemma StronglySorted_rev (R : relation A) l :
  StronglySorted R l -> StronglySorted (flip R) (rev l).
Proof.
  induction 1 as [|x l Hs IH Hx]; [constructor|]. simpl.
  apply StronglySorted_app_2; [|done|repeat constructor].
  intros a b Ha Hb. apply list_elem_of_singleton in Hb as ->.
  apply list_elem_of_In, in_rev, list_elem_of_In in Ha.
  rewrite Forall_forall in Hx. by apply Hx.
Qed.

Lemma sortSlice_perm data : sortSlice less data ≡ₚ data.
Proof.
  unfold sortSlice. rewrite <- Permutation_rev, insertAll_perm.
  by rewrite app_nil_r.
Qed.

Lemma sortSlice_length data : length (sortSlice less data) = length data.
Proof. by rewrite sortSlice_perm. Qed.

(** No element of the sorted slice is less than one before it. *)
Lemma sortSlice_ordered data i j a b :
  (i < j)%nat ->
  sortSlice less data !! i = Some a -> sortSlice less data !! j = Some b ->
  less b a = false.
Proof.
  assert (StronglySorted (fun a b => less b a = false) (sortSlice less data))
    as Hs.
  { apply (StronglySorted_rev (fun a b => less a b = false)), insertAll_sorted.
    constructor. }
  revert i j. induction Hs as [|x l Hs IH Hx]; intros i j Hij Hi Hj; [done|].
  destruct j as [|j]; [lia|]. destruct i as [|i].
  - simpl in Hi, Hj. simplify_eq. rewrite Forall_forall in Hx.
    by eapply Hx, list_elem_of_lookup_2.
  - simpl in Hi, Hj. apply (IH i j); [lia|done..].
Qed.
End sortSlice_correct.

Lemma artistLess_asym a b : artistLess a b = true -> artistLess b a = false.
Proof. unfold artistLess. rewrite Z.ltb_lt, Z.ltb_ge. lia. Qed.

Lemma artistLess_trans a b c :
  artistLess a b = false -> artistLess b c = false -> artistLess a c = false.
Proof. unfold artistLess. rewrite !Z.ltb_ge. lia. Qed.

Lemma eventLess_asym now a b :
  eventLess now a b = true -> eventLess now b a = false.
Proof. event_order. Qed.

Lemma eventLess_trans now a b c :
  eventLess now a b = false -> eventLess now b c = false ->
  eventLess now a c = false.
Proof. event_order. Qed.

Lemma sorted_popularityDescending l :
  popularityDescending (sortSlice artistLess l).
Proof.
  intros i a b Hi Hj.
  pose proof (sortSlice_ordered artistLess artistLess_asym artistLess_trans
                l i (S i) a b ltac:(lia) Hi Hj) as H.
  unfold artistLess in H. by apply Z.ltb_ge in H.
Qed.

Lemma sorted_upcomingFirst now l :
  upcomingFirst now (sortSlice (eventLess now) l)
  /\ ascendingWithinPartitions now (sortSlice (eventLess now) l).
Proof.
  split; intros i j a b Hij Hi Hj;
    pose proof (sortSlice_ordered (eventLess now) (eventLess_asym now)
                  (eventLess_trans now) l i j a b Hij Hi Hj) as H;
    revert H; event_order.
Qed.

Lemma take_popularityDescending n l :
  popularityDescending l -> popularityDescending (take n l).
Proof.
  intros H i a b Hi Hj. apply lookup_take_Some in Hi as [Hi _].
  apply lookup_take_Some in Hj as [Hj _]. by eapply H.
Qed.

Lemma take_upcomingFirst now n l :
  upcomingFirst now l /\ ascendingWithinPartitions now l ->
  upcomingFirst now (take n l) /\ ascendingWithinPartitions now (take n l).
Proof.
  intros [H1 H2]. split; intros i j a b Hij Hi Hj;
    apply lookup_take_Some in Hi as [Hi _];
    apply lookup_take_Some in Hj as [Hj _]; [by eapply H1|by eapply H2].
Qed.

(** ** What the cache of a reachable aggregator holds *)

Lemma effectiveLimit_pos limit : 0 < effectiveLimit limit.
Proof. unfold effectiveLimit. destruct (Z.leb_spec limit 0); lia. Qed.

Lemma truncated_length {A} (l : list A) limit :
  0 < limit ->
  Z.of_nat (length (if limit <? Z.of_nat (length l)
                    then take (Z.to_nat limit) l else l)) <= limit.
Proof.
  intros Hpos. destruct (Z.ltb_spec limit (Z.of_nat (length l))); [|done].
  rewrite length_take. lia.
Qed.

Lemma DeduplicateArtists_nil : DeduplicateArtists [] = [].
Proof. reflexivity. Qed.

Lemma DeduplicateEvents_nil : DeduplicateEvents [] = [].
Proof. reflexivity. Qed.

(** The fields of a freshly built artist result. *)
Lemma freshArtists_fields m clk results limit :
  let merged := concat (SourceResult.Artists <$> filter succeeded results) in
  let unique :=
    if Config.DeduplicationEnabled (MegaAggregator.config m)
    then DeduplicateArtists merged else merged in
  let sorted := sortSlice artistLess unique in
  let r := freshArtists m clk results limit in
  AggregatedResults.Artists r
  = (if effectiveLimit limit <? Z.of_nat (length sorted)
     then take (Z.to_nat (effectiveLimit limit)) sorted else sorted)
  /\ AggregatedResults.Events r = []
  /\ AggregatedResults.SourceStats r
     = recordCounts SourceResult.Artists ∅ results
  /\ AggregatedResults.TotalResults r
     = Z.of_nat (length (AggregatedResults.Artists r))
  /\ AggregatedResults.Errors r = formattedErrors results.
Proof.
  unfold freshArtists, collectArtists. by rewrite collectArtists_fold.
Qed.

Lemma freshEvents_fields m clk results limit :
  let merged := concat (SourceResult.Events <$> filter succeeded results) in
  let unique :=
    if Config.DeduplicationEnabled (MegaAggregator.config m)
    then DeduplicateEvents merged else merged in
  let sorted := sortSlice (eventLess (Clock.tSort clk)) unique in
  let r := freshEvents m clk results limit in
  AggregatedResults.Events r
  = (if effectiveLimit limit <? Z.of_nat (length sorted)
     then take (Z.to_nat (effectiveLimit limit)) sorted else sorted)
  /\ AggregatedResults.Artists r = []
  /\ AggregatedResults.SourceStats r
     = recordCounts SourceResult.Events ∅ results
  /\ AggregatedResults.TotalResults r
     = Z.of_nat (length (AggregatedResults.Events r))
  /\ AggregatedResults.Errors r = formattedErrors results.
Proof.
  unfold freshEvents, collectEvents. by rewrite collectEvents_fold.
Qed.

(** When no drained result is error-free the merged list is empty, and so
    is what the search returns. *)
Lemma freshArtists_none_succeeded m clk results limit :
  filter succeeded results = [] ->
  AggregatedResults.Artists (freshArtists m clk results limit) = [].
Proof.
  intros Hnone.
  destruct (freshArtists_fields m clk results limit) as (-> & _).
  rewrite Hnone. simpl. rewrite DeduplicateArtists_nil.
  assert (sortSlice artistLess [] = []) as Hs by reflexivity.
  destruct (Config.DeduplicationEnabled _); rewrite Hs;
    case_match; by rewrite ?take_nil.
Qed.

Lemma freshEvents_none_succeeded m clk results limit :
  filter succeeded results = [] ->
  AggregatedResults.Events (freshEvents m clk results limit) = [].
Proof.
  intros Hnone.
  destruct (freshEvents_fields m clk results limit) as (-> & _).
  rewrite Hnone. simpl. rewrite DeduplicateEvents_nil.
  assert (sortSlice (eventLess (Clock.tSort clk)) [] = []) as Hs
    by reflexivity.
  destruct (Config.DeduplicationEnabled _); rewrite Hs;
    case_match; by rewrite ?take_nil.
Qed.

Lemma freshArtists_ok (noSources : Prop) m clk results query limit :
  (noSources -> results = []) ->
  artistEntryOK noSources (Sprintf_s_d query (effectiveLimit limit))
    (freshArtists m clk results limit).
Proof.
  intros Hzero.
  destruct (freshArtists_fields m clk results limit)
    as (HA & HE & _ & HT & Herr).
  split; [done|]. split; [done|]. split; [|split].
  - rewrite HA. case_match.
    + apply take_popularityDescending, sorted_popularityDescending.
    + apply sorted_popularityDescending.
  - intros query' limit' Hkey. apply Sprintf_s_d_inj in Hkey as [_ <-].
    rewrite HA. apply truncated_length, effectiveLimit_pos.
  - intros Hno. rewrite Herr, (Hzero Hno).
    split; [by apply freshArtists_none_succeeded|done].
Qed.

Lemma freshEvents_ok (noSources : Prop) m clk results artistName city limit :
  (noSources -> results = []) ->
  eventEntryOK noSources (Sprintf_s_s_d artistName city (effectiveLimit limit))
    (freshEvents m clk results limit).
Proof.
  intros Hzero.
  destruct (freshEvents_fields m clk results limit)
    as (HE & HA & _ & HT & Herr).
  split; [done|]. split; [done|]. split; [|split].
  - exists (Clock.tSort clk). rewrite HE. case_match.
    + apply take_upcomingFirst, sorted_upcomingFirst.
    + apply sorted_upcomingFirst.
  - intros artistName' city' limit' Hkey.
    apply Sprintf_s_s_d_limit in Hkey as <-.
    rewrite HE. apply truncated_length, effectiveLimit_pos.
  - intros Hno. rewrite Herr, (Hzero Hno).
    split; [by apply freshEvents_none_succeeded|done].
Qed.

Lemma drainedArtists_no_sources m query results :
  drainedArtists m query results ->
  MegaAggregator.musicSources m = ∅ -> results = [].
Proof.
  unfold drainedArtists, dispatchArtists. intros Hp Hno.
  rewrite Hno, map_to_list_empty in Hp. by apply Permutation_nil_r in Hp.
Qed.

Lemma dispatchEvents_no_sources m now artistName city country :
  noEventSources m ->
  dispatchEventsByArtist m now artistName = []
  /\ dispatchEventsByLocation m now city country = [].
Proof.
  unfold noEventSources, dispatchEventsByArtist, dispatchEventsByLocation,
    GetAllScrapers.
  intros [-> [-> | ->]]; rewrite ?map_to_list_empty; simpl;
    by repeat case_match.
Qed.

Lemma drainedEvents_no_sources m now artistName city country results :
  noEventSources m ->
  drainedEventsByArtist m now artistName results
  \/ drainedEventsByLocation m now city country results ->
  results = [].
Proof.
  unfold drainedEventsByArtist, drainedEventsByLocation. intros Hno.
  destruct (dispatchEvents_no_sources m now artistName city country Hno)
    as [-> ->].
  intros [Hp|Hp]; by apply Permutation_nil_r in Hp.
Qed.

Lemma cacheInv_SetArtists m c now query limit r :
  MegaAggregator.cache m = Some c ->
  cacheInv m ->
  artistEntryOK (MegaAggregator.musicSources m = ∅)
    (Sprintf_s_d query limit) r ->
  cacheInv (withCache m (SetArtists c now query limit r)).
Proof.
  intros Hc Hinv Hr c' [= <-]. destruct (Hinv c Hc) as [HA HE].
  split; [|exact HE]. intros key entry. simpl.
  destruct (decide (Sprintf_s_d query limit = key)) as [<-|Hne].
  - rewrite lookup_insert_eq. by intros [= <-].
  - rewrite lookup_insert_ne by done. apply HA.
Qed.

Lemma cacheInv_SetEvents m c now artistName city limit r :
  MegaAggregator.cache m = Some c ->
  cacheInv m ->
  eventEntryOK (noEventSources m) (Sprintf_s_s_d artistName city limit) r ->
  cacheInv (withCache m (SetEvents c now artistName city limit r)).
Proof.
  intros Hc Hinv Hr c' [= <-]. destruct (Hinv c Hc) as [HA HE].
  split; [exact HA|]. intros key entry. simpl.
  destruct (decide (Sprintf_s_s_d artistName city limit = key)) as [<-|Hne].
  - rewrite lookup_insert_eq. by intros [= <-].
  - rewrite lookup_insert_ne by done. apply HE.
Qed.

Lemma artistEntryOK_weaken (P Q : Prop) key r :
  (Q -> P) -> artistEntryOK P key r -> artistEntryOK Q key r.
Proof. unfold artistEntryOK. naive_solver. Qed.

Lemma eventEntryOK_weaken (P Q : Prop) key r :
  (Q -> P) -> eventEntryOK P key r -> eventEntryOK Q key r.
Proof. unfold eventEntryOK. naive_solver. Qed.

(** The names of what a search drains are those of its goroutines. *)
Lemma drainedArtists_sent m query results :
  drainedArtists m query results -> sentByArtistSearch m results.
Proof.
  unfold drainedArtists, sentByArtistSearch, dispatchArtists. intros ->.
  rewrite <- list_fmap_compose. apply Permutation_refl'.
  apply list_fmap_ext. intros i [name src] _. simpl. by destruct (src _ _).
Qed.

Lemma scraperResult_name now scrpr answer :
  SourceResult.SourceName (scraperResult now scrpr answer)
  = Scraper.GetName scrpr.
Proof. by destruct answer as [scraped [err|]]. Qed.

Lemma scraperResults_names {A} (now : nat -> nat -> Time.t)
    (ask : Scraper.t -> A)
    (answer : A -> list ScrapedEvent.t * option error) scrapers :
  SourceResult.SourceName
    <$> imap (fun j scrpr => scraperResult (now j) scrpr (answer (ask scrpr)))
          scrapers
  = Scraper.GetName <$> scrapers.
Proof.
  rewrite fmap_imap, <- imap_const. apply imap_ext.
  intros j scrpr _. apply scraperResult_name.
Qed.

Lemma drainedEvents_sent m now artistName city country results :
  drainedEventsByArtist m now artistName results
  \/ drainedEventsByLocation m now city country results ->
  sentByEventSearch m results.
Proof.
  unfold drainedEventsByArtist, drainedEventsByLocation, sentByEventSearch,
    dispatchEventsByArtist, dispatchEventsByLocation.
  intros [-> | ->]; rewrite fmap_app, <- list_fmap_compose;
    (apply Permutation_refl'; f_equal;
     [apply list_fmap_ext; intros i [name src] _; simpl;
      unfold eventSourceResult; by case_match
     |destruct (Config.IncludeScrapers (MegaAggregator.config m)); [|done]]).
  - apply (scraperResults_names now
             (fun scrpr =>
                Scraper.ScrapeEvents scrpr artistName
                  (Config.MaxResultsPerSource (MegaAggregator.config m)))
             id).
  - apply (scraperResults_names now
             (fun scrpr =>
                Scraper.ScrapeEventsByLocation scrpr city country
                  (Config.MaxResultsPerSource (MegaAggregator.config m)))
             id).
Qed.

Lemma sentByArtistSearch_no_sources m results :
  sentByArtistSearch m results ->
  MegaAggregator.musicSources m = ∅ -> results = [].
Proof.
  unfold sentByArtistSearch. intros Hp Hno.
  rewrite Hno, map_to_list_empty in Hp. apply Permutation_nil_r in Hp.
  by apply fmap_nil_inv in Hp.
Qed.

Lemma sentByEventSearch_no_sources m results :
  noEventSources m -> sentByEventSearch m results -> results = [].
Proof.
  unfold noEventSources, sentByEventSearch, GetAllScrapers.
  intros [Hno Hscrapers] Hp. rewrite Hno, map_to_list_empty in Hp.
  assert ((if Config.IncludeScrapers (MegaAggregator.config m)
           then Scraper.GetName
                  <$> (snd <$> map_to_list (MegaAggregator.scraperRegistry m))
           else []) = []) as Hnone.
  { destruct Hscrapers as [-> | ->]; [done|].
    rewrite map_to_list_empty. by case_match. }
  rewrite Hnone in Hp. apply Permutation_nil_r in Hp.
  by apply fmap_nil_inv in Hp.
Qed.

(** A search changes nothing but the cache. *)
Lemma SearchArtists_keeps m clk results query limit r err m' :
  SearchArtists m clk results query limit = Returns r err m' ->
  MegaAggregator.musicSources m' = MegaAggregator.musicSources m
  /\ MegaAggregator.eventSources m' = MegaAggregator.eventSources m
  /\ MegaAggregator.scraperRegistry m' = MegaAggregator.scraperRegistry m
  /\ MegaAggregator.config m' = MegaAggregator.config m.
Proof.
  intros Hrun.
  apply SearchArtists_returns in Hrun
    as (_ & [(c & cached & _ & _ & _ & ->) | (_ & _ & ->)]); [done|].
  by destruct (MegaAggregator.cache m).
Qed.

Lemma SearchEvents_keeps m clk results artistName limit r err m' :
  SearchEvents m clk results artistName limit = Returns r err m' ->
  MegaAggregator.musicSources m' = MegaAggregator.musicSources m
  /\ MegaAggregator.eventSources m' = MegaAggregator.eventSources m
  /\ MegaAggregator.scraperRegistry m' = MegaAggregator.scraperRegistry m
  /\ MegaAggregator.config m' = MegaAggregator.config m.
Proof.
  intros Hrun.
  apply SearchEvents_returns in Hrun
    as (_ & [(c & cached & _ & _ & _ & ->) | (_ & _ & ->)]); [done|].
  by destruct (MegaAggregator.cache m).
Qed.

Lemma SearchEventsByLocation_keeps m clk results city country limit r err m' :
  SearchEventsByLocation m clk results city country limit = Returns r err m' ->
  MegaAggregator.musicSources m' = MegaAggregator.musicSources m
  /\ MegaAggregator.eventSources m' = MegaAggregator.eventSources m
  /\ MegaAggregator.scraperRegistry m' = MegaAggregator.scraperRegistry m
  /\ MegaAggregator.config m' = MegaAggregator.config m.
Proof.
  intros Hrun.
  apply SearchEventsByLocation_returns in Hrun
    as (_ & [(c & cached & _ & _ & _ & ->) | (_ & _ & ->)]); [done|].
  by destruct (MegaAggregator.cache m).
Qed.

(** [NewMegaAggregator] replaces a capacity of zero and nothing changes the
    configuration afterwards: the semaphore of a reachable aggregator is
    never unbuffered, and its capacity is positive exactly when the
    configured one is not negative. *)
Lemma NewMegaAggregator_capacity config :
  Config.MaxConcurrentRequests (MegaAggregator.config (NewMegaAggregator config))
    <> 0
  /\ (0 < Config.MaxConcurrentRequests
            (MegaAggregator.config (NewMegaAggregator config))
      <-> 0 <= Config.MaxConcurrentRequests config).
Proof.
  unfold NewMegaAggregator. simpl.
  destruct (Z.eqb_spec (Config.MaxConcurrentRequests config) 0); lia.
Qed.

Lemma reachable_capacity m :
  reachable m ->
  Config.MaxConcurrentRequests (MegaAggregator.config m) <> 0.
Proof.
  induction 1 as [config|m name source _ IH|m name source _ IH|m scraper _ IH
                 |m clk results query limit r err m' _ IH _ Hrun
                 |m clk results artistName limit r err m' _ IH _ Hrun
                 |m clk results city country limit r err m' _ IH _ Hrun];
    try done.
  - apply NewMegaAggregator_capacity.
  - by apply SearchArtists_keeps in Hrun as (_ & _ & _ & ->).
  - by apply SearchEvents_keeps in Hrun as (_ & _ & _ & ->).
  - by apply SearchEventsByLocation_keeps in Hrun as (_ & _ & _ & ->).
Qed.

(** Every entry of a reachable aggregator's cache was built by a search. *)
Lemma reachable_cacheInv m : reachable m -> cacheInv m.
Proof.
  induction 1 as [config|m name source _ IH|m name source _ IH|m scraper _ IH
                 |m clk results query limit r err m' _ IH Hsent Hrun
                 |m clk results artistName limit r err m' _ IH Hsent Hrun
                 |m clk results city country limit r err m' _ IH Hsent Hrun].
  - intros c Hc. unfold NewMegaAggregator in Hc. simpl in Hc.
    destruct (Config.CacheEnabled config); [|done].
    injection Hc as <-. split; intros key entry Hl; simpl in Hl;
      by rewrite lookup_empty in Hl.
  - intros c Hc. destruct (IH c Hc) as [HA HE]. split; [|exact HE].
    intros key entry Hl. eapply artistEntryOK_weaken; [|by apply HA].
    simpl. intros Hempty.
    by apply (insert_non_empty (M:=gmap string)) in Hempty.
  - intros c Hc. destruct (IH c Hc) as [HA HE]. split; [exact HA|].
    intros key entry Hl. eapply eventEntryOK_weaken; [|by apply HE].
    unfold noEventSources. simpl. intros [Hempty _].
    by apply (insert_non_empty (M:=gmap string)) in Hempty.
  - intros c Hc. destruct (IH c Hc) as [HA HE]. split; [exact HA|].
    intros key entry Hl. eapply eventEntryOK_weaken; [|by apply HE].
    unfold noEventSources. simpl. intros [Hempty [Hoff|Hnone]].
    + split; [done|by left].
    + by apply (insert_non_empty (M:=gmap string)) in Hnone.
  - apply SearchArtists_returns in Hrun
      as (_ & [(c & cached & _ & _ & _ & ->) | (_ & _ & ->)]); [done|].
    destruct (MegaAggregator.cache m) as [c|] eqn:Hc; [|done].
    apply cacheInv_SetArtists; [done..|].
    apply freshArtists_ok. intros Hno.
    by eapply sentByArtistSearch_no_sources.
  - apply SearchEvents_returns in Hrun
      as (_ & [(c & cached & _ & _ & _ & ->) | (_ & _ & ->)]); [done|].
    destruct (MegaAggregator.cache m) as [c|] eqn:Hc; [|done].
    apply cacheInv_SetEvents; [done..|].
    apply freshEvents_ok. intros Hno.
    by eapply sentByEventSearch_no_sources.
  - apply SearchEventsByLocation_returns in Hrun
      as (_ & [(c & cached & _ & _ & _ & ->) | (_ & _ & ->)]); [done|].
    destruct (MegaAggregator.cache m) as [c|] eqn:Hc; [|done].
    apply cacheInv_SetEvents; [done..|].
    apply freshEvents_ok. intros Hno.
    by eapply sentByEventSearch_no_sources.
Qed.

(** ** What the searches return *)

Lemma SearchArtists_result_ok m clk results query limit r err m' :
  reachable m ->
  SearchArtists m clk results query limit = Returns r err m' ->
  err = None
  /\ exists res,
       r = Some res
       /\ artistEntryOK
            (MegaAggregator.musicSources m = ∅ /\ sentByArtistSearch m results)
            (Sprintf_s_d query (effectiveLimit limit)) res.
Proof.
  intros Hinv%reachable_cacheInv Hrun.
  apply SearchArtists_returns in Hrun
    as (-> & [(c & cached & Hc & Hget & -> & ->) | (_ & -> & _)]);
    (split; [done|]); eexists; (split; [done|]).
  - unfold GetArtists in Hget.
    destruct (AggregatorCache.artistCache c !! _) as [entry|] eqn:Hl;
      [|done].
    case_match; [done|]. injection Hget as <-.
    eapply artistEntryOK_weaken; [|by apply (Hinv c Hc)]. tauto.
  - apply freshArtists_ok. intros [Hno Hd].
    by eapply sentByArtistSearch_no_sources.
Qed.

Lemma GetEvents_entry c now artistName city limit cached :
  GetEvents c now artistName city limit = Some cached ->
  exists entry,
    AggregatorCache.eventCache c !! Sprintf_s_s_d artistName city limit
      = Some entry
    /\ CacheEntry.Results entry = cached.
Proof.
  unfold GetEvents. destruct (AggregatorCache.eventCache c !! _) as [entry|];
    [|done].
  case_match; [done|]. intros [= <-]. by exists entry.
Qed.

Lemma freshEvents_sorted m clk results limit :
  upcomingFirst (Clock.tSort clk)
    (AggregatedResults.Events (freshEvents m clk results limit))
  /\ ascendingWithinPartitions (Clock.tSort clk)
       (AggregatedResults.Events (freshEvents m clk results limit)).
Proof.
  destruct (freshEvents_fields m clk results limit) as (-> & _).
  case_match; [apply take_upcomingFirst|]; apply sorted_upcomingFirst.
Qed.

Lemma SearchEvents_result_ok m clk results artistName limit r err m' :
  reachable m ->
  SearchEvents m clk results artistName limit = Returns r err m' ->
  err = None
  /\ exists res,
       r = Some res
       /\ eventEntryOK
            (noEventSources m /\ sentByEventSearch m results)
            (Sprintf_s_s_d artistName "" (effectiveLimit limit)) res
       /\ (missesEvents m clk artistName "" limit ->
           upcomingFirst (Clock.tSort clk) (AggregatedResults.Events res)
           /\ ascendingWithinPartitions (Clock.tSort clk)
                (AggregatedResults.Events res)).
Proof.
  intros Hinv%reachable_cacheInv Hrun.
  apply SearchEvents_returns in Hrun
    as (-> & [(c & cached & Hc & Hget & -> & ->) | (_ & -> & _)]);
    (split; [done|]); eexists; (split; [done|]).
  - split.
    + apply GetEvents_entry in Hget as (entry & Hl & <-).
      eapply eventEntryOK_weaken; [|by apply (Hinv c Hc)]. tauto.
    + unfold missesEvents. rewrite Hc. fold (effectiveLimit limit).
      by rewrite Hget.
  - split; [|intros _; apply freshEvents_sorted].
    apply freshEvents_ok. intros [Hno Hd].
    by eapply sentByEventSearch_no_sources.
Qed.

Lemma SearchEventsByLocation_result_ok m clk results city country limit r err
    m' :
  reachable m ->
  SearchEventsByLocation m clk results city country limit = Returns r err m' ->
  err = None
  /\ exists res,
       r = Some res
       /\ eventEntryOK
            (noEventSources m /\ sentByEventSearch m results)
            (Sprintf_s_s_d "" city (effectiveLimit limit)) res
       /\ (missesEvents m clk "" city limit ->
           upcomingFirst (Clock.tSort clk) (AggregatedResults.Events res)
           /\ ascendingWithinPartitions (Clock.tSort clk)
                (AggregatedResults.Events res)).
Proof.
  intros Hinv%reachable_cacheInv Hrun.
  apply SearchEventsByLocation_returns in Hrun
    as (-> & [(c & cached & Hc & Hget & -> & ->) | (_ & -> & _)]);
    (split; [done|]); eexists; (split; [done|]).
  - split.
    + apply GetEvents_entry in Hget as (entry & Hl & <-).
      eapply eventEntryOK_weaken; [|by apply (Hinv c Hc)]. tauto.
    + unfold missesEvents. rewrite Hc. fold (effectiveLimit limit).
      by rewrite Hget.
  - split; [|intros _; apply freshEvents_sorted].
    apply freshEvents_ok. intros [Hno Hd].
    by eapply sentByEventSearch_no_sources.
Qed.

Lemma missesArtists_or_hit m clk query limit :
  missesArtists m clk query limit
  \/ exists c cached,
       MegaAggregator.cache m = Some c
       /\ GetArtists c (Clock.tLookup clk) query (effectiveLimit limit)
          = Some cached.
Proof.
  unfold missesArtists. fold (effectiveLimit limit).
  destruct (MegaAggregator.cache m) as [c|]; [|by left].
  destruct (GetArtists c _ _ _) as [cached|] eqn:Hget; [|by left].
  right. by exists c, cached.
Qed.


Lemma missesEvents_or_found m clk artistName city limit :
  missesEvents m clk artistName city limit
  \/ exists c cached,
       MegaAggregator.cache m = Some c
       /\ GetEvents c (Clock.tLookup clk) artistName city (effectiveLimit limit)
          = Some cached.
Proof.
  unfold missesEvents. fold (effectiveLimit limit).
  destruct (MegaAggregator.cache m) as [c|]; [|by left].
  destruct (GetEvents c _ _ _ _) as [cached|] eqn:Hget; [|by left].
  right. by exists c, cached.
Qed.

(** With a positive capacity every search returns. *)
Lemma SearchArtists_total m clk results query limit :
  0 < Config.MaxConcurrentRequests (MegaAggregator.config m) ->
  exists r m',
    SearchArtists m clk results query limit = Returns (Some r) None m'.
Proof.
  intros Hcap.
  destruct (missesArtists_or_hit m clk query limit)
    as [Hmiss | (c & cached & Hc & Hget)].
  - rewrite (SearchArtists_miss _ _ _ _ _ Hcap Hmiss). by eexists _, _.
  - rewrite (SearchArtists_hit _ _ _ _ _ _ _ Hc Hget). by eexists _, _.
Qed.

Lemma SearchEvents_total m clk results artistName limit :
  0 < Config.MaxConcurrentRequests (MegaAggregator.config m) ->
  exists r m',
    SearchEvents m clk results artistName limit = Returns (Some r) None m'.
Proof.
  intros Hcap.
  destruct (missesEvents_or_found m clk artistName "" limit)
    as [Hmiss | (c & cached & Hc & Hget)].
  - rewrite (SearchEvents_miss _ _ _ _ _ Hcap Hmiss). by eexists _, _.
  - rewrite (SearchEvents_hit _ _ _ _ _ _ _ Hc Hget). by eexists _, _.
Qed.

Lemma SearchEventsByLocation_total m clk results city country limit :
  0 < Config.MaxConcurrentRequests (MegaAggregator.config m) ->
  exists r m',
    SearchEventsByLocation m clk results city country limit
    = Returns (Some r) None m'.
Proof.
  intros Hcap.
  destruct (missesEvents_or_found m clk "" city limit)
    as [Hmiss | (c & cached & Hc & Hget)].
  - rewrite (SearchEventsByLocation_miss _ _ _ _ _ _ Hcap Hmiss).
    by eexists _, _.
  - rewrite (SearchEventsByLocation_hit _ _ _ _ _ _ _ _ Hc Hget).
    by eexists _, _.
Qed.

(** C6. With a positive [MaxConcurrentRequests] each of the three searches
    returns a result, and every result a search returns on a reachable
    aggregator, fresh or from the cache, has [TotalResults] equal to the
    length of the list it carries (artists for the artist search, events
    for the event searches), and that length is at most the effective
    limit: the requested limit, or 50 when the requested limit is zero or
    negative. A search with a limit of zero or less is the same search with
    limit 50: same lookup, same outcome, same cache afterwards. *)
Theorem total_results_and_limit (m : MegaAggregator.t) :
  reachable m ->
  forall clk results,
    (forall query limit,
       (0 < Config.MaxConcurrentRequests (MegaAggregator.config m) ->
        exists r m',
          SearchArtists m clk results query limit = Returns (Some r) None m')
       /\ (forall r err m',
             SearchArtists m clk results query limit = Returns r err m' ->
             exists res,
               r = Some res
               /\ AggregatedResults.TotalResults res
                  = Z.of_nat (length (AggregatedResults.Artists res))
               /\ Z.of_nat (length (AggregatedResults.Artists res))
                  <= (if limit <=? 0 then 50 else limit))
       /\ (limit <= 0 ->
           SearchArtists m clk results query limit
           = SearchArtists m clk results query 50))
    /\ (forall artistName limit,
          (0 < Config.MaxConcurrentRequests (MegaAggregator.config m) ->
           exists r m',
             SearchEvents m clk results artistName limit
             = Returns (Some r) None m')
          /\ (forall r err m',
                SearchEvents m clk results artistName limit
                = Returns r err m' ->
                exists res,
                  r = Some res
                  /\ AggregatedResults.TotalResults res
                     = Z.of_nat (length (AggregatedResults.Events res))
                  /\ Z.of_nat (length (AggregatedResults.Events res))
                     <= (if limit <=? 0 then 50 else limit))
          /\ (limit <= 0 ->
              SearchEvents m clk results artistName limit
              = SearchEvents m clk results artistName 50))
    /\ (forall city country limit,
          (0 < Config.MaxConcurrentRequests (MegaAggregator.config m) ->
           exists r m',
             SearchEventsByLocation m clk results city country limit
             = Returns (Some r) None m')
          /\ (forall r err m',
                SearchEventsByLocation m clk results city country limit
                = Returns r err m' ->
                exists res,
                  r = Some res
                  /\ AggregatedResults.TotalResults res
                     = Z.of_nat (length (AggregatedResults.Events res))
                  /\ Z.of_nat (length (AggregatedResults.Events res))
                     <= (if limit <=? 0 then 50 else limit))
          /\ (limit <= 0 ->
              SearchEventsByLocation m clk results city country limit
              = SearchEventsByLocation m clk results city country 50)).
Proof.
  intros Hreach clk results.
  assert (forall limit, limit <= 0 -> (limit <=? 0) = true) as Hle
    by (intros; by apply Z.leb_le).
  split; [|split].
  - intros query limit. split; [apply SearchArtists_total|]. split.
    + intros r err m' Hrun.
      destruct (SearchArtists_result_ok _ _ _ _ _ _ _ _ Hreach Hrun)
        as (_ & res & -> & Htotal & _ & _ & Hlen & _).
      exists res. split; [done|]. split; [done|]. by eapply Hlen.
    + intros Hlimit. unfold SearchArtists. by rewrite (Hle _ Hlimit).
  - intros artistName limit. split; [apply SearchEvents_total|]. split.
    + intros r err m' Hrun.
      destruct (SearchEvents_result_ok _ _ _ _ _ _ _ _ Hreach Hrun)
        as (_ & res & -> & (Htotal & _ & _ & Hlen & _) & _).
      exists res. split; [done|]. split; [done|]. by eapply Hlen.
    + intros Hlimit. unfold SearchEvents. by rewrite (Hle _ Hlimit).
  - intros city country limit.
    split; [apply SearchEventsByLocation_total|]. split.
    + intros r err m' Hrun.
      destruct (SearchEventsByLocation_result_ok _ _ _ _ _ _ _ _ _ Hreach Hrun)
        as (_ & res & -> & (Htotal & _ & _ & Hlen & _) & _).
      exists res. split; [done|]. split; [done|]. by eapply Hlen.
    + intros Hlimit. unfold SearchEventsByLocation.
      by rewrite (Hle _ Hlimit).
Qed.


(** ** Failing sources *)

Lemma all_failed results :
  (forall result, result ∈ results -> SourceResult.Error result <> None) ->
  filter succeeded results = []
  /\ length (formattedErrors results) = length results.
Proof.
  unfold formattedErrors, succeeded.
  induction results as [|result results IH]; intros Hfail; [done|].
  destruct IH as [IH1 IH2].
  { intros r Hr. apply Hfail. by right. }
  assert (SourceResult.Error result <> None) as Hres
    by (apply Hfail; by left).
  rewrite filter_cons, decide_False, IH1 by done. split; [done|].
  cbn [omap list_omap]. destruct (SourceResult.Error result); [|done].
  simpl. by rewrite IH2.
Qed.

Lemma dispatchEvents_length m now artistName city country :
  length (dispatchEventsByArtist m now artistName)
  = (size (MegaAggregator.eventSources m)
     + if Config.IncludeScrapers (MegaAggregator.config m)
       then size (MegaAggregator.scraperRegistry m) else 0)%nat
  /\ length (dispatchEventsByLocation m now city country)
     = (size (MegaAggregator.eventSources m)
        + if Config.IncludeScrapers (MegaAggregator.config m)
          then size (MegaAggregator.scraperRegistry m) else 0)%nat.
Proof.
  unfold dispatchEventsByArtist, dispatchEventsByLocation, GetAllScrapers.
  rewrite !length_app, !length_fmap, !length_map_to_list.
  destruct (Config.IncludeScrapers _); simpl;
    by rewrite ?length_imap, ?length_fmap, ?length_map_to_list.
Qed.

(** C1, as the code has it. A failing source never fails a search, and
    what can keep a search from returning is the capacity of its semaphore
    alone. No search ever returns an error or a nil result. With a positive
    [MaxConcurrentRequests], which is what [NewMegaAggregator] leaves when
    the configured value is not negative, every call of the three searches
    returns a result that is not nil, with a nil error; on a reachable
    aggregator with no registered source (for the event searches: no event
    source, and no scraper taking part) the result has no items and no
    errors; and when every result drained from the channel carries an
    error, the search still returns a nil error, with no items and with one
    error string per registered source (per event source and participating
    scraper), each "<source>: <cause>". With a negative
    [MaxConcurrentRequests] every search that misses the cache panics, and
    returns nothing, whatever the sources. *)
Theorem source_failures_never_abort :
  (forall config,
     0 < Config.MaxConcurrentRequests
           (MegaAggregator.config (NewMegaAggregator config))
     <-> 0 <= Config.MaxConcurrentRequests config)
  /\ (forall m clk results,
        (forall query limit r err m',
           SearchArtists m clk results query limit = Returns r err m' ->
           err = None /\ r <> None)
        /\ (forall artistName limit r err m',
              SearchEvents m clk results artistName limit = Returns r err m' ->
              err = None /\ r <> None)
        /\ (forall city country limit r err m',
              SearchEventsByLocation m clk results city country limit
              = Returns r err m' ->
              err = None /\ r <> None))
  /\ (forall m clk results,
        0 < Config.MaxConcurrentRequests (MegaAggregator.config m) ->
        (forall query limit,
           exists r m',
             SearchArtists m clk results query limit
             = Returns (Some r) None m')
        /\ (forall artistName limit,
              exists r m',
                SearchEvents m clk results artistName limit
                = Returns (Some r) None m')
        /\ (forall city country limit,
              exists r m',
                SearchEventsByLocation m clk results city country limit
                = Returns (Some r) None m'))
  /\ (forall m clk results,
        reachable m ->
        0 < Config.MaxConcurrentRequests (MegaAggregator.config m) ->
        (forall query limit,
           MegaAggregator.musicSources m = ∅ ->
           drainedArtists m query results ->
           exists r m',
             SearchArtists m clk results query limit = Returns (Some r) None m'
             /\ AggregatedResults.Artists r = []
             /\ AggregatedResults.Events r = []
             /\ AggregatedResults.Errors r = [])
        /\ (forall artistName limit,
              noEventSources m ->
              drainedEventsByArtist m (Clock.tConvert clk) artistName results ->
              exists r m',
                SearchEvents m clk results artistName limit
                = Returns (Some r) None m'
                /\ AggregatedResults.Artists r = []
                /\ AggregatedResults.Events r = []
                /\ AggregatedResults.Errors r = [])
        /\ (forall city country limit,
              noEventSources m ->
              drainedEventsByLocation m (Clock.tConvert clk) city country
                results ->
              exists r m',
                SearchEventsByLocation m clk results city country limit
                = Returns (Some r) None m'
                /\ AggregatedResults.Artists r = []
                /\ AggregatedResults.Events r = []
                /\ AggregatedResults.Errors r = []))
  /\ (forall m clk results,
        0 < Config.MaxConcurrentRequests (MegaAggregator.config m) ->
        (forall result, result ∈ results ->
           SourceResult.Error result <> None) ->
        (forall query limit,
           drainedArtists m query results ->
           missesArtists m clk query limit ->
           exists r m',
             SearchArtists m clk results query limit = Returns (Some r) None m'
             /\ AggregatedResults.Artists r = []
             /\ AggregatedResults.Events r = []
             /\ AggregatedResults.Errors r = formattedErrors results
             /\ length (AggregatedResults.Errors r)
                = size (MegaAggregator.musicSources m))
        /\ (forall artistName limit,
              drainedEventsByArtist m (Clock.tConvert clk) artistName results ->
              missesEvents m clk artistName "" limit ->
              exists r m',
                SearchEvents m clk results artistName limit
                = Returns (Some r) None m'
                /\ AggregatedResults.Artists r = []
                /\ AggregatedResults.Events r = []
                /\ AggregatedResults.Errors r = formattedErrors results
                /\ length (AggregatedResults.Errors r)
                   = (size (MegaAggregator.eventSources m)
                      + if Config.IncludeScrapers (MegaAggregator.config m)
                        then size (MegaAggregator.scraperRegistry m)
                        else 0)%nat)
        /\ (forall city country limit,
              drainedEventsByLocation m (Clock.tConvert clk) city country
                results ->
              missesEvents m clk "" city limit ->
              exists r m',
                SearchEventsByLocation m clk results city country limit
                = Returns (Some r) None m'
                /\ AggregatedResults.Artists r = []
                /\ AggregatedResults.Events r = []
                /\ AggregatedResults.Errors r = formattedErrors results
                /\ length (AggregatedResults.Errors r)
                   = (size (MegaAggregator.eventSources m)
                      + if Config.IncludeScrapers (MegaAggregator.config m)
                        then size (MegaAggregator.scraperRegistry m)
                        else 0)%nat))
  /\ (forall m clk results,
        Config.MaxConcurrentRequests (MegaAggregator.config m) < 0 ->
        (forall query limit,
           missesArtists m clk query limit ->
           SearchArtists m clk results query limit = Panics)
        /\ (forall artistName limit,
              missesEvents m clk artistName "" limit ->
              SearchEvents m clk results artistName limit = Panics)
        /\ (forall city country limit,
              missesEvents m clk "" city limit ->
              SearchEventsByLocation m clk results city country limit
              = Panics)).
Proof.
  split; [intros config; apply NewMegaAggregator_capacity|].
  split; [|split; [|split; [|split]]].
  - intros m clk results. split; [|split].
    + intros query limit r err m' Hrun.
      by apply SearchArtists_returns in Hrun
        as (-> & [(c & cached & _ & _ & -> & _) | (_ & -> & _)]).
    + intros artistName limit r err m' Hrun.
      by apply SearchEvents_returns in Hrun
        as (-> & [(c & cached & _ & _ & -> & _) | (_ & -> & _)]).
    + intros city country limit r err m' Hrun.
      by apply SearchEventsByLocation_returns in Hrun
        as (-> & [(c & cached & _ & _ & -> & _) | (_ & -> & _)]).
  - intros m clk results Hcap.
    split; [intros; by apply SearchArtists_total|].
    split; [intros; by apply SearchEvents_total|].
    intros; by apply SearchEventsByLocation_total.
  - intros m clk results Hreach Hcap. split; [|split].
    + intros query limit Hno Hd.
      destruct (SearchArtists_total m clk results query limit Hcap)
        as (r & m' & Hrun).
      destruct (SearchArtists_result_ok _ _ _ _ _ _ _ _ Hreach Hrun)
        as (_ & res & [= <-] & _ & HE & _ & _ & Hzero).
      exists r, m'. split; [done|].
      destruct Hzero as [-> ->]; [|done].
      split; [done|]. by apply (drainedArtists_sent m query).
    + intros artistName limit Hno Hd.
      destruct (SearchEvents_total m clk results artistName limit Hcap)
        as (r & m' & Hrun).
      destruct (SearchEvents_result_ok _ _ _ _ _ _ _ _ Hreach Hrun)
        as (_ & res & [= <-] & (_ & HA & _ & _ & Hzero) & _).
      exists r, m'. split; [done|].
      destruct Hzero as [-> ->]; [|done].
      split; [done|].
      apply (drainedEvents_sent m (Clock.tConvert clk) artistName "" "").
      by left.
    + intros city country limit Hno Hd.
      destruct (SearchEventsByLocation_total m clk results city country limit
                  Hcap) as (r & m' & Hrun).
      destruct (SearchEventsByLocation_result_ok _ _ _ _ _ _ _ _ _ Hreach Hrun)
        as (_ & res & [= <-] & (_ & HA & _ & _ & Hzero) & _).
      exists r, m'. split; [done|].
      destruct Hzero as [-> ->]; [|done].
      split; [done|].
      apply (drainedEvents_sent m (Clock.tConvert clk) "" city country).
      by right.
  - intros m clk results Hcap Hfail.
    destruct (all_failed results Hfail) as [Hnone Hlen].
    split; [|split].
    + intros query limit Hd Hmiss.
      rewrite (SearchArtists_miss _ _ _ _ _ Hcap Hmiss). eexists _, _.
      split; [done|].
      destruct (freshArtists_fields m clk results limit)
        as (_ & HE & _ & _ & Herr).
      split; [by apply freshArtists_none_succeeded|].
      split; [done|]. split; [done|].
      rewrite Herr, Hlen. by apply drainedArtists_names in Hd as [_ ->].
    + intros artistName limit Hd Hmiss.
      rewrite (SearchEvents_miss _ _ _ _ _ Hcap Hmiss). eexists _, _.
      split; [done|].
      destruct (freshEvents_fields m clk results limit)
        as (_ & HA & _ & _ & Herr).
      split; [done|]. split; [by apply freshEvents_none_succeeded|].
      split; [done|]. rewrite Herr, Hlen. unfold drainedEventsByArtist in Hd.
      rewrite Hd.
      apply (dispatchEvents_length m (Clock.tConvert clk) artistName "" "").
    + intros city country limit Hd Hmiss.
      rewrite (SearchEventsByLocation_miss _ _ _ _ _ _ Hcap Hmiss).
      eexists _, _. split; [done|].
      destruct (freshEvents_fields m clk results limit)
        as (_ & HA & _ & _ & Herr).
      split; [done|]. split; [by apply freshEvents_none_succeeded|].
      split; [done|]. rewrite Herr, Hlen.
      unfold drainedEventsByLocation in Hd. rewrite Hd.
      apply (dispatchEvents_length m (Clock.tConvert clk) "" city country).
  - intros m clk results Hcap.
    split; [intros; by apply SearchArtists_panics|].
    split; [intros; by apply SearchEvents_panics|].
    intros; by apply SearchEventsByLocation_panics.
Qed.

Lemma radiohead_drained config results :
  drainedArtists (radioheadAggregator config) "Radiohead" results ->
  results = [resultA; resultB] \/ results = [resultB; resultA].
Proof.
  unfold drainedArtists, dispatchArtists, radioheadAggregator. simpl.
  rewrite map_to_list_insert by done.
  rewrite insert_empty, map_to_list_singleton. simpl.
  intros Hp. symmetry in Hp. apply Permutation_length_2_inv in Hp. tauto.
Qed.

Lemma radiohead_misses config clk limit :
  missesArtists (radioheadAggregator config) clk "Radiohead" limit.
Proof.
  unfold missesArtists, radioheadAggregator, NewMegaAggregator. simpl.
  by destruct (Config.CacheEnabled config).
Qed.

Lemma radiohead_capacity config :
  0 <= Config.MaxConcurrentRequests config ->
  0 < Config.MaxConcurrentRequests
        (MegaAggregator.config (radioheadAggregator config)).
Proof. apply NewMegaAggregator_capacity. Qed.

(** C2, as the code has it. With deduplication enabled, a
    [MaxConcurrentRequests] that is not negative, and source A answering
    {"Radiohead", 90} and source B answering {"radiohead.", 70}, the merged
    output holds exactly one artist for either order in which the two
    results are consumed, and it is the record of the result consumed
    first: "Radiohead" with popularity 90 when A's result is drained first,
    "radiohead." with popularity 70 when B's is. *)
Theorem radiohead_first_consumed_wins (config : Config.t) (clk : Clock.t)
    (results : list SourceResult.t) :
  Config.DeduplicationEnabled config = true ->
  0 <= Config.MaxConcurrentRequests config ->
  drainedArtists (radioheadAggregator config) "Radiohead" results ->
  exists r m',
    SearchArtists (radioheadAggregator config) clk results "Radiohead" 10
    = Returns (Some r) None m'
    /\ length (AggregatedResults.Artists r) = 1%nat
    /\ ((results = [resultA; resultB]
         /\ AggregatedResults.Artists r = [radioheadA])
        \/ (results = [resultB; resultA]
            /\ AggregatedResults.Artists r = [radioheadB])).
Proof.
  intros Hdedup Hcap Hdrained.
  rewrite (SearchArtists_miss _ _ _ _ _ (radiohead_capacity config Hcap)
             (radiohead_misses config clk 10)).
  eexists _, _. split; [done|].
  destruct (freshArtists_fields (radioheadAggregator config) clk results 10)
    as (-> & _).
  assert (Config.DeduplicationEnabled
            (MegaAggregator.config (radioheadAggregator config)) = true)
    as -> by done.
  destruct (radiohead_drained config results Hdrained) as [-> | ->].
  - assert (DeduplicateArtists
              (concat (SourceResult.Artists
                         <$> filter succeeded [resultA; resultB]))
            = [radioheadA]) as -> by (by vm_compute).
    split; [done|]. by left.
  - assert (DeduplicateArtists
              (concat (SourceResult.Artists
                         <$> filter succeeded [resultB; resultA]))
            = [radioheadB]) as -> by (by vm_compute).
    split; [done|]. by right.
Qed.

(** * Further properties of the code *)

(** ** The sliding-window limiter *)

Lemma wrap64_small z : minDuration <= z <= maxDuration -> wrap64 z = z.
Proof.
  destruct duration_bounds as (Hmax & Hmin & _). rewrite Hmax, Hmin.
  intros Hz. unfold wrap64.
  change (2 ^ 63) with 9223372036854775808.
  change (2 ^ 64) with 18446744073709551616.
  rewrite Z.mod_small; lia.
Qed.

Lemma inWindow_spec r now s :
  eventRateLimiter.inWindow r now s = true <->
  Time.unixNano now - eventRateLimiter.windowSize r < Time.unixNano s.
Proof.
  unfold eventRateLimiter.inWindow, Time.After, Time.Add. simpl.
  rewrite Z.ltb_lt. lia.
Qed.

Lemma sliding_Allow_unfold r now :
  0 < eventRateLimiter.windowSize r <= maxDuration ->
  eventRateLimiter.Allow r now
  = let valid :=
      List.filter (eventRateLimiter.inWindow r now)
        (eventRateLimiter.requests r) in
    if eventRateLimiter.limit r <=? Z.of_nat (length valid)
    then (Some ErrRateLimitExceeded,
          {| eventRateLimiter.requests := valid;
             eventRateLimiter.limit := eventRateLimiter.limit r;
             eventRateLimiter.windowSize := eventRateLimiter.windowSize r |})
    else (None,
          {| eventRateLimiter.requests := valid ++ [now];
             eventRateLimiter.limit := eventRateLimiter.limit r;
             eventRateLimiter.windowSize := eventRateLimiter.windowSize r |}).
Proof.
  intros Hw. unfold eventRateLimiter.Allow, eventRateLimiter.inWindow.
  rewrite wrap64_small; [done|].
  destruct duration_bounds as (Hmax & Hmin & _). rewrite Hmax, Hmin in *. lia.
Qed.

Lemma filter_inWindow_later r earlier now (l : list Time.t) :
  Time.unixNano earlier <= Time.unixNano now ->
  List.filter (eventRateLimiter.inWindow r now)
    (List.filter (eventRateLimiter.inWindow r earlier) l)
  = List.filter (eventRateLimiter.inWindow r now) l.
Proof.
  intros Hle. induction l as [|s l IH]; [done|]. simpl.
  destruct (eventRateLimiter.inWindow r earlier s) eqn:He; simpl.
  - by rewrite IH.
  - rewrite IH.
    destruct (eventRateLimiter.inWindow r now s) eqn:Hn; [|done].
    apply inWindow_spec in Hn.
    assert (eventRateLimiter.inWindow r earlier s = true) as Hc
      by (apply inWindow_spec; lia).
    congruence.
Qed.

Lemma last_cons_default {A} (l : list A) : forall a d,
  List.last (a :: l) d = List.last l a.
Proof.
  induction l as [|t l IH]; intros a d; [done|].
  change (List.last (a :: t :: l) d) with (List.last (t :: l) d).
  by rewrite (IH t d), (IH t a).
Qed.

Lemma last_in_list {A} (l : list A) : forall a d,
  In (List.last (a :: l) d) (a :: l).
Proof.
  induction l as [|t l IH]; intros a d; [by left|].
  change (List.last (a :: t :: l) d) with (List.last (t :: l) d).
  right. apply IH.
Qed.

Lemma filter_length_le {A} (f : A -> bool) (l : list A) :
  (length (List.filter f l) <= length l)%nat.
Proof. induction l as [|x l IH]; simpl; [done|]. destruct (f x); simpl; lia. Qed.

(** A run of calls at instants that never go back, on a limiter whose log
    is what of [log] lies in the window ending at [previous]. *)
Lemma sliding_AllowEach_log times : forall r log previous,
  0 < eventRateLimiter.windowSize r <= maxDuration ->
  StronglySorted (fun a b => Time.unixNano a <= Time.unixNano b)
    (previous :: times) ->
  eventRateLimiter.requests r
  = List.filter (eventRateLimiter.inWindow r previous) log ->
  Z.of_nat (length (eventRateLimiter.requests r)) <= eventRateLimiter.limit r ->
  let '(errs, r') := eventRateLimiter.AllowEach r times in
  eventRateLimiter.requests r'
  = List.filter (eventRateLimiter.inWindow r (List.last times previous))
      (log ++ eventRateLimiter.allowedTimes times errs)
  /\ Z.of_nat (length (eventRateLimiter.requests r'))
     <= eventRateLimiter.limit r
  /\ eventRateLimiter.limit r' = eventRateLimiter.limit r
  /\ eventRateLimiter.windowSize r' = eventRateLimiter.windowSize r.
Proof.
  induction times as [|now times IH];
    intros r log previous Hw Hsorted Hlog Hlen.
  { simpl. by rewrite app_nil_r. }
  apply StronglySorted_cons in Hsorted as [Hprev Hsorted].
  apply Forall_cons in Hprev as [Hnow Hprev].
  cbn [eventRateLimiter.AllowEach]. rewrite sliding_Allow_unfold by done.
  cbv zeta. rewrite last_cons_default.
  pose proof (filter_length_le (eventRateLimiter.inWindow r now)
                (eventRateLimiter.requests r)) as Hshrink.
  rewrite Hlog, filter_inWindow_later in * by done.
  destruct (Z.leb_spec (eventRateLimiter.limit r)
              (Z.of_nat (length (List.filter (eventRateLimiter.inWindow r now)
                                   log)))) as [Hfull|Hroom].
  - specialize (IH {| eventRateLimiter.requests :=
                        List.filter (eventRateLimiter.inWindow r now) log;
                      eventRateLimiter.limit := eventRateLimiter.limit r;
                      eventRateLimiter.windowSize :=
                        eventRateLimiter.windowSize r |} log now Hw Hsorted
                  eq_refl ltac:(simpl; lia)).
    destruct (eventRateLimiter.AllowEach _ times) as [errs r'].
    cbn [eventRateLimiter.allowedTimes]. exact IH.
  - specialize (IH {| eventRateLimiter.requests :=
                        List.filter (eventRateLimiter.inWindow r now) log
                          ++ [now];
                      eventRateLimiter.limit := eventRateLimiter.limit r;
                      eventRateLimiter.windowSize :=
                        eventRateLimiter.windowSize r |} (log ++ [now]) now Hw
                  Hsorted).
    destruct (eventRateLimiter.AllowEach _ times) as [errs r'].
    cbn [eventRateLimiter.allowedTimes]. rewrite <- app_assoc in IH.
    apply IH.
    + rewrite List.filter_app. simpl.
      assert (eventRateLimiter.inWindow
                {| eventRateLimiter.requests :=
                     List.filter (eventRateLimiter.inWindow r now) log
                       ++ [now];
                   eventRateLimiter.limit := eventRateLimiter.limit r;
                   eventRateLimiter.windowSize :=
                     eventRateLimiter.windowSize r |} now now = true) as ->
        by (apply inWindow_spec; simpl; lia).
      done.
    + simpl. rewrite length_app. simpl. lia.
Qed.

(** X1. The sliding-window guarantee. After any run of calls at instants
    that never go back, on a limiter made with a limit of at least 0 and a
    window that is a positive [Duration], the next call is refused exactly
    when [limit] of the calls let through so far lie in the window ending
    at it; a refused call is not logged; and the log afterwards is exactly
    the calls let through in that window, never more than [limit] of them. *)
Theorem sliding_window_refuses_exactly_when_full (limit : Z)
    (window : Duration) (earlier : list Time.t) (now : Time.t) :
  0 <= limit ->
  0 < window <= maxDuration ->
  StronglySorted (fun a b => Time.unixNano a <= Time.unixNano b)
    (earlier ++ [now]) ->
  let fresh :=
    {| eventRateLimiter.requests := []; eventRateLimiter.limit := limit;
       eventRateLimiter.windowSize := window |} in
  let '(errs, r) := eventRateLimiter.AllowEach fresh earlier in
  let allowed := eventRateLimiter.allowedTimes earlier errs in
  let inside := List.filter (eventRateLimiter.inWindow fresh now) allowed in
  let '(err, r') := eventRateLimiter.Allow r now in
  (err = Some ErrRateLimitExceeded <-> limit <= Z.of_nat (length inside))
  /\ (err = None <-> Z.of_nat (length inside) < limit)
  /\ eventRateLimiter.requests r'
     = inside ++ match err with Some _ => [] | None => [now] end
  /\ Z.of_nat (length (eventRateLimiter.requests r')) <= limit.
Proof.
  intros Hlimit Hw Hsorted fresh.
  assert (exists first,
            StronglySorted (fun a b => Time.unixNano a <= Time.unixNano b)
              (first :: earlier)
            /\ Time.unixNano (List.last earlier first) <= Time.unixNano now)
    as (first & Hfirst & Hlast).
  { destruct earlier as [|t earlier].
    - exists now. split; [repeat constructor|simpl; lia].
    - exists t. apply StronglySorted_app in Hsorted as (Hcross & Hs & _).
      split.
      + constructor; [done|]. constructor; [lia|].
        by apply StronglySorted_cons in Hs as [Ht _].
      + apply Hcross; [|by left].
        apply list_elem_of_In, (last_in_list earlier t t). }
  pose proof (sliding_AllowEach_log earlier fresh [] first Hw Hfirst eq_refl
                ltac:(simpl; lia)) as Hrun.
  destruct (eventRateLimiter.AllowEach fresh earlier) as [errs r].
  destruct Hrun as (Hlog & Hlen & Hl & Hwin). cbv zeta.
  rewrite sliding_Allow_unfold by (by rewrite Hwin). cbv zeta.
  pose proof (filter_length_le (eventRateLimiter.inWindow r now)
                (eventRateLimiter.requests r)) as Hshrink.
  assert (forall s, eventRateLimiter.inWindow r now s
                    = eventRateLimiter.inWindow fresh now s) as Hsame.
  { intros s. unfold eventRateLimiter.inWindow. by rewrite Hwin. }
  assert (List.filter (eventRateLimiter.inWindow r now)
            (eventRateLimiter.requests r)
          = List.filter (eventRateLimiter.inWindow fresh now)
              (eventRateLimiter.allowedTimes earlier errs)) as Hinside.
  { rewrite Hlog. simpl app.
    rewrite (List.filter_ext _ _ Hsame).
    rewrite <- (filter_inWindow_later fresh (List.last earlier first) now
                  (eventRateLimiter.allowedTimes earlier errs) Hlast).
    done. }
  rewrite Hinside in *. rewrite Hl. simpl eventRateLimiter.limit in *.
  destruct (Z.leb_spec limit
              (Z.of_nat (length (List.filter
                                   (eventRateLimiter.inWindow fresh now)
                                   (eventRateLimiter.allowedTimes earlier
                                      errs))))) as [Hfull|Hroom].
  - split; [done|]. split; [split; [done|lia]|].
    simpl. rewrite app_nil_r. split; [done|]. lia.
  - split; [split; [done|lia]|]. split; [done|]. simpl. split; [done|].
    rewrite length_app. simpl. lia.
Qed.

(** ** The fixed-window limiter, over any run of calls *)

Lemma fixed_AllowEach_app l1 : forall r l2,
  rateLimiter.AllowEach r (l1 ++ l2)
  = let '(errs1, r1) := rateLimiter.AllowEach r l1 in
    let '(errs2, r2) := rateLimiter.AllowEach r1 l2 in
    (errs1 ++ errs2, r2).
Proof.
  induction l1 as [|now l1 IH]; intros r l2.
  - simpl. by destruct (rateLimiter.AllowEach r l2).
  - cbn [app rateLimiter.AllowEach].
    destruct (rateLimiter.Allow r now) as [err r1]. rewrite IH.
    destruct (rateLimiter.AllowEach r1 l1) as [errs1 r2].
    by destruct (rateLimiter.AllowEach r2 l2).
Qed.

Lemma fixed_Allow_invariant r now :
  0 <= rateLimiter.requests r <= rateLimiter.dailyLimit r ->
  let '(err, r') := rateLimiter.Allow r now in
  0 <= rateLimiter.requests r' <= rateLimiter.dailyLimit r'
  /\ rateLimiter.dailyLimit r' = rateLimiter.dailyLimit r
  /\ (rateLimiter.windowStart r' = rateLimiter.windowStart r
      \/ rateLimiter.windowStart r' = now)
  /\ (err = None \/ err = Some ErrRateLimitExceeded)
  /\ (err = Some ErrRateLimitExceeded ->
      rateLimiter.requests r' = rateLimiter.dailyLimit r).
Proof.
  intros Hinv. unfold rateLimiter.Allow.
  destruct (24 * Hour <? Time.Sub now (rateLimiter.windowStart r)); simpl;
    match goal with
    | |- context [?x <=? ?y] => destruct (Z.leb_spec x y)
    end; simpl; repeat split; auto; try lia; try discriminate.
Qed.

(** X2. Whatever the instants of the calls, going back in time included, a
    limiter made with a daily limit of at least 0 never counts more than
    its limit: after every run its count is between 0 and the limit, its
    limit is the one it was made with, its window starts at the instant it
    was made or at one of the calls, and each call returned nil or
    [ErrRateLimitExceeded]. *)
Theorem fixed_window_count_within_limit (dailyLimit : Z) (start : Time.t)
    (times : list Time.t) :
  0 <= dailyLimit ->
  let '(errs, r) :=
    rateLimiter.AllowEach (rateLimiter.newRateLimiter dailyLimit start) times in
  0 <= rateLimiter.requests r <= dailyLimit
  /\ rateLimiter.dailyLimit r = dailyLimit
  /\ (rateLimiter.windowStart r = start \/ rateLimiter.windowStart r ∈ times)
  /\ length errs = length times
  /\ Forall (fun err => err = None \/ err = Some ErrRateLimitExceeded) errs.
Proof.
  intros Hlimit.
  assert (forall times r,
            0 <= rateLimiter.requests r <= rateLimiter.dailyLimit r ->
            let '(errs, r') := rateLimiter.AllowEach r times in
            0 <= rateLimiter.requests r' <= rateLimiter.dailyLimit r
            /\ rateLimiter.dailyLimit r' = rateLimiter.dailyLimit r
            /\ (rateLimiter.windowStart r' = rateLimiter.windowStart r
                \/ rateLimiter.windowStart r' ∈ times)
            /\ length errs = length times
            /\ Forall (fun err => err = None \/ err = Some ErrRateLimitExceeded)
                 errs) as Hrun.
  { clear. induction times as [|now times IH]; intros r Hinv.
    - simpl. repeat split; auto; lia.
    - cbn [rateLimiter.AllowEach].
      pose proof (fixed_Allow_invariant r now Hinv) as Hstep.
      destruct (rateLimiter.Allow r now) as [err r1].
      destruct Hstep as (Hinv1 & Hl1 & Hw1 & Herr & _).
      specialize (IH r1 Hinv1).
      destruct (rateLimiter.AllowEach r1 times) as [errs r2].
      destruct IH as (Hinv2 & Hl2 & Hw2 & Hlen & Herrs).
      rewrite Hl1 in *. split; [done|]. split; [done|]. split.
      + destruct Hw2 as [Hw2|Hw2]; [|right; by right].
        rewrite Hw2. destruct Hw1 as [->| ->]; [by left|right; by left].
      + split; [simpl; by rewrite Hlen|by constructor]. }
  apply (Hrun times (rateLimiter.newRateLimiter dailyLimit start)).
  simpl. lia.
Qed.

(** X3. The window boundary. A limiter with limit [n] lets [n] calls
    through at any instant inside its window and [n] more at any instant
    more than 24 hours after the window start, however close the two
    instants are: all [2n] calls succeed. *)
Theorem fixed_window_boundary_burst (n : nat) (start t1 t2 : Time.t) :
  Time.unixNano t1 - Time.unixNano start <= 24 * Hour ->
  24 * Hour < Time.unixNano t2 - Time.unixNano start ->
  (rateLimiter.AllowEach (rateLimiter.newRateLimiter (Z.of_nat n) start)
     (replicate n t1 ++ replicate n t2)).1
  = replicate (n + n) None.
Proof.
  intros Hin Hout. rewrite fixed_AllowEach_app.
  rewrite AllowEach_within_window;
    [|simpl; apply Forall_replicate; done|simpl; rewrite length_replicate; lia].
  rewrite length_replicate.
  cbn [rateLimiter.newRateLimiter rateLimiter.requests
         rateLimiter.windowStart rateLimiter.dailyLimit].
  destruct n as [|n]; [done|].
  cbn [replicate rateLimiter.AllowEach].
  assert (rateLimiter.Allow
            {| rateLimiter.requests := 0 + Z.of_nat (S n);
               rateLimiter.windowStart := start;
               rateLimiter.dailyLimit := Z.of_nat (S n) |} t2
          = (None,
             {| rateLimiter.requests := 1; rateLimiter.windowStart := t2;
                rateLimiter.dailyLimit := Z.of_nat (S n) |})) as ->.
  { unfold rateLimiter.Allow. rewrite Sub_over_a_day. simpl.
    rewrite (proj2 (Z.ltb_lt _ _)) by done.
    cbn [rateLimiter.dailyLimit rateLimiter.requests rateLimiter.windowStart].
    by rewrite (proj2 (Z.leb_gt _ _)) by lia. }
  rewrite AllowEach_within_window;
    [|cbn [rateLimiter.windowStart]; apply Forall_replicate;
      destruct duration_bounds as (_ & _ & ->); lia
     |cbn [rateLimiter.requests rateLimiter.dailyLimit];
      rewrite length_replicate; lia].
  simpl. rewrite length_replicate.
  f_equal. by rewrite replicate_add.
Qed.

(** ** The throttle's sleep *)

(** X4. The throttle sleeps exactly until one interval after the last
    request: when the durations involved fit a [Duration], the time it
    asks [time.Sleep] for is the distance from [now] to [lastRequest +
    interval], and zero when that instant has passed. So it never sleeps
    longer than the interval unless the last request lies in the future. *)
Theorem throttle_sleeps_until_interval_end (r : musicBrainzRateLimiter.t)
    (now woke : Time.t) :
  musicBrainzRateLimiter.interval r <= maxDuration ->
  minDuration
    <= Time.unixNano now - Time.unixNano (musicBrainzRateLimiter.lastRequest r) ->
  Time.unixNano (musicBrainzRateLimiter.lastRequest r)
    + musicBrainzRateLimiter.interval r - Time.unixNano now <= maxDuration ->
  (musicBrainzRateLimiter.Allow r now woke).2
  = Z.max 0 (Time.unixNano (musicBrainzRateLimiter.lastRequest r)
             + musicBrainzRateLimiter.interval r - Time.unixNano now).
Proof.
  intros Hfits Hlow Hhigh. unfold musicBrainzRateLimiter.Allow. simpl.
  destruct duration_bounds as (Hmax & Hmin & _).
  set (d := Time.unixNano now
            - Time.unixNano (musicBrainzRateLimiter.lastRequest r)) in *.
  assert (Time.Sub now (musicBrainzRateLimiter.lastRequest r)
          = Z.min d maxDuration) as ->.
  { unfold Time.Sub. fold d. rewrite Hmax, Hmin in *.
    destruct (Z.ltb_spec 9223372036854775807 d);
      [|destruct (Z.ltb_spec d (-9223372036854775808))]; lia. }
  destruct (Z.ltb_spec (Z.min d maxDuration)
              (musicBrainzRateLimiter.interval r)) as [Hshort|Hlong].
  - assert (Z.min d maxDuration = d) as -> by lia.
    rewrite wrap64_small; [unfold d; lia|].
    rewrite Hmax, Hmin in *. unfold d in *. lia.
  - unfold d in *. lia.
Qed.

(** ** What the cache keys leave out *)

(** X5. The location cache ignores the country. The key of a location
    search is built from the city and the limit alone, so once a search for
    a city has gone to the sources, a search for the same city and limit
    with any other country, looked up before the entry expires, is answered
    with the first search's result and asks no source. *)
Theorem location_cache_ignores_country m c clk1 results1 city country1
    country2 limit clk2 results2 :
  MegaAggregator.cache m = Some c ->
  0 < Config.MaxConcurrentRequests (MegaAggregator.config m) ->
  missesEvents m clk1 "" city limit ->
  Time.unixNano (Clock.tLookup clk2)
    <= Time.unixNano (Clock.tStore clk1) + AggregatorCache.ttl c ->
  exists m1,
    SearchEventsByLocation m clk1 results1 city country1 limit
    = Returns (Some (freshEvents m clk1 results1 limit)) None m1
    /\ SearchEventsByLocation m1 clk2 results2 city country2 limit
       = Returns (Some (freshEvents m clk1 results1 limit)) None m1.
Proof.
  intros Hc Hcap Hmiss Hlater.
  rewrite (SearchEventsByLocation_miss _ _ _ _ _ _ Hcap Hmiss), Hc.
  eexists. split; [done|].
  eapply SearchEventsByLocation_hit; [done|].
  by apply GetEvents_after_SetEvents.
Qed.

(** X6. Registration does not invalidate the cache. A music source
    registered after a search has filled the cache is not asked for that
    query and limit until the entry expires: the search returns the result
    built before the source was there. *)
Theorem registration_keeps_cached_results m c clk1 results1 query limit name
    source clk2 results2 :
  MegaAggregator.cache m = Some c ->
  0 < Config.MaxConcurrentRequests (MegaAggregator.config m) ->
  missesArtists m clk1 query limit ->
  Time.unixNano (Clock.tLookup clk2)
    <= Time.unixNano (Clock.tStore clk1) + AggregatorCache.ttl c ->
  exists m1,
    SearchArtists m clk1 results1 query limit
    = Returns (Some (freshArtists m clk1 results1 limit)) None m1
    /\ MegaAggregator.musicSources (RegisterMusicSource m1 name source) !! name
       = Some source
    /\ SearchArtists (RegisterMusicSource m1 name source) clk2 results2 query
         limit
       = Returns (Some (freshArtists m clk1 results1 limit)) None
           (RegisterMusicSource m1 name source).
Proof.
  intros Hc Hcap Hmiss Hlater.
  rewrite (SearchArtists_miss _ _ _ _ _ Hcap Hmiss), Hc.
  eexists. split; [done|].
  split; [simpl; by rewrite lookup_insert_eq|].
  eapply SearchArtists_hit; [done|].
  unfold GetArtists, SetArtists, Time.After. simpl.
  rewrite lookup_insert_eq. simpl.
  by rewrite (proj2 (Z.ltb_ge _ _)) by lia.
Qed.

(** X7. An artist search changes one cache entry at most and evicts none.
    Whenever a search on an aggregator with a cache returns, it leaves the
    sources, the configuration, the TTL and the event cache as they were;
    the artist entries of every other query or limit are untouched; and
    every key that had an entry still has one, expired or not. *)
Theorem artist_search_touches_only_its_entry m c clk results query limit r err
    m' :
  MegaAggregator.cache m = Some c ->
  SearchArtists m clk results query limit = Returns r err m' ->
  exists c1,
    m' = withCache m c1
    /\ AggregatorCache.eventCache c1 = AggregatorCache.eventCache c
    /\ AggregatorCache.ttl c1 = AggregatorCache.ttl c
    /\ (forall query' limit',
          (query', limit') <> (query, effectiveLimit limit) ->
          AggregatorCache.artistCache c1 !! Sprintf_s_d query' limit'
          = AggregatorCache.artistCache c !! Sprintf_s_d query' limit')
    /\ (forall key,
          is_Some (AggregatorCache.artistCache c !! key) ->
          is_Some (AggregatorCache.artistCache c1 !! key)).
Proof.
  intros Hc Hrun.
  assert (withCache m c = m) as Hm by (destruct m; simpl in *; by subst).
  apply SearchArtists_returns in Hrun
    as (_ & [(c0 & cached & _ & _ & _ & ->) | (_ & _ & ->)]).
  - exists c. by rewrite Hm.
  - rewrite Hc.
    eexists. split; [done|]. simpl. split; [done|]. split; [done|]. split.
    + intros query' limit' Hother. apply lookup_insert_ne.
      intros Hkey. apply Sprintf_s_d_inj in Hkey as [Hq Hl].
      apply Hother. by rewrite <- Hq, <- Hl.
    + intros key Hkey.
      destruct (decide (Sprintf_s_d query (effectiveLimit limit) = key))
        as [<-|Hne]; [by rewrite lookup_insert_eq|].
      by rewrite lookup_insert_ne.
Qed.

(** ** Deduplication as an operation on lists *)

Lemma dedup_keepNew {A} (key : A -> string) l :
  (fold_left (dedupStep key) l (∅, [])).2 = keepNew key [] l.
Proof.
  rewrite (dedup_fold key l []); [done|].
  intros k. rewrite lookup_empty. simpl. split; [done|].
  intros Hk. by apply elem_of_nil in Hk.
Qed.

Lemma keepNew_app {A} (key : A -> string) l1 : forall pre l2,
  keepNew key pre (l1 ++ l2)
  = keepNew key pre l1 ++ keepNew key (pre ++ l1) l2.
Proof.
  induction l1 as [|x l1 IH]; intros pre l2; simpl.
  - by rewrite app_nil_r.
  - rewrite IH, <- !app_assoc. done.
Qed.

Lemma keepNew_distinct {A} (key : A -> string) l : forall pre,
  NoDup (key <$> (pre ++ l)) -> keepNew key pre l = l.
Proof.
  induction l as [|x l IH]; intros pre Hnd; simpl; [done|].
  rewrite decide_False.
  - simpl. f_equal. apply IH. by rewrite <- app_assoc.
  - rewrite fmap_app in Hnd. apply NoDup_app in Hnd as (_ & Hnd & _).
    intros Hin. apply (Hnd _ Hin). simpl. by left.
Qed.

Lemma dedup_algebra {A} (key : A -> string) :
  let dedup := fun l => (fold_left (dedupStep key) l (∅, [])).2 in
  (forall l, dedup (dedup l) = dedup l)
  /\ (forall l, dedup l = l <-> NoDup (key <$> l))
  /\ (forall l1 l2, dedup l1 `prefix_of` dedup (l1 ++ l2)).
Proof.
  intros dedup. unfold dedup. split; [|split].
  - intros l. rewrite !dedup_keepNew. apply keepNew_distinct.
    apply (keepNew_keys key l []).
  - intros l. rewrite dedup_keepNew. split.
    + intros Heq. rewrite <- Heq. apply (keepNew_keys key l []).
    + intros Hnd. by apply keepNew_distinct.
  - intros l1 l2. rewrite !dedup_keepNew, keepNew_app. by eexists.
Qed.

(** X8. Deduplication is idempotent, is the identity exactly on lists
    whose keys are pairwise distinct, and is stable under extension:
    deduplicating a list with more records appended yields the
    deduplicated list followed by records of the appended part, so a record
    that arrives later never displaces one kept before. *)
Theorem deduplication_idempotent_and_prefix_stable :
  (forall artists,
     DeduplicateArtists (DeduplicateArtists artists)
     = DeduplicateArtists artists)
  /\ (forall artists,
        DeduplicateArtists artists = artists <->
        NoDup ((fun a => normalizeArtistName (Artist.Name a)) <$> artists))
  /\ (forall artists more,
        DeduplicateArtists artists
          `prefix_of` DeduplicateArtists (artists ++ more))
  /\ (forall events,
        DeduplicateEvents (DeduplicateEvents events) = DeduplicateEvents events)
  /\ (forall events,
        DeduplicateEvents events = events <->
        NoDup (normalizeEventKey <$> events))
  /\ (forall events more,
        DeduplicateEvents events `prefix_of` DeduplicateEvents (events ++ more)).
Proof.
  destruct (dedup_algebra (fun a => normalizeArtistName (Artist.Name a)))
    as (Hidem & Hid & Hpre).
  destruct (dedup_algebra normalizeEventKey) as (Hidem' & Hid' & Hpre').
  by repeat split; first [apply Hidem | apply Hid | apply Hpre
                         | apply Hidem' | apply Hid' | apply Hpre'].
Qed.

(** ** From the merged records to the result *)

Lemma sortSlice_StronglySorted {A} (less : A -> A -> bool) data :
  (forall a b, less a b = true -> less b a = false) ->
  (forall a b c, less a b = false -> less b c = false -> less a c = false) ->
  StronglySorted (fun a b => less b a = false) (sortSlice less data).
Proof.
  intros Hasym Htrans.
  apply (StronglySorted_rev (fun a b => less a b = false)),
    insertAll_sorted; [done..|constructor].
Qed.

Lemma truncated_take {A} (l : list A) limit :
  (if limit <? Z.of_nat (length l) then take (Z.to_nat limit) l else l)
  = take (Z.to_nat limit) l.
Proof.
  destruct (Z.ltb_spec limit (Z.of_nat (length l))); [done|].
  rewrite take_ge; [done|lia].
Qed.

Lemma elem_of_concat {A} (x : A) (ls : list (list A)) :
  x ∈ concat ls <-> exists l, l ∈ ls /\ x ∈ l.
Proof.
  rewrite list_elem_of_In, in_concat. split.
  - intros (l & Hl & Hx). exists l. by rewrite !list_elem_of_In.
  - intros (l & Hl & Hx). exists l. by rewrite <- !list_elem_of_In.
Qed.

Lemma concat_Permutation {A} (ls1 ls2 : list (list A)) :
  ls1 ≡ₚ ls2 -> concat ls1 ≡ₚ concat ls2.
Proof.
  induction 1 as [|l ls1 ls2 _ IH|l1 l2 ls|ls1 ls2 ls3 _ IH1 _ IH2]; simpl.
  - done.
  - by rewrite IH.
  - rewrite !app_assoc. f_equiv. apply Permutation_app_comm.
  - by rewrite IH1.
Qed.

Lemma freshArtists_elem m clk results limit a :
  a ∈ AggregatedResults.Artists (freshArtists m clk results limit) ->
  exists result, result ∈ results /\ succeeded result
                 /\ a ∈ SourceResult.Artists result.
Proof.
  destruct (freshArtists_fields m clk results limit) as (-> & _).
  rewrite truncated_take. intros Ha.
  apply elem_of_take in Ha as (i & Ha & _).
  apply list_elem_of_lookup_2 in Ha. rewrite sortSlice_perm in Ha.
  assert (a ∈ concat (SourceResult.Artists <$> filter succeeded results))
    as Hmerged.
  { destruct (Config.DeduplicationEnabled (MegaAggregator.config m)); [|done].
    eapply elem_of_sublist; [exact Ha|].
    apply (dedup_first_occurrences
             (fun a => normalizeArtistName (Artist.Name a))). }
  apply elem_of_concat in Hmerged as (l & Hl & Hal).
  apply list_elem_of_fmap in Hl as (result & -> & Hr).
  apply list_elem_of_filter in Hr as [Hok Hr]. by exists result.
Qed.

Lemma freshEvents_elem m clk results limit e :
  e ∈ AggregatedResults.Events (freshEvents m clk results limit) ->
  exists result, result ∈ results /\ succeeded result
                 /\ e ∈ SourceResult.Events result.
Proof.
  destruct (freshEvents_fields m clk results limit) as (-> & _).
  rewrite truncated_take. intros He.
  apply elem_of_take in He as (i & He & _).
  apply list_elem_of_lookup_2 in He. rewrite sortSlice_perm in He.
  assert (e ∈ concat (SourceResult.Events <$> filter succeeded results))
    as Hmerged.
  { destruct (Config.DeduplicationEnabled (MegaAggregator.config m)); [|done].
    eapply elem_of_sublist; [exact He|].
    apply (dedup_first_occurrences normalizeEventKey). }
  apply elem_of_concat in Hmerged as (l & Hl & Hel).
  apply list_elem_of_fmap in Hl as (result & -> & Hr).
  apply list_elem_of_filter in Hr as [Hok Hr]. by exists result.
Qed.

(** X9. Every artist of a result built from the sources was returned by a
    registered source whose call returned no error: what a source hands
    back together with an error never reaches the result. *)
Theorem artists_come_from_error_free_sources m clk results query limit :
  0 < Config.MaxConcurrentRequests (MegaAggregator.config m) ->
  drainedArtists m query results ->
  missesArtists m clk query limit ->
  exists r m',
    SearchArtists m clk results query limit = Returns (Some r) None m'
    /\ forall a, a ∈ AggregatedResults.Artists r ->
         exists name src,
           MegaAggregator.musicSources m !! name = Some src
           /\ (src query
                 (Config.MaxResultsPerSource (MegaAggregator.config m))).2
              = None
           /\ a ∈ (src query
                     (Config.MaxResultsPerSource (MegaAggregator.config m))).1.
Proof.
  intros Hcap Hdrained Hmiss.
  rewrite (SearchArtists_miss _ _ _ _ _ Hcap Hmiss).
  eexists _, _. split; [done|]. intros a Ha.
  apply freshArtists_elem in Ha as (result & Hr & Hok & Ha).
  rewrite Hdrained in Hr.
  apply elem_of_dispatchArtists in Hr as (name & src & Hsrc & ->).
  exists name, src. by repeat split.
Qed.

(** X10. Every event of a result built from the sources by an artist
    search was returned by a registered event source whose call returned no
    error, or is the conversion of a record scraped by a registered scraper
    whose call returned no error, made at that conversion's own reading of
    the clock, and the latter only when scrapers are included by the
    configuration. *)
Theorem events_come_from_error_free_sources m clk results artistName limit :
  0 < Config.MaxConcurrentRequests (MegaAggregator.config m) ->
  drainedEventsByArtist m (Clock.tConvert clk) artistName results ->
  missesEvents m clk artistName "" limit ->
  let cap := Config.MaxResultsPerSource (MegaAggregator.config m) in
  exists r m',
    SearchEvents m clk results artistName limit = Returns (Some r) None m'
    /\ forall e, e ∈ AggregatedResults.Events r ->
         (exists name src,
            MegaAggregator.eventSources m !! name = Some src
            /\ (EventSource.SearchEventsByArtist src artistName cap).2 = None
            /\ e ∈ (EventSource.SearchEventsByArtist src artistName cap).1)
         \/ (Config.IncludeScrapers (MegaAggregator.config m) = true
             /\ exists name scrpr j i scraped,
                  MegaAggregator.scraperRegistry m !! name = Some scrpr
                  /\ (Scraper.ScrapeEvents scrpr artistName cap).2 = None
                  /\ (Scraper.ScrapeEvents scrpr artistName cap).1 !! i
                     = Some scraped
                  /\ e = ToEvent (Clock.tConvert clk j i) scraped).
Proof.
  intros Hcap Hdrained Hmiss cap.
  rewrite (SearchEvents_miss _ _ _ _ _ Hcap Hmiss).
  eexists _, _. split; [done|]. intros e He.
  apply freshEvents_elem in He as (result & Hr & Hok & He).
  rewrite Hdrained in Hr. unfold dispatchEventsByArtist in Hr.
  fold cap in Hr. apply elem_of_app in Hr as [Hr|Hr].
  - left. apply list_elem_of_fmap in Hr as ([name src] & -> & Hsrc).
    apply elem_of_map_to_list in Hsrc. exists name, src.
    unfold succeeded, eventSourceResult in *.
    destruct (EventSource.SearchEventsByArtist src artistName cap)
      as [events err] eqn:Hcall. simpl in *. by subst.
  - right.
    destruct (Config.IncludeScrapers (MegaAggregator.config m));
      [|by apply elem_of_nil in Hr].
    split; [done|].
    apply elem_of_lookup_imap in Hr as (j & scrpr & -> & Hscrpr).
    apply list_elem_of_lookup_2 in Hscrpr.
    apply list_elem_of_fmap in Hscrpr as ([name scrpr'] & -> & Hscrpr).
    apply elem_of_map_to_list in Hscrpr. simpl in *.
    unfold succeeded, scraperResult in *.
    destruct (Scraper.ScrapeEvents scrpr' artistName cap)
      as [scraped [err|]] eqn:Hcall; simpl in *; [done|].
    apply elem_of_lookup_imap in He as (i & se & -> & Hse).
    exists name, scrpr', j, i, se. by rewrite Hcall.
Qed.

(** X11. Truncation keeps the most popular. The artists a search returns
    and the ones it drops make up the merged list (deduplicated when the
    configuration asks for it), the result has as many artists as the limit
    allows, and no dropped artist is more popular than a returned one. *)
Theorem truncation_keeps_the_most_popular m clk results query limit :
  0 < Config.MaxConcurrentRequests (MegaAggregator.config m) ->
  missesArtists m clk query limit ->
  let merged := concat (SourceResult.Artists <$> filter succeeded results) in
  let unique :=
    if Config.DeduplicationEnabled (MegaAggregator.config m)
    then DeduplicateArtists merged else merged in
  exists r m' dropped,
    SearchArtists m clk results query limit = Returns (Some r) None m'
    /\ AggregatedResults.Artists r ++ dropped ≡ₚ unique
    /\ length (AggregatedResults.Artists r)
       = (Z.to_nat (effectiveLimit limit) `min` length unique)%nat
    /\ forall a d, a ∈ AggregatedResults.Artists r -> d ∈ dropped ->
         Artist.Popularity d <= Artist.Popularity a.
Proof.
  intros Hcap Hmiss merged unique.
  rewrite (SearchArtists_miss _ _ _ _ _ Hcap Hmiss).
  destruct (freshArtists_fields m clk results limit) as (Hartists & _).
  fold merged unique in Hartists. rewrite truncated_take in Hartists.
  set (n := Z.to_nat (effectiveLimit limit)) in *.
  eexists (freshArtists m clk results limit), _,
    (drop n (sortSlice artistLess unique)).
  split; [done|]. rewrite Hartists. split; [|split].
  - by rewrite take_drop, sortSlice_perm.
  - by rewrite length_take, sortSlice_length.
  - intros a d Ha Hd. apply elem_of_take in Ha as (i & Ha & Hi).
    apply list_elem_of_lookup in Hd as [j Hd]. rewrite lookup_drop in Hd.
    assert (artistLess d a = false) as Hless.
    { eapply (sortSlice_ordered artistLess artistLess_asym artistLess_trans
                unique i (n + j)); [lia|done..]. }
    unfold artistLess in Hless. apply Z.ltb_ge in Hless. lia.
Qed.

(** ** The drain order, when no two records compete *)

Lemma NoDup_fmap_inj_on {A B} (f : A -> B) (l : list A) x y :
  NoDup (f <$> l) -> x ∈ l -> y ∈ l -> f x = f y -> x = y.
Proof.
  intros Hnd Hx Hy Hxy.
  apply list_elem_of_lookup in Hx as [i Hi].
  apply list_elem_of_lookup in Hy as [j Hj].
  assert (i = j) as ->; [|congruence].
  eapply NoDup_lookup; [exact Hnd| |]; rewrite list_lookup_fmap.
  - by rewrite Hi.
  - rewrite Hj. simpl. congruence.
Qed.

Lemma recordCounts_Permutation {A} (items : SourceResult.t -> list A)
    results1 results2 :
  NoDup (SourceResult.SourceName <$> results1) ->
  results1 ≡ₚ results2 ->
  recordCounts items ∅ results1 = recordCounts items ∅ results2.
Proof.
  intros Hnd1 Hperm.
  assert (NoDup (SourceResult.SourceName <$> results2)) as Hnd2
    by (by rewrite <- Hperm).
  destruct (recordCounts_NoDup items results1 Hnd1) as [Hsome1 Hval1].
  destruct (recordCounts_NoDup items results2 Hnd2) as [Hsome2 Hval2].
  apply map_eq. intros name.
  destruct (recordCounts items ∅ results1 !! name) as [v|] eqn:H1.
  - assert (is_Some (recordCounts items ∅ results1 !! name)) as Hs
      by (by rewrite H1).
    apply Hsome1 in Hs as (r & Hr & <- & Hok).
    rewrite Hval1 in H1 by done. rewrite Hval2; [done| |done].
    by rewrite <- Hperm.
  - symmetry. apply eq_None_not_Some. intros Hs.
    apply Hsome2 in Hs as (r & Hr & <- & Hok). rewrite <- Hperm in Hr.
    by rewrite Hval1 in H1.
Qed.

Lemma sortSlice_artists_Permutation l1 l2 :
  NoDup (Artist.Popularity <$> l1) -> l1 ≡ₚ l2 ->
  sortSlice artistLess l1 = sortSlice artistLess l2.
Proof.
  intros Hnd Hperm.
  apply (StronglySorted_unique_strong (fun a b => artistLess b a = false)).
  - intros x1 x2 Hx1 Hx2 H12 H21. rewrite sortSlice_perm in Hx1, Hx2.
    rewrite <- ?Hperm in Hx2.
    apply (NoDup_fmap_inj_on Artist.Popularity l1); [done..|].
    unfold artistLess in *. rewrite Z.ltb_ge in *. lia.
  - apply sortSlice_StronglySorted;
      [apply artistLess_asym|apply artistLess_trans].
  - apply sortSlice_StronglySorted;
      [apply artistLess_asym|apply artistLess_trans].
  - by rewrite !sortSlice_perm.
Qed.

(** X12. When the artists the error-free sources return have pairwise
    distinct popularity and, with deduplication on, pairwise distinct
    keys, the order in which the source results are drained does not show
    in the result: two runs of the same search on the same aggregator that
    differ only in the drain order return the same artists in the same
    order, the same counts, total and search time, and the same errors up
    to their order. *)
Theorem distinct_records_make_drain_order_irrelevant m clk results1 results2
    query limit :
  0 < Config.MaxConcurrentRequests (MegaAggregator.config m) ->
  drainedArtists m query results1 ->
  drainedArtists m query results2 ->
  missesArtists m clk query limit ->
  NoDup (Artist.Popularity
           <$> concat (SourceResult.Artists
                         <$> filter succeeded (dispatchArtists m query))) ->
  (Config.DeduplicationEnabled (MegaAggregator.config m) = true ->
   NoDup ((fun a => normalizeArtistName (Artist.Name a))
            <$> concat (SourceResult.Artists
                          <$> filter succeeded (dispatchArtists m query)))) ->
  exists r1 r2 m1 m2,
    SearchArtists m clk results1 query limit = Returns (Some r1) None m1
    /\ SearchArtists m clk results2 query limit = Returns (Some r2) None m2
    /\ AggregatedResults.Artists r1 = AggregatedResults.Artists r2
    /\ AggregatedResults.SourceStats r1 = AggregatedResults.SourceStats r2
    /\ AggregatedResults.TotalResults r1 = AggregatedResults.TotalResults r2
    /\ AggregatedResults.SearchTime r1 = AggregatedResults.SearchTime r2
    /\ AggregatedResults.Errors r1 ≡ₚ AggregatedResults.Errors r2.
Proof.
  intros Hcap Hd1 Hd2 Hmiss Hpop Hkeys.
  rewrite !(SearchArtists_miss _ _ _ _ _ Hcap Hmiss).
  eexists _, _, _, _. split; [done|]. split; [done|].
  destruct (freshArtists_fields m clk results1 limit)
    as (Ha1 & _ & Hs1 & Ht1 & He1).
  destruct (freshArtists_fields m clk results2 limit)
    as (Ha2 & _ & Hs2 & Ht2 & He2).
  unfold drainedArtists in Hd1, Hd2.
  set (merged1 := concat (SourceResult.Artists <$> filter succeeded results1))
    in *.
  set (merged2 := concat (SourceResult.Artists <$> filter succeeded results2))
    in *.
  assert (merged1
          ≡ₚ concat (SourceResult.Artists
                       <$> filter succeeded (dispatchArtists m query)))
    as Hm1 by (unfold merged1; by rewrite Hd1).
  assert (merged2
          ≡ₚ concat (SourceResult.Artists
                       <$> filter succeeded (dispatchArtists m query)))
    as Hm2 by (unfold merged2; by rewrite Hd2).
  assert ((if Config.DeduplicationEnabled (MegaAggregator.config m)
           then DeduplicateArtists merged1 else merged1) = merged1) as Hu1.
  { destruct (Config.DeduplicationEnabled (MegaAggregator.config m));
      [|done].
    apply (dedup_algebra (fun a => normalizeArtistName (Artist.Name a))).
    rewrite Hm1. by apply Hkeys. }
  assert ((if Config.DeduplicationEnabled (MegaAggregator.config m)
           then DeduplicateArtists merged2 else merged2) = merged2) as Hu2.
  { destruct (Config.DeduplicationEnabled (MegaAggregator.config m));
      [|done].
    apply (dedup_algebra (fun a => normalizeArtistName (Artist.Name a))).
    rewrite Hm2. by apply Hkeys. }
  rewrite Hu1 in Ha1. rewrite Hu2 in Ha2.
  assert (sortSlice artistLess merged1 = sortSlice artistLess merged2) as Hsort.
  { apply sortSlice_artists_Permutation; [by rewrite Hm1|by rewrite Hm1, Hm2]. }
  rewrite Hsort in Ha1.
  assert (AggregatedResults.Artists (freshArtists m clk results1 limit)
          = AggregatedResults.Artists (freshArtists m clk results2 limit))
    as Hartists by (by rewrite Ha1, Ha2).
  split; [done|]. split; [|split; [|split]].
  - rewrite Hs1, Hs2. apply recordCounts_Permutation; [|by rewrite Hd1, Hd2].
    rewrite Hd1. apply dispatchArtists_names.
  - by rewrite Ht1, Ht2, Hartists.
  - unfold freshArtists.
    destruct (collectArtists results1) as [[??]?].
    by destruct (collectArtists results2) as [[??]?].
  - rewrite He1, He2. unfold formattedErrors. by rewrite Hd1, Hd2.
Qed.

(** ** What the per-source counts add up to *)

Lemma sum_Permutation (l1 l2 : list Z) :
  l1 ≡ₚ l2 -> foldr Z.add 0 l1 = foldr Z.add 0 l2.
Proof.
  induction 1 as [|x l1 l2 _ IH|x y l|l1 l2 l3 _ IH1 _ IH2]; simpl; lia.
Qed.

Lemma statsTotal_insert_new (stats : gmap string Z) name n :
  stats !! name = None ->
  statsTotal (<[name := n]> stats) = n + statsTotal stats.
Proof.
  intros Hnew. unfold statsTotal.
  rewrite (sum_Permutation _ (n :: (map_to_list stats).*2)); [done|].
  by rewrite (map_to_list_insert _ _ _ Hnew).
Qed.

Lemma recordCounts_snoc {A} (items : SourceResult.t -> list A) stats results
    result :
  recordCounts items stats (results ++ [result])
  = match SourceResult.Error result with
    | None =>
        <[SourceResult.SourceName result := Z.of_nat (length (items result))]>
          (recordCounts items stats results)
    | Some _ => recordCounts items stats results
    end.
Proof.
  unfold recordCounts. rewrite filter_app, fold_left_app.
  destruct (SourceResult.Error result) eqn:Herr.
  - by rewrite filter_cons_False by (unfold succeeded; congruence).
  - by rewrite filter_cons_True by done.
Qed.

Lemma recordCounts_total {A} (items : SourceResult.t -> list A) results :
  NoDup (SourceResult.SourceName <$> results) ->
  statsTotal (recordCounts items ∅ results)
  = Z.of_nat (length (concat (items <$> filter succeeded results))).
Proof.
  induction results as [|result results IH] using rev_ind; intros Hnd.
  - done.
  - rewrite fmap_app in Hnd. apply NoDup_app in Hnd as (Hnd & Hfresh & _).
    rewrite recordCounts_snoc, filter_app, fmap_app, concat_app, length_app.
    destruct (SourceResult.Error result) eqn:Herr.
    + rewrite filter_cons_False by (unfold succeeded; congruence).
      simpl. rewrite IH by done. lia.
    + rewrite filter_cons_True by done. simpl.
      assert (recordCounts items ∅ results
                !! SourceResult.SourceName result = None) as Hnew.
      { apply eq_None_not_Some. intros Hs.
        apply (recordCounts_NoDup items results Hnd) in Hs
          as (r & Hr & Hname & _).
        apply (Hfresh (SourceResult.SourceName result)).
        - rewrite <- Hname. apply list_elem_of_fmap. by exists r.
        - simpl. by left. }
      rewrite statsTotal_insert_new, IH by done.
      rewrite app_nil_r. lia.
Qed.

(** X13. The per-source counts of an artist search are taken before
    deduplication and truncation: they add up to the number of artists the
    error-free sources returned, which the total of the result never
    exceeds. *)
Theorem artist_source_stats_add_up m clk results query limit :
  0 < Config.MaxConcurrentRequests (MegaAggregator.config m) ->
  drainedArtists m query results ->
  missesArtists m clk query limit ->
  exists r m',
    SearchArtists m clk results query limit = Returns (Some r) None m'
    /\ statsTotal (AggregatedResults.SourceStats r)
       = Z.of_nat (length (concat (SourceResult.Artists
                                     <$> filter succeeded results)))
    /\ AggregatedResults.TotalResults r
       <= statsTotal (AggregatedResults.SourceStats r).
Proof.
  intros Hcap Hdrained Hmiss.
  rewrite (SearchArtists_miss _ _ _ _ _ Hcap Hmiss).
  eexists _, _. split; [done|].
  destruct (freshArtists_fields m clk results limit)
    as (Ha & _ & Hs & Ht & _).
  assert (statsTotal
            (AggregatedResults.SourceStats (freshArtists m clk results limit))
          = Z.of_nat (length (concat (SourceResult.Artists
                                        <$> filter succeeded results))))
    as Htotal.
  { rewrite Hs. apply recordCounts_total.
    by apply (drainedArtists_names m query). }
  split; [done|]. rewrite Htotal, Ht, Ha, truncated_take, length_take.
  rewrite sortSlice_length.
  assert (length (if Config.DeduplicationEnabled (MegaAggregator.config m)
                  then DeduplicateArtists
                         (concat (SourceResult.Artists
                                    <$> filter succeeded results))
                  else concat (SourceResult.Artists
                                 <$> filter succeeded results))
          <= length (concat (SourceResult.Artists
                               <$> filter succeeded results)))%nat.
  { destruct (Config.DeduplicationEnabled (MegaAggregator.config m)); [|done].
    apply (dedup_first_occurrences
             (fun a => normalizeArtistName (Artist.Name a))). }
  lia.
Qed.

(** ** Days, venues and identifiers *)

Lemma keepNew_ext {A} (key : A -> string) l : forall pre1 pre2,
  (forall k, k ∈ key <$> pre1 <-> k ∈ key <$> pre2) ->
  keepNew key pre1 l = keepNew key pre2 l.
Proof.
  induction l as [|x l IH]; intros pre1 pre2 Hsame; simpl; [done|].
  f_equal.
  - destruct (decide (key x ∈ key <$> pre1)) as [H1|H1],
      (decide (key x ∈ key <$> pre2)) as [H2|H2]; try done;
      exfalso; by apply Hsame in H1 || apply Hsame in H2.
  - apply IH. intros k. by rewrite !fmap_app, !elem_of_app, Hsame.
Qed.

Lemma keepNew_drop_known {A} (key : A -> string) pre l1 x l2 :
  key x ∈ key <$> (pre ++ l1) ->
  keepNew key pre (l1 ++ x :: l2) = keepNew key pre (l1 ++ l2).
Proof.
  intros Hknown. rewrite !keepNew_app. f_equal. simpl.
  rewrite decide_True by done. simpl. apply keepNew_ext.
  intros k. rewrite fmap_app, elem_of_app. split; [|by left].
  intros [?|Hk]; [done|]. by apply list_elem_of_singleton in Hk as ->.
Qed.

Lemma string_length_app (s1 s2 : string) :
  String.length (s1 +:+ s2) = (String.length s1 + String.length s2)%nat.
Proof.
  induction s1 as [|c s1 IH]; [done|]. rewrite app_cons. simpl. by rewrite IH.
Qed.

Lemma string_app_inv_head (s s1 s2 : string) : s +:+ s1 = s +:+ s2 -> s1 = s2.
Proof.
  induction s as [|c s IH]; [done|]. rewrite !app_cons. intros [=]. by apply IH.
Qed.

Lemma string_app_inv_tail (s1 : string) : forall s2 s,
  s1 +:+ s = s2 +:+ s -> s1 = s2.
Proof.
  induction s1 as [|c s1 IH]; intros [|c' s2] s Heq.
  - done.
  - apply (f_equal String.length) in Heq.
    rewrite app_cons in Heq. simpl in Heq.
    rewrite !string_length_app in Heq. simpl in Heq. lia.
  - apply (f_equal String.length) in Heq.
    rewrite app_cons in Heq. simpl in Heq.
    rewrite !string_length_app in Heq. simpl in Heq. lia.
  - rewrite !app_cons in Heq. injection Heq as -> Heq.
    f_equal. by apply (IH s2 s).
Qed.

Lemma normalizeEventKey_same_day e1 e2 :
  normalizeArtistName (Event.ArtistName e1)
  = normalizeArtistName (Event.ArtistName e2) ->
  ToLower (ReplaceAll (Venue.Name (Event.Venue e1)) " " "")
  = ToLower (ReplaceAll (Venue.Name (Event.Venue e2)) " " "") ->
  Time.Date (Event.DateTime e1) = Time.Date (Event.DateTime e2) ->
  normalizeEventKey e1 = normalizeEventKey e2.
Proof.
  intros Hartist Hvenue Hday.
  unfold normalizeEventKey, Time.Format20060102.
  by rewrite Hartist, Hvenue, Hday.
Qed.

(** X14. The event key holds the calendar day only. Two events of the same
    artist key and venue key whose instants fall on the same civil date,
    each in its own time zone, are one event to the deduplicator whatever
    their hours: the later one is dropped, and the output is what it would
    have been without it. *)
Theorem same_day_events_are_merged before e1 between e2 after :
  normalizeArtistName (Event.ArtistName e1)
  = normalizeArtistName (Event.ArtistName e2) ->
  ToLower (ReplaceAll (Venue.Name (Event.Venue e1)) " " "")
  = ToLower (ReplaceAll (Venue.Name (Event.Venue e2)) " " "") ->
  Time.Date (Event.DateTime e1) = Time.Date (Event.DateTime e2) ->
  DeduplicateEvents (before ++ e1 :: between ++ e2 :: after)
  = DeduplicateEvents (before ++ e1 :: between ++ after).
Proof.
  intros Hartist Hvenue Hday.
  pose proof (normalizeEventKey_same_day e1 e2 Hartist Hvenue Hday) as Hkey.
  unfold DeduplicateEvents. rewrite !dedup_keepNew.
  assert (forall rest, before ++ e1 :: between ++ rest
                       = (before ++ e1 :: between) ++ rest) as Hshape
    by (intros rest; by rewrite <- app_assoc).
  rewrite (Hshape (e2 :: after)), (Hshape after).
  apply keepNew_drop_known. rewrite <- Hkey. simpl.
  rewrite fmap_app, elem_of_app. right. simpl. by left.
Qed.

(** X15. The identifiers [ToEvent] makes up leave the venue out. Two
    scraped records of the same artist name on the same civil date get the
    same [ID] and the same [ArtistID]; when their venue keys differ the
    deduplicator keeps both, so its output holds two events with one
    identifier. *)
Theorem scraped_event_ids_ignore_the_venue now s1 s2 :
  ScrapedEvent.ArtistName s1 = ScrapedEvent.ArtistName s2 ->
  Time.Date (ScrapedEvent.Date s1) = Time.Date (ScrapedEvent.Date s2) ->
  ToLower (ReplaceAll (ScrapedEvent.VenueName s1) " " "")
  <> ToLower (ReplaceAll (ScrapedEvent.VenueName s2) " " "") ->
  Event.ID (ToEvent now s1) = Event.ID (ToEvent now s2)
  /\ Event.ArtistID (ToEvent now s1) = Event.ArtistID (ToEvent now s2)
  /\ DeduplicateEvents [ToEvent now s1; ToEvent now s2]
     = [ToEvent now s1; ToEvent now s2].
Proof.
  intros Hartist Hday Hvenue. split; [|split].
  - unfold ToEvent, Time.Format20060102. cbn [Event.ID].
    by rewrite Hartist, Hday.
  - unfold ToEvent. cbn [Event.ArtistID]. by rewrite Hartist.
  - apply (dedup_algebra normalizeEventKey). simpl.
    apply NoDup_cons. split; [|apply NoDup_singleton].
    intros Hin. apply list_elem_of_singleton in Hin. apply Hvenue.
    unfold normalizeEventKey, Sprintf_s_s_s, Time.Format20060102, ToEvent
      in Hin.
    cbn [Event.ArtistName Event.Venue Event.DateTime Venue.Name] in Hin.
    rewrite Hartist, Hday in Hin.
    apply string_app_inv_head, string_app_inv_head in Hin.
    by apply string_app_inv_tail in Hin.
Qed.

End Aggregator.

(** * Concrete runs *)

Example normalizeArtistName_examples :
  normalizeArtistName asciiOnly "Radiohead" = "radiohead"
  /\ normalizeArtistName asciiOnly "radiohead." = "radiohead"
  /\ normalizeArtistName asciiOnly "AC-DC Live" = "acdclive".
Proof. by vm_compute. Qed.

Example normalizeEventKey_example :
  normalizeEventKey asciiOnly berlinEvent = "moderat_berghain_19700101".
Proof. by vm_compute. Qed.

Example Format20060102_examples :
  Time.Format20060102 (seconds 951782400) = "20000229"
  /\ Time.Format20060102 (seconds 1709251199) = "20240229"
  /\ Time.Format20060102
       {| Time.unixNano := 1709251199 * Second; Time.zoneOffset := 3600 |}
     = "20240301"
  /\ Time.Format20060102 Time.zero = "00010101".
Proof. by vm_compute. Qed.

Example ReplaceAll_examples :
  ReplaceAll "a.b.c d" "." "" = "abc d"
  /\ ReplaceAll "aaa" "aa" "b" = "ba"
  /\ ReplaceAll "abc" "" "-" = "-a-b-c-".
Proof. by vm_compute. Qed.

Example eventLess_sorts_upcoming_first :
  Event.DateTime
    <$> sortSlice (eventLess (seconds 8))
          ((fun t => {| Event.ID := ""; Event.ArtistID := "";
                        Event.ArtistName := ""; Event.Title := "";
                        Event.DateTime := seconds t;
                        Event.Venue := Event.Venue berlinEvent;
                        Event.TicketURL := ""; Event.TicketStatus := "";
                        Event.CachedUntil := seconds 0 |})
             <$> [5; 30; 8; 10; 2])
  = seconds <$> [10; 30; 2; 5; 8].
Proof. by vm_compute. Qed.

Example throttle_first_call_does_not_sleep :
  musicBrainzRateLimiter.Allow
    musicBrainzRateLimiter.newMusicBrainzRateLimiter (seconds 1700000000)
    (seconds 1700000000)
  = (None,
     {| musicBrainzRateLimiter.lastRequest := seconds 1700000000;
        musicBrainzRateLimiter.interval := Second |},
     0).
Proof. by vm_compute. Qed.

(** C2, as claimed, fails: when B's result is drained first the survivor is
    "radiohead." with popularity 70. *)
Lemma radiohead_winner_depends_on_order :
  ~ (forall results,
       drainedArtists (radioheadAggregator demoConfig) "Radiohead" results ->
       exists r m' a,
         SearchArtists asciiOnly (radioheadAggregator demoConfig)
           (demoClock 0) results "Radiohead" 10
         = Returns (Some r) None m'
         /\ AggregatedResults.Artists r = [a]
         /\ Artist.Name a = "Radiohead"
         /\ Artist.Popularity a = 90).
Proof.
  intros Hclaim.
  destruct (Hclaim [resultB; resultA]) as (r & m' & a & Hrun & Ha & Hn & _).
  { unfold drainedArtists, dispatchArtists, radioheadAggregator. simpl.
    rewrite map_to_list_insert by done.
    by rewrite insert_empty, map_to_list_singleton. }
  rewrite (SearchArtists_miss _ _ _ _ _ _
             (radiohead_capacity demoConfig ltac:(done))
             (radiohead_misses demoConfig (demoClock 0) 10)) in Hrun.
  injection Hrun as <- _.
  destruct (freshArtists_fields asciiOnly (radioheadAggregator demoConfig)
              (demoClock 0) [resultB; resultA] 10) as (Hfields & _).
  rewrite Ha in Hfields. vm_compute in Hfields.
  injection Hfields as ->. discriminate Hn.
Qed.

Lemma radiohead_first_consumed_wins_witness :
  Config.DeduplicationEnabled demoConfig = true
  /\ 0 <= Config.MaxConcurrentRequests demoConfig
  /\ drainedArtists (radioheadAggregator demoConfig) "Radiohead"
       [resultA; resultB]
  /\ exists r m',
       SearchArtists asciiOnly (radioheadAggregator demoConfig) (demoClock 0)
         [resultA; resultB] "Radiohead" 10
       = Returns (Some r) None m'
       /\ AggregatedResults.Artists r = [radioheadA].
Proof.
  assert (drainedArtists (radioheadAggregator demoConfig) "Radiohead"
            [resultA; resultB]) as Hd.
  { unfold drainedArtists, dispatchArtists, radioheadAggregator. simpl.
    rewrite map_to_list_insert by done.
    rewrite insert_empty, map_to_list_singleton. simpl. apply Permutation_swap. }
  assert (0 <= Config.MaxConcurrentRequests demoConfig) as Hcap by done.
  split; [reflexivity|]. split; [exact Hcap|]. split; [exact Hd|].
  destruct (radiohead_first_consumed_wins asciiOnly demoConfig (demoClock 0)
              [resultA; resultB] eq_refl Hcap Hd)
    as (r & m' & Hrun & _ & [[_ Ha] | [Hba _]]).
  - by exists r, m'.
  - discriminate Hba.
Defined.

(** The aggregators of the runs below, and what their searches drain. *)
Lemma radioheadAggregator_reachable config :
  reachable asciiOnly (radioheadAggregator config).
Proof. unfold radioheadAggregator. do 2 apply reach_music. apply reach_new. Qed.


Lemma tour_drained :
  drainedEventsByArtist asciiOnly tourAggregator
    (Clock.tConvert (demoClock 6000)) "Moderat"
    (rev (dispatchEventsByArtist asciiOnly tourAggregator
            (Clock.tConvert (demoClock 6000)) "Moderat")).
Proof. unfold drainedEventsByArtist. symmetry. apply Permutation_rev. Qed.

Lemma fixed_window_limiter_witness :
  Forall (fun now => Time.unixNano now - Time.unixNano (seconds 0)
                     <= 24 * Hour) [seconds 10; seconds 20]
  /\ (rateLimiter.AllowEach (rateLimiter.newRateLimiter 2 (seconds 0))
        [seconds 10; seconds 20]).1 = [None; None]
  /\ rateLimiter.Allow
       {| rateLimiter.requests := 2; rateLimiter.windowStart := seconds 0;
          rateLimiter.dailyLimit := 2 |} (seconds 86400)
     = (Some ErrRateLimitExceeded,
        {| rateLimiter.requests := 2; rateLimiter.windowStart := seconds 0;
           rateLimiter.dailyLimit := 2 |})
  /\ rateLimiter.Allow
       {| rateLimiter.requests := 2; rateLimiter.windowStart := seconds 0;
          rateLimiter.dailyLimit := 2 |} (seconds 86401)
     = (None,
        {| rateLimiter.requests := 1; rateLimiter.windowStart := seconds 86401;
           rateLimiter.dailyLimit := 2 |}).
Proof.
  assert (Forall (fun now => Time.unixNano now - Time.unixNano (seconds 0)
                             <= 24 * Hour) [seconds 10; seconds 20]) as Hin.
  { repeat constructor; by vm_compute. }
  pose proof (fixed_window_limiter 2 (seconds 0) [seconds 10; seconds 20]
                eq_refl Hin) as H.
  assert (rateLimiter.AllowEach (rateLimiter.newRateLimiter 2 (seconds 0))
            [seconds 10; seconds 20]
          = ([None; None],
             {| rateLimiter.requests := 2; rateLimiter.windowStart := seconds 0;
                rateLimiter.dailyLimit := 2 |})) as Hrun by (by vm_compute).
  rewrite Hrun in H. destruct H as (_ & _ & _ & Hnext & Hlater).
  split; [exact Hin|]. split; [by rewrite Hrun|]. split.
  - apply Hnext. by vm_compute.
  - apply (Hlater ltac:(lia)
             {| rateLimiter.requests := 2;
                rateLimiter.windowStart := seconds 0;
                rateLimiter.dailyLimit := 2 |} (seconds 86401));
      [done|by vm_compute].
Defined.

Lemma throttle_never_rejects_witness :
  musicBrainzRateLimiter.Allow pacedLimiter (tenthsOfSecond 1004)
    (tenthsOfSecond 1010)
  = (None,
     {| musicBrainzRateLimiter.lastRequest := tenthsOfSecond 1010;
        musicBrainzRateLimiter.interval := Second |},
     600000000)
  /\ Second
     <= Time.unixNano (tenthsOfSecond 1010) - Time.unixNano (seconds 100).
Proof.
  pose proof (throttle_never_rejects pacedLimiter (tenthsOfSecond 1004)
                (tenthsOfSecond 1010)) as H.
  assert (musicBrainzRateLimiter.Allow pacedLimiter (tenthsOfSecond 1004)
            (tenthsOfSecond 1010)
          = (None,
             {| musicBrainzRateLimiter.lastRequest := tenthsOfSecond 1010;
                musicBrainzRateLimiter.interval := Second |},
             600000000)) as Hrun by (by vm_compute).
  rewrite Hrun in H. destruct H as (_ & _ & _ & H).
  split; [exact Hrun|]. apply H; by vm_compute.
Defined.

(** Two artists and a limit of one: the result is truncated to the more
    popular artist, and its total is one. A limit of zero is a limit of
    fifty. *)
Lemma total_results_and_limit_witness :
  reachable asciiOnly (radioheadAggregator rawConfig)
  /\ (exists r m',
        SearchArtists asciiOnly (radioheadAggregator rawConfig) (demoClock 0)
          [resultB; resultA] "Radiohead" 1
        = Returns (Some r) None m'
        /\ AggregatedResults.Artists r = [radioheadA]
        /\ AggregatedResults.TotalResults r = 1
        /\ AggregatedResults.TotalResults r
           = Z.of_nat (length (AggregatedResults.Artists r))
        /\ Z.of_nat (length (AggregatedResults.Artists r)) <= 1)
  /\ SearchArtists asciiOnly (radioheadAggregator rawConfig) (demoClock 0)
       [resultB; resultA] "Radiohead" 0
     = SearchArtists asciiOnly (radioheadAggregator rawConfig) (demoClock 0)
         [resultB; resultA] "Radiohead" 50.
Proof.
  pose proof (radioheadAggregator_reachable rawConfig) as Hreach.
  split; [exact Hreach|].
  destruct (total_results_and_limit asciiOnly (radioheadAggregator rawConfig)
              Hreach (demoClock 0) [resultB; resultA]) as (Hartists & _).
  split.
  - destruct (Hartists "Radiohead" 1) as (_ & Hprops & _).
    pose proof (SearchArtists_miss asciiOnly _ _ [resultB; resultA] _ _
                  (radiohead_capacity rawConfig ltac:(done))
                  (radiohead_misses rawConfig (demoClock 0) 1)) as Hrun.
    destruct (Hprops _ _ _ Hrun) as (res & Hres & Htotal & Hlen).
    apply (inj Some) in Hres. rewrite <- Hres in Htotal, Hlen.
    eexists _, _. split; [exact Hrun|].
    split; [by vm_compute|]. split; [by vm_compute|]. by split.
  - destruct (Hartists "Radiohead" 0) as (_ & _ & Hdefault).
    apply Hdefault. lia.
Defined.


Lemma cache_get_set_idempotence_witness :
  exists r1 m1,
    SearchArtists asciiOnly (radioheadAggregator demoConfig) (demoClock 0)
      [resultA; resultB] "Radiohead" 10
    = Returns (Some r1) None m1
    /\ SearchArtists asciiOnly m1 (demoClock 3602) [] "Radiohead" 10
       = Returns (Some r1) None m1.
Proof.
  destruct (cache_get_set_idempotence asciiOnly) as (_ & _ & _ & _ & Hsearch).
  destruct (Hsearch (radioheadAggregator demoConfig)
              (NewAggregatorCache (1 * Hour)) (demoClock 0)
              [resultA; resultB] "Radiohead" 10 eq_refl
              (radiohead_capacity demoConfig ltac:(done)))
    as (r1 & m1 & c1 & entry & Hrun & _ & _ & Hexpiry & Hagain).
  exists r1, m1. split; [exact Hrun|]. apply Hagain.
  rewrite Hexpiry by apply radiohead_misses. by vm_compute.
Defined.

(** C1, as claimed, fails: an aggregator made with a negative
    [MaxConcurrentRequests] and left without a source panics where the
    claim has it return an empty result. *)
Lemma search_without_sources_can_panic :
  ~ (forall m clk results query limit,
       reachable asciiOnly m ->
       MegaAggregator.musicSources m = ∅ ->
       drainedArtists m query results ->
       exists r m',
         SearchArtists asciiOnly m clk results query limit
         = Returns (Some r) None m'
         /\ AggregatedResults.Artists r = []
         /\ AggregatedResults.Errors r = []).
Proof.
  intros Hclaim.
  destruct (Hclaim (NewMegaAggregator negativeConfig) (demoClock 0) []
              "Radiohead" 10) as (r & m' & Hrun & _).
  - apply reach_new.
  - done.
  - unfold drainedArtists. by vm_compute.
  - rewrite SearchArtists_panics in Hrun; done.
Qed.

Lemma source_failures_never_abort_witness :
  (exists r m',
     SearchArtists asciiOnly outageAggregator (demoClock 0) outageResults
       "Radiohead" 10
     = Returns (Some r) None m'
     /\ AggregatedResults.Artists r = []
     /\ AggregatedResults.Errors r = ["lastfm: timeout"; "spotify: status 503"])
  /\ SearchArtists asciiOnly (NewMegaAggregator negativeConfig) (demoClock 0)
       [] "Radiohead" 10
     = Panics.
Proof.
  destruct (source_failures_never_abort asciiOnly)
    as (_ & _ & _ & _ & Hfail & Hpanic).
  split.
  - assert (0 < Config.MaxConcurrentRequests
                  (MegaAggregator.config outageAggregator)) as Hcap by done.
    destruct (Hfail outageAggregator (demoClock 0) outageResults Hcap)
      as (Hartists & _).
    { intros result Hin. unfold outageResults in Hin.
      repeat (apply elem_of_cons in Hin as [->|Hin]; [done|]).
      by apply elem_of_nil in Hin. }
    destruct (Hartists "Radiohead" 10) as (r & m' & Hrun & HA & _ & Herr & _).
    + unfold drainedArtists, dispatchArtists, outageAggregator. simpl.
      rewrite map_to_list_insert by done.
      rewrite insert_empty, map_to_list_singleton. simpl.
      apply Permutation_swap.
    + done.
    + exists r, m'. split; [done|]. split; [done|]. by rewrite Herr.
  - assert (Config.MaxConcurrentRequests
              (MegaAggregator.config (NewMegaAggregator negativeConfig)) < 0)
      as Hcap by done.
    destruct (Hpanic (NewMegaAggregator negativeConfig) (demoClock 0) [] Hcap)
      as (Hartists & _).
    by apply Hartists.
Defined.


Lemma event_cache_key_not_injective_witness :
  exists r m1,
    SearchEventsByLocation asciiOnly cityAggregator (demoClock 0)
      [ {| SourceResult.SourceName := "songkick"; SourceResult.Artists := [];
           SourceResult.Events := [berlinEvent];
           SourceResult.Error := None |} ] "a_" "DE" 10
    = Returns (Some r) None m1
    /\ AggregatedResults.Events r = [berlinEvent]
    /\ SearchEvents asciiOnly m1 (demoClock 60)
         [ {| SourceResult.SourceName := "songkick";
              SourceResult.Artists := []; SourceResult.Events := [];
              SourceResult.Error := Some "not found" |} ] "_a" 10
       = Returns (Some r) None m1.
Proof.
  destruct (event_cache_key_not_injective asciiOnly) as (_ & _ & _ & Hcross & _).
  assert (missesEvents cityAggregator (demoClock 0) "" "a_" 10) as Hmiss
    by done.
  assert (0 < Config.MaxConcurrentRequests
                (MegaAggregator.config cityAggregator)) as Hcap by done.
  destruct (Hcross cityAggregator (NewAggregatorCache (1 * Hour))
              (demoClock 0)
              [ {| SourceResult.SourceName := "songkick";
                   SourceResult.Artists := [];
                   SourceResult.Events := [berlinEvent];
                   SourceResult.Error := None |} ] "DE" 10 (demoClock 60)
              [ {| SourceResult.SourceName := "songkick";
                   SourceResult.Artists := []; SourceResult.Events := [];
                   SourceResult.Error := Some "not found" |} ]
              eq_refl Hcap Hmiss ltac:(by vm_compute)) as (m1 & Hrun & Hagain).
  eexists _, m1. split; [exact Hrun|]. split; [by vm_compute|exact Hagain].
Defined.

(** ** Runs for the further properties *)

Lemma sliding_window_refuses_exactly_when_full_witness :
  (eventRateLimiter.Allow
     (eventRateLimiter.AllowEach (eventRateLimiter.newHourlyRateLimiter 2)
        [seconds 0; seconds 10; seconds 20]).2
     (seconds 3605)).1 = None.
Proof.
  assert (0 <= 2) as Hlimit by lia.
  assert (0 < Hour <= maxDuration) as Hwindow by (by vm_compute).
  assert (StronglySorted (fun a b => Time.unixNano a <= Time.unixNano b)
            ([seconds 0; seconds 10; seconds 20] ++ [seconds 3605])) as Hsorted.
  { repeat (constructor; [|repeat (constructor; [by vm_compute|]);
                            by constructor]).
    constructor. }
  pose proof (sliding_window_refuses_exactly_when_full 2 Hour
                [seconds 0; seconds 10; seconds 20] (seconds 3605)
                Hlimit Hwindow Hsorted) as H.
  cbv zeta in H.
  change {| eventRateLimiter.requests := []; eventRateLimiter.limit := 2;
            eventRateLimiter.windowSize := Hour |}
    with (eventRateLimiter.newHourlyRateLimiter 2) in H.
  destruct (eventRateLimiter.AllowEach (eventRateLimiter.newHourlyRateLimiter 2)
              [seconds 0; seconds 10; seconds 20]) as [errs r] eqn:Hrun.
  assert (errs = [None; None; Some ErrRateLimitExceeded]) as ->
    by (by injection (eq_trans (eq_sym Hrun) (eq_refl : _ = _))).
  cbn [snd].
  destruct (eventRateLimiter.Allow r (seconds 3605)) as [err r'].
  destruct H as (_ & H & _). apply H. by vm_compute.
Defined.

Lemma fixed_window_count_within_limit_witness :
  0 <= 2
  /\ rateLimiter.requests
       (rateLimiter.AllowEach (rateLimiter.newRateLimiter 2 (seconds 0))
          [seconds 1; seconds 2; seconds 3; seconds 90000; seconds 5]).2
     <= 2.
Proof.
  assert (0 <= 2) as Hlimit by lia. split; [exact Hlimit|].
  pose proof (fixed_window_count_within_limit 2 (seconds 0)
                [seconds 1; seconds 2; seconds 3; seconds 90000; seconds 5]
                Hlimit) as H.
  destruct (rateLimiter.AllowEach _ _) as [errs r]. cbn [snd].
  destruct H as ([_ H] & _). exact H.
Defined.

Lemma fixed_window_boundary_burst_witness :
  (rateLimiter.AllowEach (rateLimiter.newRateLimiter 3 (seconds 0))
     [seconds 86400; seconds 86400; seconds 86400;
      tenthsOfSecond 864001; tenthsOfSecond 864001; tenthsOfSecond 864001]).1
  = [None; None; None; None; None; None].
Proof.
  assert (Time.unixNano (seconds 86400) - Time.unixNano (seconds 0)
          <= 24 * Hour) as Hin by (by vm_compute).
  assert (24 * Hour
          < Time.unixNano (tenthsOfSecond 864001) - Time.unixNano (seconds 0))
    as Hout by (by vm_compute).
  exact (fixed_window_boundary_burst 3 (seconds 0) (seconds 86400)
           (tenthsOfSecond 864001) Hin Hout).
Defined.

Lemma throttle_sleeps_until_interval_end_witness :
  (musicBrainzRateLimiter.Allow pacedLimiter (tenthsOfSecond 1004)
     (tenthsOfSecond 1010)).2
  = 600000000.
Proof.
  rewrite (throttle_sleeps_until_interval_end pacedLimiter
             (tenthsOfSecond 1004) (tenthsOfSecond 1010));
    by vm_compute.
Defined.

Lemma location_cache_ignores_country_witness :
  exists r m1,
    SearchEventsByLocation asciiOnly cityAggregator (demoClock 0)
      [ {| SourceResult.SourceName := "songkick"; SourceResult.Artists := [];
           SourceResult.Events := [berlinEvent];
           SourceResult.Error := None |} ] "Berlin" "DE" 10
    = Returns (Some r) None m1
    /\ AggregatedResults.Events r = [berlinEvent]
    /\ SearchEventsByLocation asciiOnly m1 (demoClock 60) [] "Berlin" "FR" 10
       = Returns (Some r) None m1.
Proof.
  assert (missesEvents cityAggregator (demoClock 0) "" "Berlin" 10) as Hmiss
    by done.
  assert (0 < Config.MaxConcurrentRequests
                (MegaAggregator.config cityAggregator)) as Hcap by done.
  destruct (location_cache_ignores_country asciiOnly cityAggregator
              (NewAggregatorCache (1 * Hour)) (demoClock 0)
              [ {| SourceResult.SourceName := "songkick";
                   SourceResult.Artists := [];
                   SourceResult.Events := [berlinEvent];
                   SourceResult.Error := None |} ] "Berlin" "DE" "FR" 10
              (demoClock 60) [] eq_refl Hcap Hmiss ltac:(by vm_compute))
    as (m1 & Hrun & Hagain).
  eexists _, m1. split; [exact Hrun|]. split; [by vm_compute|exact Hagain].
Defined.

Lemma registration_keeps_cached_results_witness :
  exists r m1,
    SearchArtists asciiOnly
      (RegisterMusicSource (NewMegaAggregator demoConfig) "A" sourceA)
      (demoClock 0) [resultA] "Radiohead" 10
    = Returns (Some r) None m1
    /\ AggregatedResults.Artists r = [radioheadA]
    /\ SearchArtists asciiOnly (RegisterMusicSource m1 "B" sourceB)
         (demoClock 60) [resultB; resultA] "Radiohead" 10
       = Returns (Some r) None (RegisterMusicSource m1 "B" sourceB).
Proof.
  assert (missesArtists
            (RegisterMusicSource (NewMegaAggregator demoConfig) "A" sourceA)
            (demoClock 0) "Radiohead" 10) as Hmiss by done.
  assert (0 < Config.MaxConcurrentRequests
                (MegaAggregator.config
                   (RegisterMusicSource (NewMegaAggregator demoConfig) "A"
                      sourceA))) as Hcap by done.
  destruct (registration_keeps_cached_results asciiOnly
              (RegisterMusicSource (NewMegaAggregator demoConfig) "A" sourceA)
              (NewAggregatorCache (1 * Hour)) (demoClock 0) [resultA]
              "Radiohead" 10 "B" sourceB (demoClock 60) [resultB; resultA]
              eq_refl Hcap Hmiss ltac:(by vm_compute))
    as (m1 & Hrun & _ & Hagain).
  eexists _, m1. split; [exact Hrun|]. split; [by vm_compute|exact Hagain].
Defined.

Lemma artist_search_touches_only_its_entry_witness :
  exists r m' c1,
    SearchArtists asciiOnly (radioheadAggregator demoConfig) (demoClock 0)
      [resultA; resultB] "Radiohead" 10
    = Returns (Some r) None m'
    /\ m' = withCache (radioheadAggregator demoConfig) c1
    /\ AggregatorCache.artistCache c1 !! Sprintf_s_d "Radiohead" 20 = None.
Proof.
  pose proof (SearchArtists_miss asciiOnly _ _ [resultA; resultB] _ _
                (radiohead_capacity demoConfig ltac:(done))
                (radiohead_misses demoConfig (demoClock 0) 10)) as Hrun.
  destruct (artist_search_touches_only_its_entry asciiOnly
              (radioheadAggregator demoConfig) (NewAggregatorCache (1 * Hour))
              (demoClock 0) [resultA; resultB] "Radiohead" 10 _ _ _
              eq_refl Hrun)
    as (c1 & Hm' & _ & _ & Hframe & _).
  eexists _, _, c1. split; [exact Hrun|]. split; [exact Hm'|].
  rewrite (Hframe "Radiohead" 20); [done|]. by vm_compute.
Defined.

Lemma partial_drained :
  drainedArtists partialAggregator "Radiohead" partialResults.
Proof. unfold drainedArtists. by vm_compute. Qed.

Lemma partial_capacity :
  0 < Config.MaxConcurrentRequests (MegaAggregator.config partialAggregator).
Proof. done. Qed.

Lemma artists_come_from_error_free_sources_witness :
  exists r m',
    SearchArtists asciiOnly partialAggregator (demoClock 0) partialResults
      "Radiohead" 10
    = Returns (Some r) None m'
    /\ forall a, a ∈ AggregatedResults.Artists r ->
         exists name src,
           MegaAggregator.musicSources partialAggregator !! name = Some src
           /\ (src "Radiohead"
                 (Config.MaxResultsPerSource
                    (MegaAggregator.config partialAggregator))).2 = None
           /\ a ∈ (src "Radiohead"
                     (Config.MaxResultsPerSource
                        (MegaAggregator.config partialAggregator))).1.
Proof.
  assert (missesArtists partialAggregator (demoClock 0) "Radiohead" 10)
    as Hmiss by done.
  exact (artists_come_from_error_free_sources asciiOnly partialAggregator
           (demoClock 0) partialResults "Radiohead" 10 partial_capacity
           partial_drained Hmiss).
Defined.

Lemma events_come_from_error_free_sources_witness :
  exists r m',
    SearchEvents asciiOnly tourAggregator (demoClock 6000)
      (rev (dispatchEventsByArtist asciiOnly tourAggregator
              (Clock.tConvert (demoClock 6000)) "Moderat")) "Moderat" 10
    = Returns (Some r) None m'
    /\ Event.CachedUntil <$> AggregatedResults.Events r
       = [seconds 0; seconds 92401; seconds 92402; seconds 0].
Proof.
  assert (0 < Config.MaxConcurrentRequests
                (MegaAggregator.config tourAggregator)) as Hcap by done.
  assert (missesEvents tourAggregator (demoClock 6000) "Moderat" "" 10)
    as Hmiss by done.
  destruct (events_come_from_error_free_sources asciiOnly tourAggregator
              (demoClock 6000) _ "Moderat" 10 Hcap tour_drained Hmiss)
    as (r & m' & Hrun & _).
  pose proof (SearchEvents_miss asciiOnly _ _
                (rev (dispatchEventsByArtist asciiOnly tourAggregator
                        (Clock.tConvert (demoClock 6000)) "Moderat"))
                _ _ Hcap Hmiss) as Hfresh.
  eexists _, _. split; [exact Hfresh|]. vm_compute. reflexivity.
Defined.

Lemma truncation_keeps_the_most_popular_witness :
  exists r m' dropped,
    SearchArtists asciiOnly (radioheadAggregator rawConfig) (demoClock 0)
      [resultB; resultA] "Radiohead" 1
    = Returns (Some r) None m'
    /\ AggregatedResults.Artists r ++ dropped ≡ₚ [radioheadB; radioheadA]
    /\ length (AggregatedResults.Artists r) = 1%nat.
Proof.
  destruct (truncation_keeps_the_most_popular asciiOnly
              (radioheadAggregator rawConfig) (demoClock 0)
              [resultB; resultA] "Radiohead" 1
              (radiohead_capacity rawConfig ltac:(done))
              (radiohead_misses rawConfig (demoClock 0) 1))
    as (r & m' & dropped & Hrun & Hsplit & Hlen & _).
  by exists r, m', dropped.
Defined.

Lemma distinct_records_make_drain_order_irrelevant_witness :
  exists r1 r2 m1 m2,
    SearchArtists asciiOnly (radioheadAggregator rawConfig) (demoClock 0)
      [resultA; resultB] "Radiohead" 10
    = Returns (Some r1) None m1
    /\ SearchArtists asciiOnly (radioheadAggregator rawConfig) (demoClock 0)
         [resultB; resultA] "Radiohead" 10
       = Returns (Some r2) None m2
    /\ AggregatedResults.Artists r1 = AggregatedResults.Artists r2.
Proof.
  assert (drainedArtists (radioheadAggregator rawConfig) "Radiohead"
            [resultA; resultB]) as Hd1.
  { unfold drainedArtists. vm_compute. reflexivity. }
  assert (drainedArtists (radioheadAggregator rawConfig) "Radiohead"
            [resultB; resultA]) as Hd2.
  { unfold drainedArtists. vm_compute. apply Permutation_swap. }
  assert (NoDup (Artist.Popularity
                   <$> concat (SourceResult.Artists
                                 <$> filter succeeded
                                       (dispatchArtists
                                          (radioheadAggregator rawConfig)
                                          "Radiohead")))) as Hpop.
  { vm_compute. apply NoDup_cons. split; [|apply NoDup_singleton].
    intros Hin. by apply list_elem_of_singleton in Hin. }
  destruct (distinct_records_make_drain_order_irrelevant asciiOnly
              (radioheadAggregator rawConfig) (demoClock 0)
              [resultA; resultB] [resultB; resultA] "Radiohead" 10
              (radiohead_capacity rawConfig ltac:(done))
              Hd1 Hd2 (radiohead_misses rawConfig (demoClock 0) 10) Hpop
              ltac:(discriminate))
    as (r1 & r2 & m1 & m2 & Hrun1 & Hrun2 & Hartists & _).
  by exists r1, r2, m1, m2.
Defined.

Lemma artist_source_stats_add_up_witness :
  exists r m',
    SearchArtists asciiOnly partialAggregator (demoClock 0) partialResults
      "Radiohead" 10
    = Returns (Some r) None m'
    /\ statsTotal (AggregatedResults.SourceStats r) = 2
    /\ AggregatedResults.TotalResults r <= 2.
Proof.
  assert (missesArtists partialAggregator (demoClock 0) "Radiohead" 10)
    as Hmiss by done.
  destruct (artist_source_stats_add_up asciiOnly partialAggregator
              (demoClock 0) partialResults "Radiohead" 10 partial_capacity
              partial_drained Hmiss)
    as (r & m' & Hrun & Htotal & Hle).
  exists r, m'. split; [exact Hrun|]. rewrite Htotal in Hle.
  split; [exact Htotal|exact Hle].
Defined.

Lemma same_day_events_are_merged_witness :
  Time.Date (Event.DateTime berlinEvent)
  = Time.Date (Event.DateTime berlinLateShow)
  /\ DeduplicateEvents asciiOnly [berlinEvent; berlinLateShow]
     = DeduplicateEvents asciiOnly [berlinEvent].
Proof.
  assert (Time.Date (Event.DateTime berlinEvent)
          = Time.Date (Event.DateTime berlinLateShow)) as Hday
    by (vm_compute; reflexivity).
  split; [exact Hday|].
  exact (same_day_events_are_merged asciiOnly [] berlinEvent [] berlinLateShow
           [] ltac:(vm_compute; reflexivity) ltac:(vm_compute; reflexivity)
           Hday).
Defined.

Lemma scraped_event_ids_ignore_the_venue_witness :
  Event.ID (ToEvent asciiOnly (seconds 1) (clubNight "Tresor"))
  = Event.ID (ToEvent asciiOnly (seconds 1) (clubNight "Berghain"))
  /\ DeduplicateEvents asciiOnly
       [ToEvent asciiOnly (seconds 1) (clubNight "Tresor");
        ToEvent asciiOnly (seconds 1) (clubNight "Berghain")]
     = [ToEvent asciiOnly (seconds 1) (clubNight "Tresor");
        ToEvent asciiOnly (seconds 1) (clubNight "Berghain")].
Proof.
  assert (ToLower asciiOnly
            (ReplaceAll (ScrapedEvent.VenueName (clubNight "Tresor")) " " "")
          <> ToLower asciiOnly
               (ReplaceAll (ScrapedEvent.VenueName (clubNight "Berghain"))
                  " " "")) as Hvenue
    by (vm_compute; discriminate).
  destruct (scraped_event_ids_ignore_the_venue asciiOnly (seconds 1)
              (clubNight "Tresor") (clubNight "Berghain") eq_refl eq_refl
              Hvenue) as (Hid & _ & Hboth).
  by split.
Defined.
